(** * HTMLGuitarTuner: the pitch-estimation core of the tuner script

    A shallow embedding of the numeric core of the tuner script:
    [autoCorrelate] (the autocorrelation pitch detector), the pitch
    bookkeeping of [updatePitch] (bounded history, median, direction glyph),
    the state reset of [cleanup], and the note arithmetic
    [noteFromPitch] / [frequencyFromNoteNumber].

    JavaScript numbers are IEEE-754 binary64 values; they are embedded as
    Rocq's primitive [float], whose operations are the same correctly rounded
    binary64 operations.  Array lengths and loop counters are embedded as
    [nat] / [Z] and converted where the script uses them in arithmetic.

    The note arithmetic goes through [Math.log] and [Math.pow], which
    ECMAScript leaves implementation-approximated.  They are parameters of
    the embedding; what is proved about the note arithmetic is proved for
    every host whose results are close to the mathematical functions, the
    real numbers serving to say what close means.  [Math.round], which
    ECMAScript fixes exactly, is defined on the binary64 values. *)

From Stdlib Require Import Reals Lra.
From Stdlib Require Import String ZArith List Bool Lia Floats.
From Stdlib Require Uint63.
From Stdlib Require Import Permutation Sorted.
Import ListNotations.

Set Warnings "-inexact-float".

Local Open Scope float_scope.

(** ** Numbers and arrays *)

(** An integer used as a JavaScript number.  The conversion is exact below
    [2^53], which covers every array length and index of the script. *)
Definition of_Z (z : Z) : float :=
  match z with
  | Z0 => 0
  | Zpos _ => of_uint63 (Uint63.of_Z z)
  | Zneg p => - of_uint63 (Uint63.of_Z (Zpos p))
  end.

Definition of_nat (n : nat) : float := of_Z (Z.of_nat n).

(** [a[i]]: reading outside the array gives [undefined], which every
    arithmetic operator of the script turns into [NaN]. *)
Definition get (a : list float) (i : nat) : float := nth i a nan.

(** [a[k]] for an index that may be negative. *)
Definition getZ (a : list float) (k : Z) : float :=
  if (k <? 0)%Z then nan else get a (Z.to_nat k).

(** [a[i] = v] on a typed array: a store outside the array is ignored. *)
Fixpoint set (a : list float) (i : nat) (v : float) : list float :=
  match a, i with
  | [], _ => []
  | _ :: t, O => v :: t
  | h :: t, S i' => h :: set t i' v
  end.

(** The value a [Float32Array] element holds after storing [x]: [x] rounded
    to the nearest binary32 value, ties to even. *)
Definition fround (x : float) : float :=
  match Prim2SF x with
  | S754_finite s m e => SF2Prim (binary_round 24 128 s m e)
  | _ => x
  end.

(** ** CONSTANTS *)

Record constants := {
  BUFFER_SIZE : nat;
  MIN_RMS : float;
  NOISE_THRESHOLD : float;
  NOTE_STRINGS : list string
}.

Definition CONSTANTS : constants := {|
  BUFFER_SIZE := 1;
  MIN_RMS := 0.001;
  NOISE_THRESHOLD := 0.02;
  NOTE_STRINGS := ["C"; "C#"; "D"; "D#"; "E"; "F"; "F#"; "G"; "G#"; "A"; "A#"; "B"]%string
|}.

(** ** autoCorrelate *)

(** [Math.sqrt(buf.reduce((acc, val) => acc + val * val, 0) / SIZE)] *)
Definition rmsOf (buf : list float) : float :=
  sqrt (fold_left (fun acc val => acc + val * val) buf 0 / of_nat (length buf)).

(** The inner loop: the sum of [|buf[i] - buf[i + offset]|] for
    [i = 0 .. MAX_SAMPLES - 1], accumulated from 0 in that order. *)
Definition difference (buf : list float) (MAX_SAMPLES offset : nat) : float :=
  fold_left (fun correlation i => correlation + abs (get buf i - get buf (i + offset)))
            (seq 0 MAX_SAMPLES) 0.

(** [correlation = 1 - (correlation / MAX_SAMPLES)] *)
Definition score (buf : list float) (MAX_SAMPLES offset : nat) : float :=
  1 - difference buf MAX_SAMPLES offset / of_nat MAX_SAMPLES.

(** The local variables of the outer loop. *)
Record scanState := {
  bestOffset : Z;
  bestCorrelation : float;
  foundGoodCorrelation : bool;
  lastCorrelation : float;
  correlations : list float
}.

Definition scanInit (MAX_SAMPLES : nat) : scanState := {|
  bestOffset := -1;
  bestCorrelation := 0;
  foundGoodCorrelation := false;
  lastCorrelation := 1;
  correlations := repeat 0 MAX_SAMPLES
|}.

(** How the outer loop is left: by the [return] inside it, or by running
    out of offsets.  Both carry the variables as they are at that point. *)
Inductive scanExit :=
  | Refine (s : scanState)
  | Exhausted (s : scanState).

(** The outer loop, [fuel] iterations from [offset] on. *)
Fixpoint scan (buf : list float) (MAX_SAMPLES fuel offset : nat) (s : scanState)
  : scanExit :=
  match fuel with
  | O => Exhausted s
  | S fuel' =>
      let correlation := score buf MAX_SAMPLES offset in
      let cs := set (correlations s) offset (fround correlation) in
      if (0.9 <? correlation) && (lastCorrelation s <? correlation) then
        if bestCorrelation s <? correlation then
          scan buf MAX_SAMPLES fuel' (S offset)
               {| bestOffset := Z.of_nat offset;
                  bestCorrelation := correlation;
                  foundGoodCorrelation := true;
                  lastCorrelation := correlation;
                  correlations := cs |}
        else
          scan buf MAX_SAMPLES fuel' (S offset)
               {| bestOffset := bestOffset s;
                  bestCorrelation := bestCorrelation s;
                  foundGoodCorrelation := true;
                  lastCorrelation := correlation;
                  correlations := cs |}
      else if foundGoodCorrelation s then
        Refine {| bestOffset := bestOffset s;
                  bestCorrelation := bestCorrelation s;
                  foundGoodCorrelation := true;
                  lastCorrelation := lastCorrelation s;
                  correlations := cs |}
      else
        scan buf MAX_SAMPLES fuel' (S offset)
             {| bestOffset := bestOffset s;
                bestCorrelation := bestCorrelation s;
                foundGoodCorrelation := false;
                lastCorrelation := correlation;
                correlations := cs |}
  end.

(** [shift] of the interpolation, from the stored correlations. *)
Definition shiftOf (s : scanState) : float :=
  (getZ (correlations s) (bestOffset s + 1) - getZ (correlations s) (bestOffset s - 1))
  / getZ (correlations s) (bestOffset s).

(** The value returned inside the loop. *)
Definition refined (sampleRate : float) (s : scanState) : float :=
  sampleRate / (of_Z (bestOffset s) + 8 * shiftOf s).

Definition scanOf (buf : list float) : scanExit :=
  let MAX_SAMPLES := (length buf / 2)%nat in
  scan buf MAX_SAMPLES MAX_SAMPLES 0 (scanInit MAX_SAMPLES).

Definition autoCorrelate (buf : list float) (sampleRate : float) : float :=
  if rmsOf buf <? NOISE_THRESHOLD CONSTANTS then -1
  else
    match scanOf buf with
    | Refine s => refined sampleRate s
    | Exhausted s =>
        if 0.01 <? bestCorrelation s then sampleRate / of_Z (bestOffset s)
        else -1
    end.

(** The sentinel [-1] read as "no pitch", every other number as a detected
    frequency. *)
Inductive PitchEstimate :=
  | NoPitch
  | Detected (frequencyHz : float).

Definition estimateOf (ac : float) : PitchEstimate :=
  if ac =? -1 then NoPitch else Detected ac.

(** What a call of the analyzer can end in.  [autoCorrelate] contains no
    [throw], and none of the operations it uses throws (an out-of-range
    array read is [undefined]); every call ends in a returned number. *)
Inductive outcome :=
  | InvalidInput
  | Returned (estimate : PitchEstimate).

Definition analyze (buf : list float) (sampleRate : float) : outcome :=
  Returned (estimateOf (autoCorrelate buf sampleRate)).

(** ** tunerState, the pitch bookkeeping of updatePitch, and cleanup *)

(** The Web Audio objects held in [tunerState] are opaque handles; so is the
    id of an animation frame request, a non-zero number. *)
Definition handle := nat.

Record tunerState := {
  audioContext : option handle;
  analyser : option handle;
  mediaStreamSource : option handle;
  animationId : option handle;
  pitchBuffer : list float;
  lastValidPitch : float;
  gainNode : option handle;
  isRunning : bool;
  currentStream : option handle
}.

Definition initialState : tunerState := {|
  audioContext := None;
  analyser := None;
  mediaStreamSource := None;
  animationId := None;
  pitchBuffer := [];
  lastValidPitch := 0;
  gainNode := None;
  isRunning := false;
  currentStream := None
|}.

(** [pitchBuffer.push(ac)] followed by one [shift()] when the length exceeds
    the capacity. *)
Definition pushBounded (capacity : nat) (ac : float) (pitches : list float)
  : list float :=
  let pushed := pitches ++ [ac] in
  if (capacity <? length pushed)%nat then tl pushed else pushed.

(** The guard [rms > CONSTANTS.MIN_RMS && ac !== -1]. *)
Definition accepted (rms ac : float) : bool :=
  (MIN_RMS CONSTANTS <? rms) && negb (ac =? -1).

(** "Process pitch if volume is above threshold", for a given capacity. *)
Definition trackWith (capacity : nat) (rms ac : float) (st : tunerState)
  : tunerState :=
  if accepted rms ac then
    {| audioContext := audioContext st;
       analyser := analyser st;
       mediaStreamSource := mediaStreamSource st;
       animationId := animationId st;
       pitchBuffer := pushBounded capacity ac (pitchBuffer st);
       lastValidPitch := ac;
       gainNode := gainNode st;
       isRunning := isRunning st;
       currentStream := currentStream st |}
  else st.

Definition trackPitch : float -> float -> tunerState -> tunerState :=
  trackWith (BUFFER_SIZE CONSTANTS).

(** [a || b] on numbers: [0], [-0] and [NaN] are falsy. *)
Definition orElse (a b : float) : float :=
  if (a =? 0) || is_nan a then b else a.

(** The comparator [(a, b) => a - b] puts [a] before [b] when [a - b < 0].
    A stable sort with it inserts the elements in arrival order, each before
    the first element it must precede. *)
Fixpoint insertSorted (x : float) (sorted : list float) : list float :=
  match sorted with
  | [] => [x]
  | y :: rest => if x - y <? 0 then x :: sorted else y :: insertSorted x rest
  end.

(** [tunerState.animationId = id] *)
Definition withAnimationId (id : option handle) (st : tunerState) : tunerState :=
  {| audioContext := audioContext st;
     analyser := analyser st;
     mediaStreamSource := mediaStreamSource st;
     animationId := id;
     pitchBuffer := pitchBuffer st;
     lastValidPitch := lastValidPitch st;
     gainNode := gainNode st;
     isRunning := isRunning st;
     currentStream := currentStream st |}.

Section Engine.

(** ECMAScript fixes the array [sort] returns only when the comparator is
    consistent on the values sorted.  [(a, b) => a - b] is consistent on
    finite numbers; it returns [NaN] when an argument is [NaN] and on two
    equal infinities, and is not consistent on a set holding one of them.
    For such an array of two or more elements the order is left to the
    implementation: [engineOrder] is the order the engine at hand leaves.
    An array of at most one element comes back as it is. *)
Variable engineOrder : list float -> list float.

(** [[...pitchBuffer].sort((a, b) => a - b)] *)
Definition sortAscending (pitches : list float) : list float :=
  if (length pitches <=? 1)%nat || forallb is_finite pitches
  then fold_left (fun sorted x => insertSorted x sorted) pitches []
  else engineOrder pitches.

(** "Get median pitch from buffer". *)
Definition smoothedPitch (st : tunerState) : float :=
  let sortedPitches := sortAscending (pitchBuffer st) in
  if (0 <? length (pitchBuffer st))%nat
  then get sortedPitches (length sortedPitches / 2)
  else orElse (lastValidPitch st) 0.

(** The bookkeeping of one frame: the analyzer result and the volume go
    through the guard, then the median is read. *)
Definition update (rms ac : float) (st : tunerState) : tunerState * float :=
  let st' := trackPitch rms ac st in (st', smoothedPitch st').

(** [updatePitch] on a frame: both numbers come from the same buffer; the
    pitch returned is the one displayed.  The last statement stores the
    request id [requestAnimationFrame] returned. *)
Definition updatePitch (buffer : list float) (sampleRate : float)
  (requestId : handle) (st : tunerState) : tunerState * float :=
  let ac := autoCorrelate buffer sampleRate in
  let rms := rmsOf buffer in
  let (st', pitch) := update rms ac st in
  (withAnimationId (Some requestId) st', pitch).

End Engine.

(** A run of frames, each given by its [(rms, ac)] pair. *)
Definition runWith (capacity : nat) (frames : list (float * float))
  (st : tunerState) : tunerState :=
  fold_left (fun s f => trackWith capacity (fst f) (snd f) s) frames st.

Definition run : list (float * float) -> tunerState -> tunerState :=
  runWith (BUFFER_SIZE CONSTANTS).

(** The frequencies of a run that pass the guard, in arrival order. *)
Definition acceptedOf (frames : list (float * float)) : list float :=
  map snd (filter (fun f => accepted (fst f) (snd f)) frames).

(** ** cleanup

    The calls [cleanup] makes on the handles it holds.  Each of them may
    throw (for [close], its promise may reject); which do is up to the
    browser. *)
Inductive cleanupCall :=
  | stopTracks
  | cancelAnimationFrame
  | disconnectSource
  | disconnectGain
  | disconnectAnalyser
  | closeContext.

(** How the [try] block is left, with the state as it is at that point. *)
Inductive completion :=
  | Normal (st : tunerState)
  | Thrown (st : tunerState).

Definition andThen (c : completion) (next : tunerState -> completion) : completion :=
  match c with
  | Normal st => next st
  | Thrown st => Thrown st
  end.

Definition clearCurrentStream (st : tunerState) : tunerState :=
  {| audioContext := audioContext st;
     analyser := analyser st;
     mediaStreamSource := mediaStreamSource st;
     animationId := animationId st;
     pitchBuffer := pitchBuffer st;
     lastValidPitch := lastValidPitch st;
     gainNode := gainNode st;
     isRunning := isRunning st;
     currentStream := None |}.

Definition clearMediaStreamSource (st : tunerState) : tunerState :=
  {| audioContext := audioContext st;
     analyser := analyser st;
     mediaStreamSource := None;
     animationId := animationId st;
     pitchBuffer := pitchBuffer st;
     lastValidPitch := lastValidPitch st;
     gainNode := gainNode st;
     isRunning := isRunning st;
     currentStream := currentStream st |}.

Definition clearGainNode (st : tunerState) : tunerState :=
  {| audioContext := audioContext st;
     analyser := analyser st;
     mediaStreamSource := mediaStreamSource st;
     animationId := animationId st;
     pitchBuffer := pitchBuffer st;
     lastValidPitch := lastValidPitch st;
     gainNode := None;
     isRunning := isRunning st;
     currentStream := currentStream st |}.

Definition clearAnalyser (st : tunerState) : tunerState :=
  {| audioContext := audioContext st;
     analyser := None;
     mediaStreamSource := mediaStreamSource st;
     animationId := animationId st;
     pitchBuffer := pitchBuffer st;
     lastValidPitch := lastValidPitch st;
     gainNode := gainNode st;
     isRunning := isRunning st;
     currentStream := currentStream st |}.

Definition clearAudioContext (st : tunerState) : tunerState :=
  {| audioContext := None;
     analyser := analyser st;
     mediaStreamSource := mediaStreamSource st;
     animationId := animationId st;
     pitchBuffer := pitchBuffer st;
     lastValidPitch := lastValidPitch st;
     gainNode := gainNode st;
     isRunning := isRunning st;
     currentStream := currentStream st |}.

(** "Reset state" *)
Definition resetState (st : tunerState) : tunerState :=
  {| audioContext := audioContext st;
     analyser := analyser st;
     mediaStreamSource := mediaStreamSource st;
     animationId := animationId st;
     pitchBuffer := [];
     lastValidPitch := lastValidPitch st;
     gainNode := gainNode st;
     isRunning := false;
     currentStream := currentStream st |}.

(** [if (tunerState.animationId)]: the id is a number, and 0 is falsy.
    ([requestAnimationFrame] returns no 0.) *)
Definition pendingRequest (st : tunerState) : option handle :=
  match animationId st with
  | Some O => None
  | id => id
  end.

Section Cleanup.

Variable throws : cleanupCall -> bool.

(** [if (tunerState.x) { call; tunerState.x = null; }] *)
Definition release (held : tunerState -> option handle) (call : cleanupCall)
  (clear : tunerState -> tunerState) (st : tunerState) : completion :=
  match held st with
  | None => Normal st
  | Some _ => if throws call then Thrown st else Normal (clear st)
  end.

(** The [try] block. *)
Definition tryCleanup (st : tunerState) : completion :=
  andThen (release currentStream stopTracks clearCurrentStream st) (fun st =>
  andThen (release pendingRequest cancelAnimationFrame (withAnimationId None) st) (fun st =>
  andThen (release mediaStreamSource disconnectSource clearMediaStreamSource st) (fun st =>
  andThen (release gainNode disconnectGain clearGainNode st) (fun st =>
  andThen (release analyser disconnectAnalyser clearAnalyser st) (fun st =>
  andThen (release audioContext closeContext clearAudioContext st) (fun st =>
  Normal (resetState st))))))).

(** [cleanup], run without another handler of the page getting in at its
    [await]: the [catch] block logs the error and changes no field of
    [tunerState], so the state is the one the [try] block was left with.
    (The calls of [updateUIState] touch the page only.) *)
Definition cleanup (st : tunerState) : tunerState :=
  match tryCleanup st with
  | Normal st' => st'
  | Thrown st' => st'
  end.

End Cleanup.

(** The calls [cleanup] has to make in a state: one for each handle held. *)
Definition callFor (held : option handle) (call : cleanupCall) : list cleanupCall :=
  match held with
  | Some _ => [call]
  | None => []
  end.

Definition callsOf (st : tunerState) : list cleanupCall :=
  callFor (currentStream st) stopTracks
  ++ callFor (pendingRequest st) cancelAnimationFrame
  ++ callFor (mediaStreamSource st) disconnectSource
  ++ callFor (gainNode st) disconnectGain
  ++ callFor (analyser st) disconnectAnalyser
  ++ callFor (audioContext st) closeContext.

(** The direction glyph of [updatePitch]. *)
Definition direction (cents : float) : string :=
  if 3 <? abs cents then
    if 0 <? cents then " ▼"%string else " ▲"%string
  else " -"%string.

(** ** The reading shown for a pitch

    [Math.log], [Math.log2], [Math.pow] are implementation-approximated in
    ECMAScript; the display code is embedded over any choice of them. *)
Section Display.

Variables Math_log Math_log2 Math_round : float -> float.
Variable Math_pow : float -> float -> float.

Definition noteFromPitch (frequency : float) : float :=
  let noteNum := 12 * (Math_log (frequency / 440) / Math_log 2) in
  Math_round noteNum + 69.

Definition frequencyFromNoteNumber (note : float) : float :=
  440 * Math_pow 2 ((note - 69) / 12).

Record reading := {
  note : float;
  idealFrequency : float;
  cents : float;
  label : string
}.

(** The branch [if (pitch > 0)] of [updatePitch]; [None] is the idle
    display. *)
Definition readingOf (pitch : float) : option reading :=
  if 0 <? pitch then
    let note := noteFromPitch pitch in
    let idealFrequency := frequencyFromNoteNumber note in
    let cents := 1200 * Math_log2 (pitch / idealFrequency) in
    Some {| note := note; idealFrequency := idealFrequency;
            cents := cents; label := direction cents |}
  else None.

End Display.

(** ** Math.round *)

(** [Math.round]: the integer nearest to [x], the larger one when two are
    equally near; [-0] for [x] in [[-0.5, -0]]; [x] itself when it is an
    integer, an infinity or NaN.  ECMAScript fixes this function exactly. *)
Definition Math_round (x : float) : float :=
  match Prim2SF x with
  | S754_finite s m e =>
      if (0 <=? e)%Z then x
      else
        let d := (2 ^ (- e))%Z in
        let n := if s then Zneg m else Zpos m in
        let q := ((2 * n + d) / (2 * d))%Z in
        if (q =? 0)%Z then (if s then -0 else 0) else of_Z q
  | _ => x
  end.

(** ** Math.min, Math.max, and the code that clamps with them *)

(** The sign bit of a number ([false] for [NaN]). *)
Definition signbit (x : float) : bool :=
  match Prim2SF x with
  | S754_zero s | S754_infinity s | S754_finite s _ _ => s
  | S754_nan => false
  end.

(** [Math.min(a, b)]: [NaN] when an argument is [NaN]; [-0] counts as
    smaller than [+0]. *)
Definition Math_min (a b : float) : float :=
  if is_nan a || is_nan b then nan
  else if a <? b then a
  else if b <? a then b
  else if signbit a then a else b.

(** [Math.max(a, b)]: [NaN] when an argument is [NaN]; [+0] counts as
    larger than [-0]. *)
Definition Math_max (a b : float) : float :=
  if is_nan a || is_nan b then nan
  else if a <? b then b
  else if b <? a then a
  else if signbit a then b else a.

(** The gain slider's [input] handler:
    [Math.min(Math.max(parseInt(e.target.value) || 0, 0), 40)], as a function
    of what [parseInt] returned. *)
Definition gainDbOf (parsed : float) : float :=
  Math_min (Math_max (orElse parsed 0) 0) 40.

(** [updateTunerGraph]: where the indicator is drawn on a canvas of the
    given width, and in which colour. *)
Definition maxCents : float := 50.

Definition positionOf (width cents : float) : float :=
  (width / 2) + (cents * width) / (2 * maxCents).

Definition clampedPosition (width cents : float) : float :=
  Math_max 0 (Math_min width (positionOf width cents)).

Definition colorOf (cents : float) : string :=
  let absCents := abs cents in
  if absCents <? 5 then "#4CAF50"%string
  else if absCents <? 15 then "#FFA500"%string
  else "#FF0000"%string.

(** The note name and octave of [updatePitch], for an integral note number:
    [NOTE_STRINGS[note % 12]] ([%] truncates towards zero, and a negative
    index reads [undefined]) and [Math.floor(note / 12) - 1]. *)
Definition noteNameOf (note : Z) : option string :=
  let r := Z.rem note 12 in
  if (r <? 0)%Z then None else nth_error (NOTE_STRINGS CONSTANTS) (Z.to_nat r).

Definition octaveOf (note : Z) : Z := (note / 12 - 1)%Z.

(** ** sw.js: the caches left by the activate handler *)

Definition CACHE_VERSION : string := "guitar-tuner-v2".

(** The filter of the [activate] handler: the cache names it deletes. *)
Definition isOldCache (name : string) : bool :=
  String.prefix "guitar-tuner-" name && negb (String.eqb name CACHE_VERSION).

(** The names [caches.keys()] lists once every [caches.delete] of the
    handler has resolved, from the names it listed before. *)
Definition activate (cacheNames : list string) : list string :=
  filter (fun name => negb (isOldCache name)) cacheNames.

(** ** Vocabulary of the statements *)

(** The value of [lastCorrelation] when the scan reaches [offset]. *)
Definition previous (buf : list float) (MAX_SAMPLES offset : nat) : float :=
  match offset with
  | O => 1
  | S j => score buf MAX_SAMPLES j
  end.

(** The test [(correlation > 0.9) && (correlation > lastCorrelation)] at
    [offset]. *)
Definition qualifies (buf : list float) (MAX_SAMPLES offset : nat) : bool :=
  (0.9 <? score buf MAX_SAMPLES offset)
  && (previous buf MAX_SAMPLES offset <? score buf MAX_SAMPLES offset).

(** What [correlations[offset]] holds once the scan has passed [offset]. *)
Definition stored (buf : list float) (MAX_SAMPLES offset : nat) : float :=
  fround (score buf MAX_SAMPLES offset).

(** A number, as opposed to [NaN]. *)
Definition is_num (x : float) : Prop := Prim2SF x <> S754_nan.

(** An order-preserving key for the binary64 values: class, then exponent,
    then mantissa. *)
Definition key (x : spec_float) : Z * Z * Z :=
  match x with
  | S754_zero _ => (0, 0, 0)
  | S754_infinity false => (2, 0, 0)
  | S754_infinity true => (-2, 0, 0)
  | S754_nan => (3, 0, 0)
  | S754_finite false m e => (1, e, Zpos m)
  | S754_finite true m e => (-1, - e, Zneg m)
  end%Z.

Definition lex3 (a b : Z * Z * Z) : comparison :=
  let '(a1, a2, a3) := a in
  let '(b1, b2, b3) := b in
  match (a1 ?= b1)%Z with
  | Eq => match (a2 ?= b2)%Z with
          | Eq => (a3 ?= b3)%Z
          | c => c
          end
  | c => c
  end.

Definition klt (a b : Z * Z * Z) : Prop :=
  let '(a1, a2, a3) := a in
  let '(b1, b2, b3) := b in
  (a1 < b1 \/ (a1 = b1 /\ (a2 < b2 \/ (a2 = b2 /\ a3 < b3))))%Z.

Definition fkey (x : float) : Z * Z * Z := key (Prim2SF x).

Definition is_nanSF (x : spec_float) : bool :=
  match x with S754_nan => true | _ => false end.

(** Strictly positive values, [+infinity] included. *)
Definition positiveSF (x : spec_float) : Prop :=
  match x with
  | S754_finite false _ _ | S754_infinity false => True
  | _ => False
  end.

(** The number of low bits [shr_fexp] drops from a mantissa. *)
Definition dropped (prec emax m e : Z) : Z :=
  Z.max 0 (fexp prec emax (Zdigits2 m + e) - e).

(** The number of entries of [l] satisfying [p]. *)
Definition count (p : float -> bool) (l : list float) : nat :=
  length (filter p l).

(** Ascending order of a list of numbers: no later entry is smaller. *)
Definition notAbove (a b : float) : Prop := (b <? a) = false.

(** The scan has met no qualifying offset below [o]. *)
Definition searching (buf : list float) (MAX_SAMPLES o : nat) (s : scanState) : Prop :=
  foundGoodCorrelation s = false /\
  bestOffset s = (-1)%Z /\
  bestCorrelation s = 0 /\
  forall j, (j < o)%nat -> qualifies buf MAX_SAMPLES j = false.

(** The offsets [q .. o-1] are the first run of qualifying offsets, and the
    best pair is the last of them. *)
Definition inRegion (buf : list float) (MAX_SAMPLES q o : nat) (s : scanState) : Prop :=
  (q < o)%nat /\
  (forall j, (j < q)%nat -> qualifies buf MAX_SAMPLES j = false) /\
  (forall j, (q <= j < o)%nat -> qualifies buf MAX_SAMPLES j = true) /\
  bestOffset s = Z.of_nat (o - 1) /\
  bestCorrelation s = score buf MAX_SAMPLES (o - 1).

(** The loop invariant at the head of iteration [o]. *)
Definition scanInv (buf : list float) (MAX_SAMPLES o : nat) (s : scanState) : Prop :=
  lastCorrelation s = previous buf MAX_SAMPLES o /\
  length (correlations s) = MAX_SAMPLES /\
  (forall j, (j < o)%nat -> get (correlations s) j = stored buf MAX_SAMPLES j) /\
  (searching buf MAX_SAMPLES o s \/
   (foundGoodCorrelation s = true /\ exists q, inRegion buf MAX_SAMPLES q o s)).

(** The state in which the [return] inside the loop is taken at [o]. *)
Definition leftAt (buf : list float) (MAX_SAMPLES q o : nat) (s : scanState) : Prop :=
  (o < MAX_SAMPLES)%nat /\
  qualifies buf MAX_SAMPLES o = false /\
  inRegion buf MAX_SAMPLES q o s /\
  length (correlations s) = MAX_SAMPLES /\
  (forall j, (j <= o)%nat -> get (correlations s) j = stored buf MAX_SAMPLES j).

(** A frame used in the examples: three periods of a triangle wave of
    period 8 and amplitude 0.125. *)
Definition triangleFrame : list float :=
  [0; 0.0625; 0.125; 0.0625; 0; -0.0625; -0.125; -0.0625;
   0; 0.0625; 0.125; 0.0625; 0; -0.0625; -0.125; -0.0625;
   0; 0.0625; 0.125; 0.0625; 0; -0.0625; -0.125; -0.0625].

(** Values that are not negative: [+0], the positive numbers, [+infinity],
    and [NaN]. *)
Definition nonnegSF (x : spec_float) : Prop :=
  match x with
  | S754_zero false | S754_finite false _ _ | S754_infinity false | S754_nan => True
  | _ => False
  end.


(** [triangleFrame] with its last sample replaced by [NaN]. *)
Definition triangleFrameNaN : list float := firstn 23 triangleFrame ++ [nan].

(** ** Vocabulary of the note arithmetic *)

(** The exact quotient [num / den] lies in [[m, m + 1)], and the round and
    sticky bits of the record tell where: at [m], below the middle, at the
    middle, or above it. *)
Definition brackets (num den : Z) (mrs : shr_record) : Prop :=
  (0 < den /\ 0 <= shr_m mrs /\
   let d := num - shr_m mrs * den in
   match shr_r mrs, shr_s mrs with
   | false, false => d = 0
   | false, true => 0 < 2 * d < den
   | true, false => 2 * d = den
   | true, true => den < 2 * d < 2 * den
   end)%Z.


(** The real number [2^e]. *)
Definition bpow (e : Z) : R := Rpower 2 (IZR e).

(** The real number a binary64 value stands for (0 for infinities and NaN,
    which the statements exclude). *)
Definition SF2R (x : spec_float) : R :=
  match x with
  | S754_finite s m e => ((if s then - IZR (Zpos m) else IZR (Zpos m)) * bpow e)%R
  | _ => 0%R
  end.

Definition valueOf (x : float) : R := SF2R (Prim2SF x).


(** [x] is the integer [k]. *)
Definition isInteger (x : float) (k : Z) : bool :=
  match Prim2SF x with
  | S754_zero _ => (k =? 0)%Z
  | S754_finite s m e =>
      (e <=? 0)%Z && ((if s then Zneg m else Zpos m) =? k * 2 ^ (- e))%Z
  | _ => false
  end.


(** How far the host's [Math.pow] and [Math.log] may be from the
    mathematical functions: ten bits. *)
Definition tolerance : R := (/ 1024)%R.

Section Hosts.

Variable Math_log : float -> float.
Variable Math_pow : float -> float -> float.

(** [Math.pow(2, x)] is a finite number within [tolerance], relatively, of
    [2^x]. *)
Definition powAccurateAt (x : float) : Prop :=
  is_finite (Math_pow 2 x) = true /\
  (Rabs (valueOf (Math_pow 2 x) - Rpower 2 (valueOf x))
   <= tolerance * Rpower 2 (valueOf x))%R.

(** [Math.log(y)] is a finite number within [tolerance] of [ln y]. *)
Definition logAccurateAt (y : float) : Prop :=
  is_finite (Math_log y) = true /\
  (Rabs (valueOf (Math_log y) - ln (valueOf y)) <= tolerance)%R.

End Hosts.

(** The note numbers of the round trip. *)
Definition noteRange : list Z := map (fun i => (Z.of_nat i - 50)%Z) (seq 0 201).


(** A bound on the rounding error of one operation, read off [2^-53]. *)
Definition roundoff : R := (/ 1000000000000000)%R.

(** * Properties *)

(** ** The order of binary64 values *)

Lemma SFcompare_key (x y : spec_float) :
  SFcompare x y =
  if is_nanSF x || is_nanSF y then None else Some (lex3 (key x) (key y)).
Proof.
  destruct x as [[]|[]| |[] m1 e1], y as [[]|[]| |[] m2 e2]; cbn; try reflexivity.
  rewrite Z.compare_opp.
  destruct (Z.compare_spec e1 e2) as [->| |]; cbn.
  - rewrite Z.compare_refl. reflexivity.
  - destruct (Z.compare_spec e2 e1); try lia. reflexivity.
  - destruct (Z.compare_spec e2 e1); try lia. reflexivity.
Qed.

Lemma lex3_Lt (a b : Z * Z * Z) : lex3 a b = Lt <-> klt a b.
Proof.
  destruct a as [[a1 a2] a3], b as [[b1 b2] b3]; unfold lex3, klt.
  destruct (Z.compare_spec a1 b1), (Z.compare_spec a2 b2), (Z.compare_spec a3 b3);
    split; intros; try discriminate; try lia; reflexivity.
Qed.

Lemma lex3_Gt (a b : Z * Z * Z) : lex3 a b = Gt <-> klt b a.
Proof.
  destruct a as [[a1 a2] a3], b as [[b1 b2] b3]; unfold lex3, klt.
  destruct (Z.compare_spec a1 b1), (Z.compare_spec a2 b2), (Z.compare_spec a3 b3);
    split; intros; try discriminate; try lia; reflexivity.
Qed.

Lemma SFltb_klt (a b : spec_float) :
  SFltb a b = true <-> a <> S754_nan /\ b <> S754_nan /\ klt (key a) (key b).
Proof.
  unfold SFltb. rewrite SFcompare_key, <- lex3_Lt.
  destruct a, b; cbn [is_nanSF orb];
    try (split; [discriminate | intros (H1 & H2 & _); congruence]);
    (split;
     [ intros H; repeat split; try discriminate;
       destruct (lex3 _ _); try discriminate; reflexivity
     | intros (_ & _ & ->); reflexivity ]).
Qed.

Lemma ltb_klt (x y : float) :
  (x <? y) = true <-> is_num x /\ is_num y /\ klt (fkey x) (fkey y).
Proof. rewrite ltb_spec. apply SFltb_klt. Qed.

Lemma ltb_false_klt (x y : float) :
  is_num x -> is_num y -> (x <? y) = false -> ~ klt (fkey x) (fkey y).
Proof.
  intros Hx Hy H K. assert (T : (x <? y) = true) by (apply ltb_klt; auto).
  congruence.
Qed.

Lemma leb_klt (x y : float) :
  (x <=? y) = true <-> is_num x /\ is_num y /\ ~ klt (fkey y) (fkey x).
Proof.
  rewrite leb_spec. unfold SFleb, is_num, fkey. rewrite SFcompare_key, <- lex3_Gt.
  destruct (Prim2SF x), (Prim2SF y); cbn [is_nanSF orb];
    try (split; [discriminate | intros (H1 & H2 & _); congruence]);
    (split;
     [ intros H; repeat split; try discriminate;
       destruct (lex3 _ _); try discriminate; discriminate
     | intros (_ & _ & H); destruct (lex3 _ _); try reflexivity;
       exfalso; apply H; reflexivity ]).
Qed.

Lemma ltb_trans (x y z : float) :
  (x <? y) = true -> (y <? z) = true -> (x <? z) = true.
Proof.
  rewrite !ltb_klt. intros (Hx & Hy & H1) (_ & Hz & H2).
  repeat split; trivial.
  destruct (fkey x) as [[a1 a2] a3], (fkey y) as [[b1 b2] b3], (fkey z) as [[c1 c2] c3].
  unfold klt in *. lia.
Qed.

Lemma ltb_asym (x y : float) : (x <? y) = true -> (y <? x) = false.
Proof.
  intros H. destruct (y <? x) eqn:E; trivial.
  apply ltb_klt in H as (_ & _ & H1). apply ltb_klt in E as (_ & _ & H2).
  destruct (fkey x) as [[a1 a2] a3], (fkey y) as [[b1 b2] b3].
  unfold klt in *. lia.
Qed.

Lemma notAbove_trans (x y z : float) :
  is_num x -> is_num y -> is_num z ->
  notAbove x y -> notAbove y z -> notAbove x z.
Proof.
  unfold notAbove. intros Hx Hy Hz H1 H2.
  destruct (z <? x) eqn:E; trivial.
  apply ltb_klt in E as (_ & _ & K).
  apply ltb_false_klt in H1; trivial. apply ltb_false_klt in H2; trivial.
  destruct (fkey x) as [[a1 a2] a3], (fkey y) as [[b1 b2] b3], (fkey z) as [[c1 c2] c3].
  unfold klt in *. lia.
Qed.

(** ** Rounding to a binary format *)

Section Rounding.

Local Open Scope Z_scope.

Variables prec emax : Z.
Hypothesis prec_pos : 0 < prec.

Lemma digits2_size (p : positive) : digits2_pos p = Pos.size p.
Proof. induction p; simpl; congruence. Qed.

Lemma Zdigits2_log2 (z : Z) : 0 < z -> Zdigits2 z = Z.log2 z + 1.
Proof.
  destruct z as [|p|p]; try lia. intros _. simpl. rewrite digits2_size.
  destruct p; simpl; lia.
Qed.

Lemma shr_1_m (mrs : shr_record) :
  0 <= shr_m mrs -> shr_m (shr_1 mrs) = shr_m mrs / 2.
Proof.
  destruct mrs as [m r s]. simpl. intros Hm.
  rewrite <- Z.div2_div.
  destruct m as [|[p|p|]|p]; try lia; reflexivity.
Qed.

Lemma iter_shr_m (p : positive) : forall mrs,
  0 <= shr_m mrs -> shr_m (iter_pos shr_1 p mrs) = shr_m mrs / 2 ^ Zpos p.
Proof.
  induction p as [p IH|p IH|]; intros mrs Hm; simpl iter_pos.
  - assert (H1 : 0 <= shr_m (shr_1 mrs)) by (rewrite shr_1_m; [apply Z.div_pos|]; lia).
    assert (H2 : 0 <= shr_m (iter_pos shr_1 p (shr_1 mrs)))
      by (rewrite IH; [apply Z.div_pos|]; lia).
    rewrite IH, IH, shr_1_m by assumption.
    rewrite !Z.div_div by lia. f_equal.
    replace (Zpos p~1) with (1 + Zpos p + Zpos p) by lia.
    rewrite !Z.pow_add_r by lia. ring.
  - assert (H2 : 0 <= shr_m (iter_pos shr_1 p mrs))
      by (rewrite IH; [apply Z.div_pos|]; lia).
    rewrite IH, IH by assumption.
    rewrite !Z.div_div by lia. f_equal.
    rewrite Pos2Z.inj_xO. rewrite <- Z.pow_add_r by lia. f_equal. lia.
  - rewrite shr_1_m by assumption. reflexivity.
Qed.

Lemma shr_record_of_loc_m (m : Z) (l : location) : shr_m (shr_record_of_loc m l) = m.
Proof. destruct l as [|[]]; reflexivity. Qed.

Lemma shr_fexp_m (m e : Z) (l : location) :
  0 <= m ->
  shr_m (fst (shr_fexp prec emax m e l)) = m / 2 ^ dropped prec emax m e /\
  snd (shr_fexp prec emax m e l) = e + dropped prec emax m e.
Proof.
  intros Hm. unfold shr_fexp, shr, dropped.
  destruct (fexp prec emax (Zdigits2 m + e) - e) as [|p|p]; simpl fst; simpl snd.
  - rewrite shr_record_of_loc_m, Z.div_1_r. split; lia.
  - rewrite iter_shr_m by (rewrite shr_record_of_loc_m; assumption).
    rewrite shr_record_of_loc_m. split; reflexivity.
  - rewrite shr_record_of_loc_m. change (Z.max 0 (Z.neg p)) with 0.
    rewrite Z.div_1_r. split; lia.
Qed.

Lemma log2_div_pow2 (m n : Z) :
  0 < m -> 0 <= n <= Z.log2 m ->
  0 < m / 2 ^ n /\ Z.log2 (m / 2 ^ n) = Z.log2 m - n.
Proof.
  intros Hm Hn. split.
  - apply Z.div_str_pos. split; [apply Z.pow_pos_nonneg; lia|].
    transitivity (2 ^ Z.log2 m).
    + apply Z.pow_le_mono_r; lia.
    + apply Z.log2_spec; assumption.
  - rewrite <- Z.shiftr_div_pow2 by lia. rewrite Z.log2_shiftr by assumption. lia.
Qed.

Lemma rne_bounds (m : Z) (l : location) :
  m <= round_nearest_even m l <= m + 1.
Proof. destruct l as [|[]]; simpl; try destruct (Z.even m); lia. Qed.

(** Rounding a positive mantissa whose magnitude is above the smallest
    subnormal never produces a zero or a NaN; the result keeps the sign, does
    not shrink in magnitude, and fits the precision. *)
Lemma binary_round_aux_pos (s : bool) (m e : Z) (l : location) :
  0 < m -> SpecFloat.emin prec emax < Zdigits2 m + e ->
  binary_round_aux prec emax s m e l = S754_infinity s \/
  exists m' e', binary_round_aux prec emax s m e l = S754_finite s m' e' /\
    SpecFloat.emin prec emax <= e' /\
    Zdigits2 m + e <= Zpos (digits2_pos m') + e' /\
    Zpos (digits2_pos m') <= prec.
Proof.
  intros Hm Hmag. unfold binary_round_aux.
  destruct (shr_fexp_m m e l (Z.lt_le_incl _ _ Hm)) as [H1 H2].
  destruct (shr_fexp prec emax m e l) as [mrs' e']. simpl in H1, H2.
  assert (Hd : Zdigits2 m = Z.log2 m + 1) by (apply Zdigits2_log2; lia).
  pose proof (Z.log2_nonneg m) as Hl.
  assert (Hn : 0 <= dropped prec emax m e <= Z.log2 m)
    by (unfold dropped, fexp, SpecFloat.emin in *; lia).
  destruct (log2_div_pow2 m _ Hm Hn) as [Hp0 Hl0].
  rewrite <- H1 in Hp0, Hl0.
  set (m1 := round_nearest_even (shr_m mrs') (loc_of_shr_record mrs')).
  assert (Hm1 : shr_m mrs' <= m1 <= shr_m mrs' + 1) by apply rne_bounds.
  assert (Hl1 : Z.log2 (shr_m mrs') <= Z.log2 m1 <= Z.log2 (shr_m mrs') + 1).
  { split; [apply Z.log2_le_mono; lia|].
    transitivity (Z.log2 (Z.succ (shr_m mrs'))).
    - apply Z.log2_le_mono; lia.
    - pose proof (Z.log2_succ_le (shr_m mrs')). lia. }
  assert (Hm1' : 0 <= m1) by lia.
  destruct (shr_fexp_m m1 e' loc_Exact Hm1') as [H3 H4].
  destruct (shr_fexp prec emax m1 e' loc_Exact) as [mrs'' e'']. simpl in H3, H4.
  assert (Hd1 : Zdigits2 m1 = Z.log2 m1 + 1) by (apply Zdigits2_log2; lia).
  assert (Hn1 : 0 <= dropped prec emax m1 e' <= Z.log2 m1)
    by (unfold dropped, fexp, SpecFloat.emin in *; lia).
  assert (Hm1'' : 0 < m1) by lia.
  destruct (log2_div_pow2 m1 _ Hm1'' Hn1) as [Hp1 Hl1'].
  rewrite <- H3 in Hp1, Hl1'.
  destruct (shr_m mrs'') as [|m''|m''] eqn:Em; try lia.
  destruct (Z.leb e'' (emax - prec)); [right|left; reflexivity].
  exists m'', e''. split; [reflexivity|].
  change (Zpos (digits2_pos m'')) with (Zdigits2 (Zpos m'')).
  rewrite (Zdigits2_log2 (Zpos m'')) by lia.
  unfold dropped, fexp, SpecFloat.emin in *. lia.
Qed.

Lemma iter_xO (d m : positive) : Zpos (Pos.iter xO m d) = Zpos m * 2 ^ Zpos d.
Proof.
  revert m. induction d as [|d IH] using Pos.peano_ind; intros m.
  - simpl. lia.
  - rewrite Pos.iter_succ, Pos2Z.inj_xO, IH, Pos2Z.inj_succ, Z.pow_succ_r by lia. ring.
Qed.

Lemma shl_align_spec (m : positive) (e e' : Z) :
  let '(m', e'') := shl_align m e e' in
  Zpos m' = Zpos m * 2 ^ (e - e'') /\ e'' = Z.min e e'.
Proof.
  unfold shl_align. destruct (e' - e) as [|d|d] eqn:E.
  - replace (e - e) with 0 by lia. simpl. lia.
  - replace (e - e) with 0 by lia. simpl. lia.
  - rewrite iter_xO. split; [f_equal; f_equal; lia | lia].
Qed.

Lemma binary_round_pos (s : bool) (m : positive) (e : Z) :
  SpecFloat.emin prec emax < Zpos (digits2_pos m) + e ->
  binary_round prec emax s m e = S754_infinity s \/
  exists m' e', binary_round prec emax s m e = S754_finite s m' e' /\
    SpecFloat.emin prec emax <= e' /\
    Zpos (digits2_pos m) + e <= Zpos (digits2_pos m') + e' /\
    Zpos (digits2_pos m') <= prec.
Proof.
  intros Hmag. unfold binary_round.
  pose proof (shl_align_spec m e (fexp prec emax (Zpos (digits2_pos m) + e))) as H.
  destruct (shl_align m e _) as [mz ez]. destruct H as [Hmz Hez].
  assert (Hle : ez <= e) by lia.
  assert (Hdig : Zdigits2 (Zpos mz) + ez = Zpos (digits2_pos m) + e).
  { rewrite Zdigits2_log2 by lia. rewrite Hmz.
    change (Zpos (digits2_pos m)) with (Zdigits2 (Zpos m)).
    rewrite (Zdigits2_log2 (Zpos m)) by lia.
    rewrite Z.log2_mul_pow2 by lia. lia. }
  destruct (binary_round_aux_pos s (Zpos mz) ez loc_Exact) as [H|(m' & e' & H & H')];
    [lia | lia | left; assumption | right].
  exists m', e'. split; [assumption|]. lia.
Qed.
End Rounding.

(** ** Facts about single operations *)

Lemma sub_self (x : float) : x - x = 0 \/ x - x = nan.
Proof.
  destruct (Prim2SF x) as [s|s| |s m e] eqn:E.
  - left. apply Prim2SF_inj. rewrite sub_spec, E. destruct s; reflexivity.
  - right. apply Prim2SF_inj. rewrite sub_spec, E. destruct s; reflexivity.
  - right. apply Prim2SF_inj. rewrite sub_spec, E. reflexivity.
  - left. apply Prim2SF_inj. rewrite sub_spec, E.
    unfold SF64sub, SFsub. rewrite Z.sub_diag. reflexivity.
Qed.

Lemma is_finite_SF (x : float) :
  is_finite x = true ->
  (exists s, Prim2SF x = S754_zero s) \/ (exists s m e, Prim2SF x = S754_finite s m e).
Proof.
  unfold is_finite, is_nan, is_infinity. rewrite !eqb_spec, abs_spec.
  destruct (Prim2SF x) as [s|s| |s m e]; intros H.
  - left. eauto.
  - destruct s; discriminate.
  - discriminate.
  - right. eauto.
Qed.

Lemma sub_self_finite (x : float) : is_finite x = true -> x - x = 0.
Proof.
  intros H. apply Prim2SF_inj. rewrite sub_spec.
  destruct (is_finite_SF x H) as [[s E]|(s & m & e & E)]; rewrite E.
  - destruct s; reflexivity.
  - unfold SF64sub, SFsub. rewrite Z.sub_diag. reflexivity.
Qed.

Lemma div_nan_l (y : float) : nan / y = nan.
Proof. apply Prim2SF_inj. rewrite div_spec. reflexivity. Qed.

Lemma div_zero_l (y : float) : 0 / y = 0 \/ 0 / y = -0 \/ 0 / y = nan.
Proof.
  destruct (Prim2SF y) as [s|s| |s m e] eqn:E.
  - right; right. apply Prim2SF_inj. rewrite div_spec, E. reflexivity.
  - destruct s; [right; left|left]; apply Prim2SF_inj; rewrite div_spec, E; reflexivity.
  - right; right. apply Prim2SF_inj. rewrite div_spec, E. reflexivity.
  - destruct s; [right; left|left]; apply Prim2SF_inj; rewrite div_spec, E; reflexivity.
Qed.

Lemma div_zero_pos (y : float) : positiveSF (Prim2SF y) -> 0 / y = 0.
Proof.
  intros H. apply Prim2SF_inj. rewrite div_spec.
  destruct (Prim2SF y) as [s|[]| |[] m e]; try contradiction; reflexivity.
Qed.

Lemma ltb_zero_pos (y : float) : positiveSF (Prim2SF y) -> (0 <? y) = true.
Proof.
  intros H. rewrite ltb_spec.
  destruct (Prim2SF y) as [s|[]| |[] m e]; try contradiction; reflexivity.
Qed.

Lemma binary_round_positive (prec emax : Z) (m : positive) (e : Z) :
  (0 < prec)%Z -> (SpecFloat.emin prec emax < Zpos (digits2_pos m) + e)%Z ->
  positiveSF (binary_round prec emax false m e).
Proof.
  intros Hp H.
  destruct (binary_round_pos prec emax Hp false m e H) as [->|(m' & e' & -> & _)];
    exact I.
Qed.

Lemma of_Z_positive (z : Z) :
  (0 < z < 2 ^ 63)%Z -> positiveSF (Prim2SF (of_Z z)).
Proof.
  intros Hz. destruct z as [|p|p]; try lia. unfold of_Z.
  rewrite of_uint63_spec, Uint63.of_Z_spec.
  rewrite Z.mod_small by (change Uint63.wB with (2 ^ 63)%Z; lia).
  apply binary_round_positive; [reflexivity|].
  pose proof (Pos2Z.is_pos (digits2_pos p)). unfold SpecFloat.emin, prec, emax. lia.
Qed.

Lemma digits2_bound (p : positive) : (Zpos p < 2 ^ Zpos (digits2_pos p))%Z.
Proof.
  change (Zpos (digits2_pos p)) with (Zdigits2 (Zpos p)).
  rewrite Zdigits2_log2 by lia.
  apply (Z.log2_spec (Zpos p)). lia.
Qed.

(** A value stored in a [Float32Array] keeps its sign as long as it is
    positive and at least as large as the smallest binary32 subnormal. *)
Lemma fround_positive (x : float) :
  positiveSF (Prim2SF x) ->
  (forall m e, Prim2SF x = S754_finite false m e ->
               (-149 < Zpos (digits2_pos m) + e)%Z) ->
  positiveSF (Prim2SF (fround x)).
Proof.
  intros Hpos Hmag. unfold fround.
  destruct (Prim2SF x) as [s|[]| |[] m e] eqn:E; try contradiction.
  - rewrite E. exact I.
  - specialize (Hmag m e eq_refl).
    destruct (binary_round_pos 24 128 eq_refl false m e Hmag)
      as [->|(m' & e' & -> & He' & _ & Hd')]; [exact I|].
    unfold SF2Prim.
    rewrite Z_ldexp_spec, of_uint63_spec, Uint63.of_Z_spec.
    assert (Hm' : (Zpos m' < 2 ^ 24)%Z).
    { eapply Z.lt_le_trans; [apply digits2_bound|].
      apply Z.pow_le_mono_r; lia. }
    rewrite Z.mod_small by (change Uint63.wB with (2 ^ 63)%Z; lia).
    cbn [binary_normalize].
    pose proof (Pos2Z.is_pos (digits2_pos m')) as Hd.
    assert (Hmag64 : (SpecFloat.emin prec emax < Zpos (digits2_pos m') + 0)%Z)
      by (unfold SpecFloat.emin, prec, emax; lia).
    destruct (binary_round_pos prec emax eq_refl false m' 0 Hmag64)
      as [->|(m2 & e2 & -> & _ & Hd2 & _)]; [exact I|].
    cbn [SFldexp]. apply binary_round_positive; [reflexivity|].
    unfold SpecFloat.emin, prec, emax in *. lia.
Qed.

Lemma fround_above (x : float) : (0.9 <? x) = true -> (0 <? fround x) = true.
Proof.
  intros H. apply ltb_zero_pos.
  apply ltb_klt in H as (_ & Hx & K).
  assert (K9 : fkey 0.9 = (1, -53, 8106479329266893)%Z) by reflexivity.
  rewrite K9 in K. unfold fkey, is_num in *.
  apply fround_positive.
  - destruct (Prim2SF x) as [s|[]| |[] m e]; cbn in K; try lia; try exact I.
    congruence.
  - intros m e E. rewrite E in K. cbn in K.
    pose proof (Pos2Z.is_pos (digits2_pos m)). lia.
Qed.

(** ** Typed-array stores *)

Lemma length_set (a : list float) : forall i v, length (set a i v) = length a.
Proof. induction a as [|h t IH]; intros [|i] v; simpl; auto. Qed.

Lemma get_set_eq (a : list float) : forall i v,
  (i < length a)%nat -> get (set a i v) i = v.
Proof.
  unfold get. induction a as [|h t IH]; intros [|i] v H; simpl in *; try lia; auto.
  apply IH. lia.
Qed.

Lemma get_set_neq (a : list float) : forall i j v,
  i <> j -> get (set a i v) j = get a j.
Proof.
  unfold get. induction a as [|h t IH]; intros [|i] [|j] v H; simpl; auto; try lia.
Qed.

(** ** The scan *)

Section Scan.

Variable buf : list float.
Variable MAX_SAMPLES : nat.

Local Abbreviation qual := (qualifies buf MAX_SAMPLES).
Local Abbreviation sc := (score buf MAX_SAMPLES).

Lemma qualifies_best (o : nat) : qual o = true -> (0 <? sc o) = true.
Proof.
  unfold qualifies. intros H. apply andb_true_iff in H as [H _].
  apply ltb_trans with (y := 0.9); [reflexivity | assumption].
Qed.

Lemma scanInv_init : scanInv buf MAX_SAMPLES 0 (scanInit MAX_SAMPLES).
Proof.
  unfold scanInv, scanInit; cbn. repeat split.
  - apply repeat_length.
  - intros j Hj. lia.
  - left. unfold searching; cbn. repeat split. intros j Hj. lia.
Qed.

Lemma scan_spec : forall fuel o s,
  (o + fuel = MAX_SAMPLES)%nat ->
  scanInv buf MAX_SAMPLES o s ->
  match scan buf MAX_SAMPLES fuel o s with
  | Exhausted s' => scanInv buf MAX_SAMPLES MAX_SAMPLES s'
  | Refine s' => exists q o', leftAt buf MAX_SAMPLES q o' s'
  end.
Proof.
  induction fuel as [|fuel IH]; intros o s Hf (Hlast & Hlen & Hst & Hph).
  - cbn. assert (o = MAX_SAMPLES) by lia. subst o. repeat split; assumption.
  - cbn [scan].
    assert (Hset : forall j, (j < S o)%nat ->
              get (set (correlations s) o (fround (sc o))) j = stored buf MAX_SAMPLES j).
    { intros j Hj. destruct (Nat.eq_dec o j) as [<-|Hne].
      - apply get_set_eq. lia.
      - rewrite get_set_neq by assumption. apply Hst. lia. }
    assert (Hq : ((0.9 <? sc o) && (lastCorrelation s <? sc o))%bool = qual o)
      by (unfold qualifies; rewrite Hlast; reflexivity).
    rewrite Hq. destruct (qual o) eqn:Eq.
    + assert (Hbest : (bestCorrelation s <? sc o) = true).
      { destruct Hph as [(_ & _ & Hb & _)|(_ & q & Hlt & _ & _ & _ & Hb)]; rewrite Hb.
        - apply qualifies_best; assumption.
        - unfold qualifies in Eq. apply andb_true_iff in Eq as [_ Eq].
          destruct o as [|o]; [lia|]. cbn in Eq |- *. rewrite Nat.sub_0_r. exact Eq. }
      rewrite Hbest. apply IH; [lia|].
      refine (conj _ (conj _ (conj Hset _))); cbn.
      * reflexivity.
      * rewrite length_set. assumption.
      * right. split; [reflexivity|].
        destruct Hph as [(_ & _ & _ & Hn)|(_ & q & Hlt & Hb4 & Hin & _ & _)].
        -- exists o. unfold inRegion; cbn. rewrite Nat.sub_0_r.
           repeat split; trivial; try lia.
           intros j Hj. replace j with o by lia. assumption.
        -- exists q. unfold inRegion; cbn. rewrite Nat.sub_0_r.
           repeat split; trivial; try lia.
           intros j Hj. destruct (Nat.eq_dec j o) as [->|]; [assumption|apply Hin; lia].
    + destruct Hph as [(Hf0 & Hb & Hbc & Hn)|(Hf1 & q & Hreg)].
      * rewrite Hf0. apply IH; [lia|].
        refine (conj _ (conj _ (conj Hset _))); cbn.
        -- reflexivity.
        -- rewrite length_set. assumption.
        -- left. unfold searching; cbn. repeat split; trivial.
           intros j Hj. destruct (Nat.eq_dec j o) as [->|]; [assumption|apply Hn; lia].
      * rewrite Hf1. exists q, o.
        refine (conj _ (conj Eq (conj _ (conj _ _)))); cbn.
        -- lia.
        -- destruct Hreg as (H1 & H2 & H3 & H4 & H5). repeat split; assumption.
        -- rewrite length_set. assumption.
        -- intros j Hj. apply Hset. lia.
Qed.

End Scan.

Lemma scanOf_spec (buf : list float) :
  match scanOf buf with
  | Exhausted s' => scanInv buf (length buf / 2) (length buf / 2) s'
  | Refine s' => exists q o', leftAt buf (length buf / 2) q o' s'
  end.
Proof. apply scan_spec; [lia | apply scanInv_init]. Qed.

(** A run of qualifying offsets is determined by where it starts and where
    it stops. *)
Lemma region_unique (p : nat -> bool) (q o q' o' : nat) :
  (q < o)%nat -> (forall j, (j < q)%nat -> p j = false) ->
  (forall j, (q <= j < o)%nat -> p j = true) -> p o = false ->
  (q' < o')%nat -> (forall j, (j < q')%nat -> p j = false) ->
  (forall j, (q' <= j < o')%nat -> p j = true) -> p o' = false ->
  q = q' /\ o = o'.
Proof.
  intros Hlt Hb Hin Ho Hlt' Hb' Hin' Ho'.
  assert (q = q').
  { destruct (Nat.lt_trichotomy q q') as [H|[H|H]]; trivial.
    - specialize (Hb' q H). specialize (Hin q ltac:(lia)). congruence.
    - specialize (Hb q' H). specialize (Hin' q' ltac:(lia)). congruence. }
  subst q'. split; trivial.
  destruct (Nat.lt_trichotomy o o') as [H|[H|H]]; trivial.
  - specialize (Hin' o ltac:(lia)). congruence.
  - specialize (Hin o' ltac:(lia)). congruence.
Qed.

(** ** Offset 0 *)

Lemma difference_self_acc (buf : list float) (l : list nat) : forall acc,
  acc = 0 \/ acc = nan ->
  let r := fold_left (fun correlation i => correlation + abs (get buf i - get buf (i + 0)))
                     l acc in
  r = 0 \/ r = nan.
Proof.
  induction l as [|i l IH]; intros acc Hacc; cbn [fold_left]; [assumption|].
  apply IH. rewrite Nat.add_0_r.
  destruct (sub_self (get buf i)) as [-> | ->], Hacc as [-> | ->];
    [left|right|right|right]; reflexivity.
Qed.

Lemma difference_self (buf : list float) (MAX_SAMPLES : nat) :
  difference buf MAX_SAMPLES 0 = 0 \/ difference buf MAX_SAMPLES 0 = nan.
Proof. apply difference_self_acc. left; reflexivity. Qed.

Lemma score_self (buf : list float) (MAX_SAMPLES : nat) :
  score buf MAX_SAMPLES 0 = 1 \/ score buf MAX_SAMPLES 0 = nan.
Proof.
  unfold score. destruct (difference_self buf MAX_SAMPLES) as [-> | ->].
  - destruct (div_zero_l (of_nat MAX_SAMPLES)) as [-> | [-> | ->]];
      [left|left|right]; reflexivity.
  - rewrite div_nan_l. right; reflexivity.
Qed.

(** Offset 0 never passes the test of the scan. *)
Lemma qualifies_zero (buf : list float) (MAX_SAMPLES : nat) :
  qualifies buf MAX_SAMPLES 0 = false.
Proof.
  unfold qualifies, previous.
  destruct (score_self buf MAX_SAMPLES) as [-> | ->]; reflexivity.
Qed.

Lemma difference_self_finite (buf : list float) (l : list nat) :
  Forall (fun i => is_finite (get buf i) = true) l ->
  fold_left (fun correlation i => correlation + abs (get buf i - get buf (i + 0))) l 0 = 0.
Proof.
  induction 1 as [|i l Hi _ IH]; cbn [fold_left]; [reflexivity|].
  rewrite Nat.add_0_r, (sub_self_finite _ Hi). exact IH.
Qed.

Lemma score_self_finite (buf : list float) (MAX_SAMPLES : nat) :
  Forall (fun x => is_finite x = true) buf ->
  (1 <= MAX_SAMPLES <= length buf)%nat ->
  (Z.of_nat MAX_SAMPLES < 2 ^ 63)%Z ->
  score buf MAX_SAMPLES 0 = 1.
Proof.
  intros Hfin Hm Hlt. unfold score, difference.
  rewrite difference_self_finite.
  - rewrite div_zero_pos; [reflexivity|]. apply of_Z_positive. lia.
  - apply Forall_forall. intros i Hi. apply in_seq in Hi.
    rewrite Forall_forall in Hfin. apply Hfin. apply nth_In. lia.
Qed.

(** ** The three ways the scan can go *)

Section ScanOutcome.

Variable buf : list float.

Local Abbreviation MAX := (length buf / 2)%nat.
Local Abbreviation qual := (qualifies buf MAX).

Lemma scanOf_none :
  (forall j, (j < MAX)%nat -> qual j = false) ->
  exists s, scanOf buf = Exhausted s /\ bestCorrelation s = 0 /\ bestOffset s = (-1)%Z.
Proof.
  intros Hn. pose proof (scanOf_spec buf) as H.
  destruct (scanOf buf) as [s|s].
  - destruct H as (q & o & Ho & _ & (Hlt & _ & Hin & _) & _).
    specialize (Hn q ltac:(lia)). specialize (Hin q ltac:(lia)). congruence.
  - exists s. split; [reflexivity|].
    destruct H as (_ & _ & _ & [(_ & Hb & Hc & _)|(_ & q & Hlt & _ & Hin & _)]).
    + split; assumption.
    + specialize (Hn q Hlt). specialize (Hin q ltac:(lia)). congruence.
Qed.

Lemma scanOf_tail (q : nat) :
  (q < MAX)%nat ->
  (forall j, (j < q)%nat -> qual j = false) ->
  (forall j, (q <= j < MAX)%nat -> qual j = true) ->
  exists s, scanOf buf = Exhausted s /\
            bestOffset s = Z.of_nat (MAX - 1) /\
            bestCorrelation s = score buf MAX (MAX - 1).
Proof.
  intros Hq Hb Hin. pose proof (scanOf_spec buf) as H.
  destruct (scanOf buf) as [s|s].
  - destruct H as (q' & o & Ho & Hno & (Hlt & Hb' & Hin' & _) & _).
    assert (q' = q).
    { destruct (Nat.lt_trichotomy q q') as [L|[L|L]]; auto.
      - specialize (Hb' q L). specialize (Hin q ltac:(lia)). congruence.
      - specialize (Hb q' L). specialize (Hin' q' ltac:(lia)). congruence. }
    subst q'. specialize (Hin o ltac:(lia)). congruence.
  - exists s. split; [reflexivity|].
    destruct H as (_ & _ & _ & [(_ & _ & _ & Hn)|(_ & q' & _ & _ & _ & Hbo & Hbc)]).
    + specialize (Hn q Hq). specialize (Hin q ltac:(lia)). congruence.
    + split; assumption.
Qed.

Lemma scanOf_left (q o : nat) :
  (q < o)%nat -> (o < MAX)%nat ->
  (forall j, (j < q)%nat -> qual j = false) ->
  (forall j, (q <= j < o)%nat -> qual j = true) ->
  qual o = false ->
  exists s, scanOf buf = Refine s /\ leftAt buf MAX q o s.
Proof.
  intros Hq Ho Hb Hin Hno. pose proof (scanOf_spec buf) as H.
  destruct (scanOf buf) as [s|s].
  - exists s. split; [reflexivity|].
    destruct H as (q' & o' & H).
    assert (E : q = q' /\ o = o').
    { destruct H as (_ & Hno' & (Hlt' & Hb' & Hin' & _) & _).
      apply (region_unique qual); assumption. }
    destruct E as [-> ->]. exact H.
  - destruct H as (_ & _ & _ & [(_ & _ & _ & Hn)|(_ & q' & Hlt' & Hb' & Hin' & _)]).
    + specialize (Hn q ltac:(lia)). specialize (Hin q ltac:(lia)). congruence.
    + assert (q' = q).
      { destruct (Nat.lt_trichotomy q q') as [L|[L|L]]; auto.
        - specialize (Hb' q L). specialize (Hin q ltac:(lia)). congruence.
        - specialize (Hb q' L). specialize (Hin' q' ltac:(lia)). congruence. }
      subst q'. specialize (Hin' o ltac:(lia)). congruence.
Qed.

End ScanOutcome.

(** Inside a run of qualifying offsets the scores strictly increase. *)
Lemma region_increasing (buf : list float) (MAX_SAMPLES q : nat) : forall o j,
  (forall i, (q <= i < o)%nat -> qualifies buf MAX_SAMPLES i = true) ->
  (q <= j)%nat -> (j + 1 < o)%nat ->
  (score buf MAX_SAMPLES j <? score buf MAX_SAMPLES (o - 1)) = true.
Proof.
  induction o as [|o IH]; intros j Hin Hj Hlt; [lia|].
  cbn [Nat.sub]. rewrite Nat.sub_0_r.
  assert (Ho : qualifies buf MAX_SAMPLES o = true) by (apply Hin; lia).
  unfold qualifies in Ho. apply andb_true_iff in Ho as [_ Ho].
  destruct o as [|o]; [lia|]. cbn [previous] in Ho.
  destruct (Nat.eq_dec j o) as [->|Hne]; [exact Ho|].
  apply ltb_trans with (y := score buf MAX_SAMPLES o); [|exact Ho].
  specialize (IH j). cbn [Nat.sub] in IH. rewrite Nat.sub_0_r in IH.
  apply IH; [|lia|lia]. intros i Hi. apply Hin. lia.
Qed.

(** ** The analyzer on the example frame *)

(** The triangle wave has period 8: at 44100 Hz the answer is 5512.5 Hz,
    found by the [return] inside the loop after the run of lags 6, 7, 8. *)
Example autoCorrelate_triangleFrame :
  autoCorrelate triangleFrame 44100 = 5512.5 /\
  map (qualifies triangleFrame 12) (seq 0 12)
  = [false; false; false; false; false; false; true; true; true; false; false; false].
Proof. split; reflexivity. Qed.

(** ** The noise gate *)

Lemma eqb_zero (x : float) : (x =? 0) = true -> x = 0 \/ x = -0.
Proof.
  rewrite eqb_spec. intros H.
  destruct (Prim2SF x) as [[]|[]| |[] m e] eqn:E; try discriminate.
  - right. apply Prim2SF_inj. rewrite E. reflexivity.
  - left. apply Prim2SF_inj. rewrite E. reflexivity.
Qed.

Lemma sum_squares_zero (buf : list float) :
  Forall (fun x => (x =? 0) = true) buf ->
  fold_left (fun acc val => acc + val * val) buf 0 = 0.
Proof.
  induction 1 as [|x l Hx _ IH]; cbn [fold_left]; [reflexivity|].
  destruct (eqb_zero x Hx) as [-> | ->]; exact IH.
Qed.

Lemma rmsOf_zero (buf : list float) :
  buf <> [] ->
  Forall (fun x => (x =? 0) = true) buf ->
  (Z.of_nat (length buf) < 2 ^ 63)%Z ->
  rmsOf buf = 0.
Proof.
  intros Hne Hz Hlen. unfold rmsOf. rewrite sum_squares_zero by assumption.
  rewrite div_zero_pos; [reflexivity|].
  apply of_Z_positive. destruct buf; [congruence|]. cbn [length] in *. lia.
Qed.

(** C6.  A frame whose RMS, [sqrt(mean(sample^2))], is below the noise
    threshold 0.02 makes [autoCorrelate] return the NoPitch sentinel [-1]
    at the gate, before any lag is scanned and whatever the samples are;
    every non-empty all-zero frame is such a frame. *)
Theorem noise_gate_returns_NoPitch (buf : list float) (sampleRate : float) :
  buf <> [] ->
  ((rmsOf buf <? NOISE_THRESHOLD CONSTANTS) = true ->
   autoCorrelate buf sampleRate = -1 /\
   analyze buf sampleRate = Returned NoPitch) /\
  (Forall (fun x => (x =? 0) = true) buf ->
   (Z.of_nat (length buf) < 2 ^ 63)%Z ->
   (rmsOf buf <? NOISE_THRESHOLD CONSTANTS) = true).
Proof.
  intros Hne. split.
  - intros Hgate. unfold analyze, autoCorrelate. rewrite Hgate. split; reflexivity.
  - intros Hz Hlen. rewrite rmsOf_zero by assumption. reflexivity.
Qed.

Lemma noise_gate_returns_NoPitch_witness :
  [0.01; -0.01; 0.01; -0.01] <> [] /\
  (rmsOf [0.01; -0.01; 0.01; -0.01] <? NOISE_THRESHOLD CONSTANTS) = true /\
  autoCorrelate [0.01; -0.01; 0.01; -0.01] 44100 = -1 /\
  (rmsOf [0; 0; 0; 0] <? NOISE_THRESHOLD CONSTANTS) = true.
Proof.
  assert (H1 : [0.01; -0.01; 0.01; -0.01] <> []) by discriminate.
  assert (H2 : [0; 0; 0; 0] <> []) by discriminate.
  destruct (noise_gate_returns_NoPitch [0.01; -0.01; 0.01; -0.01] 44100 H1) as [G _].
  destruct (noise_gate_returns_NoPitch [0; 0; 0; 0] 44100 H2) as [_ Z].
  assert (E : (rmsOf [0.01; -0.01; 0.01; -0.01] <? NOISE_THRESHOLD CONSTANTS) = true)
    by reflexivity.
  refine (conj H1 (conj E (conj (proj1 (G E)) (Z _ _)))).
  - repeat constructor.
  - reflexivity.
Defined.

(** ** Frames the analyzer does not reject *)

Lemma autoCorrelate_none (buf : list float) (sampleRate : float) :
  (forall j, (j < length buf / 2)%nat -> qualifies buf (length buf / 2) j = false) ->
  autoCorrelate buf sampleRate = -1.
Proof.
  intros Hn. unfold autoCorrelate.
  destruct (rmsOf buf <? NOISE_THRESHOLD CONSTANTS); [reflexivity|].
  destruct (scanOf_none buf Hn) as (s & -> & -> & _). reflexivity.
Qed.

(** C2, as the code has it.  [analyze] has no input validation and never
    ends in [InvalidInput]: every frame, of odd length or empty, gets an
    estimate; the empty frame and every frame of fewer than four samples
    get the NoPitch sentinel. *)
Theorem analyze_never_rejects (buf : list float) (sampleRate : float) :
  analyze buf sampleRate <> InvalidInput /\
  ((length buf < 4)%nat -> analyze buf sampleRate = Returned NoPitch).
Proof.
  split; [discriminate|].
  intros Hlen. unfold analyze. rewrite autoCorrelate_none; [reflexivity|].
  intros j Hj.
  assert (Hm : (length buf / 2 <= 1)%nat).
  { destruct buf as [|a [|b [|c [|d l]]]]; cbn in *; try lia. }
  replace j with 0%nat by lia. apply qualifies_zero.
Qed.

Lemma analyze_never_rejects_witness :
  (length [0.5; 0.25; 0.5]%float < 4)%nat /\
  analyze [0.5; 0.25; 0.5] 44100 = Returned NoPitch.
Proof.
  assert (H : (length [0.5; 0.25; 0.5]%float < 4)%nat) by (cbn; lia).
  split; [exact H|].
  apply (analyze_never_rejects [0.5; 0.25; 0.5] 44100). exact H.
Defined.

(** C2 as stated fails: the empty frame and an odd-length frame are
    answered with NoPitch, not with [InvalidInput]. *)
Lemma malformed_frames_get_NoPitch :
  analyze [] 44100 = Returned NoPitch /\
  analyze [] 44100 <> InvalidInput /\
  analyze [0.5; 0.25; 0.5] 44100 = Returned NoPitch /\
  analyze [0.5; 0.25; 0.5] 44100 <> InvalidInput.
Proof. repeat split; try reflexivity; discriminate. Qed.

(** ** The fallback after the scan *)

(** C3, as the code has it.  When the noise gate lets the frame through:
    if no lag of the scan qualifies (score above 0.9 and above the previous
    lag's score), the best pair is never updated and [autoCorrelate] returns
    the NoPitch sentinel, whatever the scores are; the unrefined
    [sampleRate / bestLag] is returned when a run of qualifying lags reaches
    the last scanned lag, and [bestLag] is then that last lag. *)
Theorem fallback_needs_qualifying_run (buf : list float) (sampleRate : float) :
  (rmsOf buf <? NOISE_THRESHOLD CONSTANTS) = false ->
  ((forall j, (j < length buf / 2)%nat ->
              qualifies buf (length buf / 2) j = false) ->
   autoCorrelate buf sampleRate = -1) /\
  (forall q, (q < length buf / 2)%nat ->
     (forall j, (j < q)%nat -> qualifies buf (length buf / 2) j = false) ->
     (forall j, (q <= j < length buf / 2)%nat ->
                qualifies buf (length buf / 2) j = true) ->
     autoCorrelate buf sampleRate
     = sampleRate / of_Z (Z.of_nat (length buf / 2 - 1))).
Proof.
  intros Hgate. split.
  - apply autoCorrelate_none.
  - intros q Hq Hb Hin. unfold autoCorrelate. rewrite Hgate.
    destruct (scanOf_tail buf q Hq Hb Hin) as (s & -> & -> & ->).
    assert (Hl : qualifies buf (length buf / 2) (length buf / 2 - 1) = true)
      by (apply Hin; lia).
    unfold qualifies in Hl. apply andb_true_iff in Hl as [Hl _].
    rewrite (ltb_trans 0.01 0.9 _ eq_refl Hl). reflexivity.
Qed.

Lemma fallback_needs_qualifying_run_witness :
  (rmsOf [0.5; -0.5; 0.5; -0.5; 0.5; -0.5] <? NOISE_THRESHOLD CONSTANTS) = false /\
  autoCorrelate [0.5; -0.5; 0.5; -0.5; 0.5; -0.5] 44100 = 44100 / 2 /\
  (rmsOf [0; 0.2; 0.4; 0.6; 0.8; 1] <? NOISE_THRESHOLD CONSTANTS) = false /\
  autoCorrelate [0; 0.2; 0.4; 0.6; 0.8; 1] 44100 = -1.
Proof.
  assert (G1 : (rmsOf [0.5; -0.5; 0.5; -0.5; 0.5; -0.5] <? NOISE_THRESHOLD CONSTANTS) = false)
    by reflexivity.
  assert (G2 : (rmsOf [0; 0.2; 0.4; 0.6; 0.8; 1] <? NOISE_THRESHOLD CONSTANTS) = false)
    by reflexivity.
  destruct (fallback_needs_qualifying_run [0.5; -0.5; 0.5; -0.5; 0.5; -0.5] 44100 G1)
    as [_ T].
  destruct (fallback_needs_qualifying_run [0; 0.2; 0.4; 0.6; 0.8; 1] 44100 G2)
    as [N _].
  refine (conj G1 (conj (T 2%nat _ _ _) (conj G2 (N _)))).
  - cbn. lia.
  - intros [|[|j]] Hj; [reflexivity | reflexivity | lia].
  - intros [|[|[|j]]] Hj; cbn in Hj; try lia. reflexivity.
  - intros [|[|[|j]]] Hj; cbn in Hj; try lia; reflexivity.
Defined.

(** C3 as stated fails: on this frame the gate is passed, no lag
    qualifies, the scores of lag 0 and lag 1 (1 and 0.8) exceed 0.01, and the
    result is the NoPitch sentinel, not [sampleRate / bestLag]. *)
Lemma best_score_alone_gives_NoPitch :
  let buf := [0; 0.2; 0.4; 0.6; 0.8; 1] in
  (rmsOf buf <? NOISE_THRESHOLD CONSTANTS) = false /\
  forallb (fun j => negb (qualifies buf 3 j)) (seq 0 3) = true /\
  (0.01 <? score buf 3 0) = true /\
  (0.01 <? score buf 3 1) = true /\
  (score buf 3 2 <? score buf 3 1) = true /\
  (score buf 3 1 <? score buf 3 0) = true /\
  autoCorrelate buf 44100 = -1 /\
  analyze buf 44100 = Returned NoPitch /\
  (autoCorrelate buf 44100 =? 44100 / of_nat 0) = false /\
  (autoCorrelate buf 44100 =? 44100 / of_nat 1) = false.
Proof. cbv zeta. repeat split; reflexivity. Qed.

(** ** The return inside the scan *)

Lemma getZ_of_nat (a : list float) (i : nat) : getZ a (Z.of_nat i) = get a i.
Proof.
  unfold getZ. destruct (Z.ltb_spec (Z.of_nat i) 0); [lia|].
  rewrite Nat2Z.id. reflexivity.
Qed.

(** What the [return] inside the loop computes, read off the invariant. *)
Lemma refined_leftAt (buf : list float) (sampleRate : float) (q o : nat) (s : scanState) :
  leftAt buf (length buf / 2) q o s ->
  (2 <= o)%nat /\
  bestOffset s = Z.of_nat (o - 1) /\
  getZ (correlations s) (bestOffset s + 1) = stored buf (length buf / 2) o /\
  getZ (correlations s) (bestOffset s) = stored buf (length buf / 2) (o - 1) /\
  getZ (correlations s) (bestOffset s - 1) = stored buf (length buf / 2) (o - 2).
Proof.
  intros (Ho & Hno & (Hlt & Hb & Hin & Hbo & Hbc) & Hlen & Hst).
  assert (Hq : (1 <= q)%nat).
  { destruct q; [|lia]. specialize (Hin 0%nat ltac:(lia)).
    rewrite qualifies_zero in Hin. discriminate. }
  split; [lia|]. split; [assumption|]. rewrite Hbo.
  replace (Z.of_nat (o - 1) + 1)%Z with (Z.of_nat o) by lia.
  replace (Z.of_nat (o - 1) - 1)%Z with (Z.of_nat (o - 2)) by lia.
  rewrite !getZ_of_nat, !Hst by lia. repeat split.
Qed.

(** Once a lag qualifies, every following lag that improves on its
    predecessor qualifies too. *)
Lemma improving_qualifies (buf : list float) (MAX_SAMPLES q : nat) : forall j,
  qualifies buf MAX_SAMPLES q = true ->
  (forall i, (q < i <= j)%nat ->
     (score buf MAX_SAMPLES (i - 1) <? score buf MAX_SAMPLES i) = true) ->
  (q <= j)%nat -> qualifies buf MAX_SAMPLES j = true.
Proof.
  induction j as [|j IH]; intros Hq Himp Hj.
  - replace q with 0%nat in Hq by lia. exact Hq.
  - destruct (Nat.eq_dec q (S j)) as [->|Hne]; [exact Hq|].
    assert (Hprev : qualifies buf MAX_SAMPLES j = true)
      by (apply IH; trivial; [intros i Hi; apply Himp; lia | lia]).
    specialize (Himp (S j) ltac:(lia)). cbn [Nat.sub] in Himp.
    rewrite Nat.sub_0_r in Himp.
    unfold qualifies in Hprev |- *. apply andb_true_iff in Hprev as [H9 _].
    cbn [previous]. rewrite Himp, (ltb_trans _ _ _ H9 Himp). reflexivity.
Qed.

(** C5.  When the gate is passed, lag [q] is the first qualifying lag, the
    scores keep improving up to lag [o - 1], and lag [o], still inside the
    scan, does not improve on lag [o - 1], [autoCorrelate] returns
    [sampleRate / (bestLag + 8 * shift)] with [bestLag = o - 1], the
    best-scoring lag of the region, and
    [shift = (score[bestLag+1] - score[bestLag-1]) / score[bestLag]] read
    from the [correlations] array. *)
Theorem refinement_at_end_of_run (buf : list float) (sampleRate : float) (q o : nat) :
  (rmsOf buf <? NOISE_THRESHOLD CONSTANTS) = false ->
  (q < o)%nat -> (o < length buf / 2)%nat ->
  (forall j, (j < q)%nat -> qualifies buf (length buf / 2) j = false) ->
  qualifies buf (length buf / 2) q = true ->
  (forall j, (q < j < o)%nat ->
     (score buf (length buf / 2) (j - 1) <? score buf (length buf / 2) j) = true) ->
  (score buf (length buf / 2) (o - 1) <? score buf (length buf / 2) o) = false ->
  let bestLag := (o - 1)%nat in
  let shift :=
    (stored buf (length buf / 2) (bestLag + 1) - stored buf (length buf / 2) (bestLag - 1))
    / stored buf (length buf / 2) bestLag in
  autoCorrelate buf sampleRate = sampleRate / (of_nat bestLag + 8 * shift) /\
  (forall j, (q <= j < bestLag)%nat ->
     (score buf (length buf / 2) j <? score buf (length buf / 2) bestLag) = true).
Proof.
  intros Hgate Hq Ho Hb Hfirst Himp Hstop bestLag shift.
  assert (Hin : forall j, (q <= j < o)%nat -> qualifies buf (length buf / 2) j = true).
  { intros j Hj. apply (improving_qualifies buf (length buf / 2) q j); trivial; [|lia].
    intros i Hi. apply Himp. lia. }
  assert (Hno : qualifies buf (length buf / 2) o = false).
  { unfold qualifies. destruct o as [|o']; [lia|]. cbn [previous].
    cbn [Nat.sub] in Hstop. rewrite Nat.sub_0_r in Hstop. rewrite Hstop.
    apply andb_false_r. }
  split.
  - unfold autoCorrelate. rewrite Hgate.
    destruct (scanOf_left buf q o Hq Ho Hb Hin Hno) as (s & -> & Hs).
    destruct (refined_leftAt buf sampleRate q o s Hs) as (H2 & Hbo & E1 & E0 & E2).
    unfold refined, shiftOf. rewrite E1, E0, E2, Hbo.
    unfold shift, bestLag, of_nat.
    replace (o - 1 + 1)%nat with o by lia.
    replace (o - 1 - 1)%nat with (o - 2)%nat by lia. reflexivity.
  - intros j Hj. apply (region_increasing buf (length buf / 2) q o j); trivial; lia.
Qed.

Lemma refinement_at_end_of_run_witness :
  (rmsOf triangleFrame <? NOISE_THRESHOLD CONSTANTS) = false /\
  qualifies triangleFrame 12 6 = true /\
  (score triangleFrame 12 8 <? score triangleFrame 12 9) = false /\
  autoCorrelate triangleFrame 44100
  = 44100 / (of_nat 8 + 8 * ((stored triangleFrame 12 9 - stored triangleFrame 12 7)
                             / stored triangleFrame 12 8)).
Proof.
  assert (G : (rmsOf triangleFrame <? NOISE_THRESHOLD CONSTANTS) = false)
    by reflexivity.
  assert (Q : qualifies triangleFrame 12 6 = true) by reflexivity.
  assert (S : (score triangleFrame 12 8 <? score triangleFrame 12 9) = false)
    by reflexivity.
  refine (conj G (conj Q (conj S _))).
  refine (proj1 (refinement_at_end_of_run triangleFrame 44100 6 9 G _ _ _ Q _ S)).
  - lia.
  - cbn. lia.
  - intros [|[|[|[|[|[|j]]]]]] Hj; try reflexivity. lia.
  - intros [|[|[|[|[|[|[|[|[|j]]]]]]]]] Hj; try lia; reflexivity.
Defined.

(** ** Safety of the returned frequency *)

(** C10.  For a frame of finite samples that passes the gate, one of three
    things happens.  The [return] inside the loop is taken: then
    [1 <= bestOffset], [bestOffset + 1 <= MAX_SAMPLES - 1], the three reads
    of [correlations] are inside the array and return the stored scores, the
    score of the best lag exceeds 0.9 and the stored divisor is positive.
    Or the scan ends with [bestCorrelation > 0.01]: then
    [1 <= bestOffset <= MAX_SAMPLES - 1], and the division is by a positive
    number.  Or the sentinel [-1] is returned.  Lag 0 never qualifies, and its
    score is exactly 1. *)
Theorem returned_frequency_is_safe (buf : list float) (sampleRate : float) :
  Forall (fun x => is_finite x = true) buf ->
  (Z.of_nat (length buf) < 2 ^ 63)%Z ->
  (rmsOf buf <? NOISE_THRESHOLD CONSTANTS) = false ->
  ((exists s,
      scanOf buf = Refine s /\
      autoCorrelate buf sampleRate = refined sampleRate s /\
      (1 <= bestOffset s)%Z /\
      (bestOffset s + 1 <= Z.of_nat (length buf / 2) - 1)%Z /\
      length (correlations s) = (length buf / 2)%nat /\
      getZ (correlations s) (bestOffset s + 1)
      = stored buf (length buf / 2) (Z.to_nat (bestOffset s + 1)) /\
      getZ (correlations s) (bestOffset s - 1)
      = stored buf (length buf / 2) (Z.to_nat (bestOffset s - 1)) /\
      getZ (correlations s) (bestOffset s)
      = stored buf (length buf / 2) (Z.to_nat (bestOffset s)) /\
      (0.9 <? score buf (length buf / 2) (Z.to_nat (bestOffset s))) = true /\
      (0 <? getZ (correlations s) (bestOffset s)) = true) \/
   (exists s,
      scanOf buf = Exhausted s /\
      (0.01 <? bestCorrelation s) = true /\
      autoCorrelate buf sampleRate = sampleRate / of_Z (bestOffset s) /\
      (1 <= bestOffset s <= Z.of_nat (length buf / 2) - 1)%Z /\
      (0 <? of_Z (bestOffset s)) = true) \/
   (exists s,
      scanOf buf = Exhausted s /\
      (0.01 <? bestCorrelation s) = false /\
      autoCorrelate buf sampleRate = -1)) /\
  qualifies buf (length buf / 2) 0 = false /\
  ((1 <= length buf / 2)%nat -> score buf (length buf / 2) 0 = 1).
Proof.
  intros Hfin Hlen Hgate.
  assert (Hdiv : (length buf / 2 <= length buf)%nat)
    by (apply Nat.Div0.div_le_upper_bound; lia).
  split; [|split; [apply qualifies_zero|]].
  2:{ intros Hm. apply score_self_finite; trivial; lia. }
  unfold autoCorrelate. rewrite Hgate.
  pose proof (scanOf_spec buf) as H.
  destruct (scanOf buf) as [s|s].
  - left. exists s. destruct H as (q & o & Hs).
    destruct (refined_leftAt buf sampleRate q o s Hs) as (H2 & Hbo & E1 & E0 & E2).
    destruct Hs as (Ho & Hno & (Hlt & Hb & Hin & _ & Hbc) & Hl & Hst).
    rewrite E1, E0, E2, Hbo.
    replace (Z.to_nat (Z.of_nat (o - 1) + 1)) with o by lia.
    replace (Z.to_nat (Z.of_nat (o - 1) - 1)) with (o - 2)%nat by lia.
    rewrite Nat2Z.id.
    assert (Hq : qualifies buf (length buf / 2) (o - 1) = true) by (apply Hin; lia).
    unfold qualifies in Hq. apply andb_true_iff in Hq as [Hq _].
    repeat split; trivial; try lia.
    apply fround_above. exact Hq.
  - right. destruct (0.01 <? bestCorrelation s) eqn:E.
    + left. exists s. repeat split; trivial.
      all: destruct H as (_ & _ & _ & [(_ & _ & Hc & _)|(_ & q & Hlt & Hb & Hin & Hbo & _)]);
        try (rewrite Hc in E; discriminate).
      all: assert (Hq : (1 <= q)%nat)
        by (destruct q; [|lia]; specialize (Hin 0%nat ltac:(lia));
            rewrite qualifies_zero in Hin; discriminate).
      * lia.
      * lia.
      * rewrite Hbo. apply ltb_zero_pos, of_Z_positive. lia.
    + right. exists s. repeat split; trivial.
Qed.

Lemma returned_frequency_is_safe_witness :
  Forall (fun x => is_finite x = true) triangleFrame /\
  (Z.of_nat (length triangleFrame) < 2 ^ 63)%Z /\
  (rmsOf triangleFrame <? NOISE_THRESHOLD CONSTANTS) = false /\
  qualifies triangleFrame (length triangleFrame / 2) 0 = false /\
  score triangleFrame (length triangleFrame / 2) 0 = 1.
Proof.
  assert (F : Forall (fun x => is_finite x = true) triangleFrame)
    by (repeat constructor).
  assert (L : (Z.of_nat (length triangleFrame) < 2 ^ 63)%Z) by reflexivity.
  assert (G : (rmsOf triangleFrame <? NOISE_THRESHOLD CONSTANTS) = false)
    by reflexivity.
  destruct (returned_frequency_is_safe triangleFrame 44100 F L G) as (_ & Q & S).
  refine (conj F (conj L (conj G (conj Q (S _))))).
  cbn. lia.
Defined.

(** ** The comparator [a - b] *)

Section Comparator.

Local Open Scope Z_scope.

Lemma bounded_facts (m : positive) (e : Z) :
  bounded prec emax m e = true ->
  Zpos m < 2 ^ 53 /\ -1074 <= e /\ (-1074 < e -> 2 ^ 52 <= Zpos m).
Proof.
  unfold bounded, canonical_mantissa. intros H.
  apply andb_true_iff in H as [H _]. apply Z.eqb_eq in H.
  change (Zpos (digits2_pos m)) with (Zdigits2 (Zpos m)) in H.
  rewrite Zdigits2_log2 in H by lia.
  unfold fexp, SpecFloat.emin, prec, emax in H.
  destruct (Z.log2_spec (Zpos m)) as [Hlo Hhi]; [lia|].
  pose proof (Z.log2_nonneg (Zpos m)) as Hnn.
  assert (Hl : Z.log2 (Zpos m) <= 52) by lia.
  split; [|split; [lia|]].
  - eapply Z.lt_le_trans; [exact Hhi|]. apply Z.pow_le_mono_r; lia.
  - intros He. assert (El : Z.log2 (Zpos m) = 52) by lia.
    rewrite El in Hlo. exact Hlo.
Qed.

(** Two canonical mantissas, aligned to the smaller exponent, compare like
    the pairs (exponent, mantissa). *)
Lemma aligned_lt (ma mb : positive) (ea eb : Z) :
  bounded prec emax ma ea = true -> bounded prec emax mb eb = true ->
  (Zpos ma * 2 ^ (ea - Z.min ea eb) < Zpos mb * 2 ^ (eb - Z.min ea eb)
   <-> ea < eb \/ (ea = eb /\ Zpos ma < Zpos mb)).
Proof.
  intros Ha Hb.
  destruct (bounded_facts ma ea Ha) as (Ha1 & Ha2 & Ha3).
  destruct (bounded_facts mb eb Hb) as (Hb1 & Hb2 & Hb3).
  destruct (Z.lt_trichotomy ea eb) as [L|[L|L]].
  - rewrite Z.min_l, Z.sub_diag, Z.pow_0_r, Z.mul_1_r by lia.
    assert (2 ^ 1 <= 2 ^ (eb - ea)) by (apply Z.pow_le_mono_r; lia).
    specialize (Hb3 ltac:(lia)).
    change (2 ^ 1) with 2 in *. change (2 ^ 52) with 4503599627370496 in *.
    change (2 ^ 53) with 9007199254740992 in *. split; [lia|]. intros _. nia.
  - subst eb. rewrite Z.min_id, Z.sub_diag, Z.pow_0_r, !Z.mul_1_r. lia.
  - rewrite Z.min_r, Z.sub_diag, Z.pow_0_r, Z.mul_1_r by lia.
    assert (2 ^ 1 <= 2 ^ (ea - eb)) by (apply Z.pow_le_mono_r; lia).
    specialize (Ha3 ltac:(lia)).
    change (2 ^ 1) with 2 in *. change (2 ^ 52) with 4503599627370496 in *.
    change (2 ^ 53) with 9007199254740992 in *. split; [|lia]. intros K. nia.
Qed.

Lemma shl_align_min (m : positive) (e e' : Z) :
  Zpos (fst (shl_align m e (Z.min e e'))) = Zpos m * 2 ^ (e - Z.min e e').
Proof.
  pose proof (shl_align_spec m e (Z.min e e')) as H.
  destruct (shl_align m e (Z.min e e')) as [m' e'']. cbn [fst].
  destruct H as [H1 H2]. rewrite H1. f_equal. f_equal. lia.
Qed.

Lemma binary_normalize_sign (d e : Z) :
  -1074 <= e ->
  SFltb (binary_normalize prec emax d e false) (S754_zero false) = (d <? 0).
Proof.
  intros He. destruct d as [|p|p]; cbn [binary_normalize].
  - reflexivity.
  - assert (H : SpecFloat.emin prec emax < Zpos (digits2_pos p) + e)
      by (unfold SpecFloat.emin, prec, emax; lia).
    destruct (binary_round_pos prec emax eq_refl false p e H)
      as [->|(m' & e' & -> & _)]; reflexivity.
  - assert (H : SpecFloat.emin prec emax < Zpos (digits2_pos p) + e)
      by (unfold SpecFloat.emin, prec, emax; lia).
    destruct (binary_round_pos prec emax eq_refl true p e H)
      as [->|(m' & e' & -> & _)]; reflexivity.
Qed.

(** On numbers the sign of the rounded difference is the order. *)
Lemma SFsub_sign (a b : spec_float) :
  valid_binary a = true -> valid_binary b = true ->
  a <> S754_nan -> b <> S754_nan ->
  SFltb (SF64sub a b) (S754_zero false) = SFltb a b.
Proof.
  intros Va Vb Na Nb.
  destruct a as [sa|sa| |sa ma ea], b as [sb|sb| |sb mb eb]; try congruence;
    try (destruct sa; try destruct sb; reflexivity);
    try (destruct sb; reflexivity).
  cbn [valid_binary] in Va, Vb.
  destruct (bounded_facts ma ea Va) as (_ & Ha & _).
  destruct (bounded_facts mb eb Vb) as (_ & Hb & _).
  unfold SF64sub, SFsub.
  rewrite binary_normalize_sign by lia.
  rewrite shl_align_min.
  replace (Z.min ea eb) with (Z.min eb ea) at 2 by lia.
  rewrite shl_align_min.
  replace (Z.min eb ea) with (Z.min ea eb) by lia.
  pose proof (aligned_lt ma mb ea eb Va Vb) as Hab.
  pose proof (aligned_lt mb ma eb ea Vb Va) as Hba.
  replace (Z.min eb ea) with (Z.min ea eb) in Hba by lia.
  set (a' := Zpos ma * 2 ^ (ea - Z.min ea eb)) in *.
  set (b' := Zpos mb * 2 ^ (eb - Z.min ea eb)) in *.
  assert (Pa : 0 < a') by (apply Z.mul_pos_pos; [lia|apply Z.pow_pos_nonneg; lia]).
  assert (Pb : 0 < b') by (apply Z.mul_pos_pos; [lia|apply Z.pow_pos_nonneg; lia]).
  apply eq_true_iff_eq. rewrite Z.ltb_lt, SFltb_klt.
  destruct sa, sb; cbn [cond_Zopp key klt]; split;
    try (intros H; repeat split; try discriminate; lia);
    try (intros (_ & _ & H); lia).
Qed.

End Comparator.

Lemma sub_sign (x y : float) :
  is_num x -> is_num y -> (x - y <? 0) = (x <? y).
Proof.
  intros Hx Hy. rewrite !ltb_spec, sub_spec.
  apply SFsub_sign; trivial; apply Prim2SF_valid.
Qed.

(** ** Sorting the history *)

Lemma insertSorted_perm (x : float) (l : list float) :
  Permutation (insertSorted x l) (x :: l).
Proof.
  induction l as [|y t IH]; cbn [insertSorted]; [reflexivity|].
  destruct (x - y <? 0); [reflexivity|].
  rewrite IH. apply perm_swap.
Qed.

Lemma sort_acc_perm (l : list float) : forall acc,
  Permutation (fold_left (fun sorted x => insertSorted x sorted) l acc) (acc ++ l).
Proof.
  induction l as [|x l IH]; intros acc; cbn [fold_left].
  - rewrite app_nil_r. reflexivity.
  - rewrite IH, insertSorted_perm. apply Permutation_middle.
Qed.

Lemma insertSorted_sorted (x : float) (l : list float) :
  is_num x -> Forall is_num l ->
  StronglySorted notAbove l -> StronglySorted notAbove (insertSorted x l).
Proof.
  intros Hx Hl Hs. induction Hs as [|y t Hs IH Hy]; cbn [insertSorted].
  - constructor; constructor.
  - inversion Hl as [|? ? Ny Nt]; subst.
    rewrite (sub_sign x y Hx Ny). destruct (x <? y) eqn:E.
    + constructor; [constructor; assumption|].
      constructor; [apply ltb_asym; assumption|].
      rewrite Forall_forall in *. intros z Hz.
      apply notAbove_trans with (y := y); auto. apply ltb_asym; assumption.
    + constructor; [apply IH; assumption|].
      eapply Permutation_Forall.
      * symmetry. apply insertSorted_perm.
      * constructor; assumption.
Qed.

Lemma sort_acc_sorted (l : list float) : forall acc,
  Forall is_num l -> Forall is_num acc ->
  StronglySorted notAbove acc ->
  StronglySorted notAbove (fold_left (fun sorted x => insertSorted x sorted) l acc).
Proof.
  induction l as [|x l IH]; intros acc Hl Ha Hs; cbn [fold_left]; [assumption|].
  inversion Hl; subst. apply IH; trivial.
  - eapply Permutation_Forall.
    + symmetry. apply insertSorted_perm.
    + constructor; assumption.
  - apply insertSorted_sorted; assumption.
Qed.

Lemma is_finite_num (x : float) : is_finite x = true -> is_num x.
Proof.
  unfold is_finite, is_num, is_nan, is_infinity. intros H E.
  rewrite eqb_spec, E in H. discriminate.
Qed.

(** The histories on which ECMAScript fixes the sorted array. *)
Lemma consistent_cases (l : list float) :
  (length l <=? 1)%nat || forallb is_finite l = true ->
  (exists x, l = [x]) \/ Forall is_num l.
Proof.
  intros H. apply orb_true_iff in H as [H|H].
  - apply Nat.leb_le in H. destruct l as [|x [|y l]]; cbn in H; try lia.
    + right. constructor.
    + left. exists x. reflexivity.
  - right. rewrite forallb_forall in H. apply Forall_forall.
    intros x Hx. apply is_finite_num. auto.
Qed.

Section EngineFacts.

Variable engineOrder : list float -> list float.

Lemma sortAscending_singleton (x : float) : sortAscending engineOrder [x] = [x].
Proof. reflexivity. Qed.

Lemma sortAscending_perm (l : list float) :
  Permutation (engineOrder l) l -> Permutation (sortAscending engineOrder l) l.
Proof.
  intros H. unfold sortAscending.
  destruct ((length l <=? 1)%nat || forallb is_finite l); [|exact H].
  apply (sort_acc_perm l []).
Qed.

Lemma sortAscending_sorted (l : list float) :
  (length l <=? 1)%nat || forallb is_finite l = true ->
  StronglySorted notAbove (sortAscending engineOrder l).
Proof.
  intros H. unfold sortAscending. rewrite H.
  destruct (consistent_cases l H) as [[x ->]|Hn].
  - cbn. constructor; constructor.
  - apply sort_acc_sorted; trivial; constructor.
Qed.

End EngineFacts.

(** ** Counting around an entry of a sorted list *)

Lemma count_app (p : float -> bool) (l1 l2 : list float) :
  count p (l1 ++ l2) = (count p l1 + count p l2)%nat.
Proof. unfold count. rewrite filter_app, length_app. reflexivity. Qed.

Lemma count_le_length (p : float -> bool) (l : list float) :
  (count p l <= length l)%nat.
Proof. apply filter_length_le. Qed.

Lemma count_none (p : float -> bool) (l : list float) :
  Forall (fun x => p x = false) l -> count p l = 0%nat.
Proof.
  unfold count. induction 1 as [|x l Hx _ IH]; cbn [filter]; [reflexivity|].
  rewrite Hx. exact IH.
Qed.

Lemma count_perm (p : float -> bool) (l l' : list float) :
  Permutation l l' -> count p l = count p l'.
Proof.
  unfold count. induction 1 as [|x l l' _ IH|x y l|l l' l'' _ IH1 _ IH2];
    cbn [filter]; try congruence.
  - destruct (p x); cbn [length]; congruence.
  - destruct (p x), (p y); reflexivity.
Qed.

Lemma sorted_around (l1 l2 : list float) (m : float) :
  StronglySorted notAbove (l1 ++ m :: l2) ->
  Forall (fun y => notAbove y m) l1 /\ Forall (notAbove m) l2.
Proof.
  induction l1 as [|y l1 IH]; cbn [app]; intros H;
    inversion H as [|? ? Hs Hf]; subst.
  - split; [constructor|assumption].
  - destruct (IH Hs) as [G1 G2]. split; [|assumption].
    constructor; [|assumption].
    rewrite Forall_forall in Hf. apply Hf. apply in_elt.
Qed.

Lemma ltb_irrefl (m : float) : (m <? m) = false.
Proof.
  destruct (m <? m) eqn:E; trivial.
  rewrite (ltb_asym m m E) in E. discriminate.
Qed.

(** In an ascending list of numbers, at most [k] entries are below the
    entry at index [k] and at most [length - k - 1] are above it. *)
Lemma sorted_rank (s : list float) (k : nat) :
  StronglySorted notAbove s -> (k < length s)%nat ->
  (count (fun x => (x <? get s k)%float) s <= k)%nat /\
  (count (fun x => (get s k <? x)%float) s <= length s - k - 1)%nat.
Proof.
  intros Hs Hk. unfold get.
  destruct (nth_split s nan Hk) as (l1 & l2 & E & Hl1).
  set (m := nth k s nan) in *. clearbody m. subst s.
  destruct (sorted_around l1 l2 m Hs) as [H1 H2].
  rewrite !count_app. change (m :: l2) with ([m] ++ l2). rewrite !count_app.
  unfold count at 2 5. cbn [filter]. rewrite ltb_irrefl. cbn [length].
  rewrite (count_none (fun x => x <? m) l2) by exact H2.
  rewrite (count_none (fun x => m <? x) l1) by exact H1.
  pose proof (count_le_length (fun x => x <? m) l1).
  pose proof (count_le_length (fun x => m <? x) l2).
  rewrite !length_app. cbn [length]. lia.
Qed.

(** ** The smoothed pitch *)

Lemma orElse_number (x : float) : is_nan x = false -> (orElse x 0 =? x) = true.
Proof.
  intros H. unfold orElse. rewrite H, orb_false_r.
  destruct (x =? 0) eqn:E.
  - rewrite eqb_spec in *. change (Prim2SF 0) with (S754_zero false) in *.
    destruct (Prim2SF x) as [s|[]| |[] m e]; try discriminate; reflexivity.
  - unfold is_nan in H. destruct (x =? x); [reflexivity|discriminate].
Qed.

Lemma orElse_nonzero (x b : float) :
  (x =? 0) = false -> is_nan x = false -> orElse x b = x.
Proof. intros H1 H2. unfold orElse. rewrite H1, H2. reflexivity. Qed.

Lemma runWith_snoc (capacity : nat) (frames : list (float * float))
  (f : float * float) (st : tunerState) :
  runWith capacity (frames ++ [f]) st
  = trackWith capacity (fst f) (snd f) (runWith capacity frames st).
Proof. unfold runWith. rewrite fold_left_app. reflexivity. Qed.

Lemma acceptedOf_snoc (frames : list (float * float)) (f : float * float) :
  acceptedOf (frames ++ [f])
  = acceptedOf frames ++ (if accepted (fst f) (snd f) then [snd f] else []).
Proof.
  unfold acceptedOf. rewrite filter_app, map_app. cbn [filter].
  destruct (accepted (fst f) (snd f)); reflexivity.
Qed.

Lemma run_nothing_accepted (capacity : nat) (frames : list (float * float)) :
  acceptedOf frames = [] -> runWith capacity frames initialState = initialState.
Proof.
  induction frames as [|f frames IH] using rev_ind; intros H; [reflexivity|].
  rewrite acceptedOf_snoc in H. rewrite runWith_snoc.
  apply app_eq_nil in H as [H1 H2]. rewrite (IH H1).
  unfold trackWith. destruct (accepted (fst f) (snd f)); [discriminate|reflexivity].
Qed.

Lemma tl_skipn (n : nat) : forall l : list float, tl (skipn n l) = skipn (S n) l.
Proof.
  induction n as [|n IH]; intros l.
  - destruct l; reflexivity.
  - destruct l as [|x l]; [reflexivity|]. exact (IH l).
Qed.

Lemma newest_snoc (capacity : nat) (l : list float) (x : float) :
  skipn (length (l ++ [x]) - capacity) (l ++ [x])
  = pushBounded capacity x (skipn (length l - capacity) l).
Proof.
  unfold pushBounded. rewrite !length_app, length_skipn. cbn [length].
  destruct (Nat.ltb_spec capacity (length l - (length l - capacity) + 1)) as [H|H].
  - replace (length l + 1 - capacity)%nat with (S (length l - capacity)) by lia.
    rewrite <- tl_skipn. f_equal.
    rewrite skipn_app. replace (length l - capacity - length l)%nat with 0%nat by lia.
    reflexivity.
  - replace (length l + 1 - capacity)%nat with 0%nat by lia.
    replace (length l - capacity)%nat with 0%nat by lia. reflexivity.
Qed.

Lemma runWith_history (capacity : nat) (frames : list (float * float)) :
  pitchBuffer (runWith capacity frames initialState)
  = skipn (length (acceptedOf frames) - capacity) (acceptedOf frames).
Proof.
  induction frames as [|f frames IH] using rev_ind; [reflexivity|].
  rewrite runWith_snoc, acceptedOf_snoc. unfold trackWith.
  destruct (accepted (fst f) (snd f)); cbn [pitchBuffer].
  - rewrite IH. symmetry. apply newest_snoc.
  - rewrite app_nil_r. exact IH.
Qed.

Lemma skipn_last (l : list float) (d : float) :
  l <> [] -> skipn (length l - 1) l = [last l d].
Proof.
  induction l as [|x l IH]; [congruence|]. intros _.
  destruct l as [|y l]; [reflexivity|].
  cbn [length Nat.sub] in *. rewrite Nat.sub_0_r in *.
  cbn [skipn]. rewrite IH by discriminate. reflexivity.
Qed.

Lemma runWith_lastValidPitch (capacity : nat) (frames : list (float * float))
  (st : tunerState) :
  lastValidPitch (runWith capacity frames st)
  = last (acceptedOf frames) (lastValidPitch st).
Proof.
  induction frames as [|f frames IH] using rev_ind; [reflexivity|].
  rewrite runWith_snoc, acceptedOf_snoc. unfold trackWith.
  destruct (accepted (fst f) (snd f)); cbn [lastValidPitch].
  - rewrite last_last. reflexivity.
  - rewrite app_nil_r. exact IH.
Qed.

(** With the shipped [BUFFER_SIZE] the history after a run is the last
    accepted frequency alone, and that is the smoothed pitch. *)
Lemma run_smoothed (engineOrder : list float -> list float)
  (frames : list (float * float)) :
  (length (pitchBuffer (run frames initialState)) <= 1)%nat /\
  smoothedPitch engineOrder (run frames initialState) = last (acceptedOf frames) 0.
Proof.
  unfold run, smoothedPitch. rewrite runWith_history, runWith_lastValidPitch.
  change (BUFFER_SIZE CONSTANTS) with 1%nat. split.
  - rewrite length_skipn. lia.
  - destruct (acceptedOf frames) as [|x l] eqn:E; [reflexivity|].
    rewrite (skipn_last (x :: l) 0) by discriminate. reflexivity.
Qed.

Lemma is_nan_false (x : float) : is_nan x = false -> is_num x.
Proof.
  unfold is_nan, is_num. rewrite eqb_spec. intros H E. rewrite E in H.
  discriminate.
Qed.

(** C7.  The frequency [update] produces is read from the history the frame
    leaves (the old one with the accepted frequency pushed and, beyond
    [BUFFER_SIZE], the oldest entry dropped; the old one itself for a frame
    that is not accepted).  When that history is not empty the frequency is
    one of its entries.  When it has a single entry, or finite entries only
    (the cases in which ECMAScript fixes the sorted array), it is the median:
    the entry at index [floor(n / 2)] of the history in ascending order, with
    at most [floor(n / 2)] entries below it and at most [n - floor(n / 2) - 1]
    above it, the upper of the two middle entries when [n] is even.  When
    the history is empty the frequency is [lastValidPitch] read through
    [|| 0]: equal to [lastValidPitch] as a number, the very value when that
    is not zero, and 0 when no frame was ever accepted.  In a run of the
    script from its initial state the history never has more than
    [BUFFER_SIZE = 1] entries, so the frequency produced is always this
    median: the last accepted frequency, whatever number it is.
    [updatePitch] produces this frequency for the two numbers of its
    frame. *)
Theorem smoothed_is_median (engineOrder : list float -> list float) :
  (forall l, Permutation (engineOrder l) l) ->
  (forall (st : tunerState) (rms ac : float),
     let st' := fst (update engineOrder rms ac st) in
     let pitch := snd (update engineOrder rms ac st) in
     let history := pitchBuffer st' in
     (accepted rms ac = true ->
      history = pushBounded (BUFFER_SIZE CONSTANTS) ac (pitchBuffer st) /\
      lastValidPitch st' = ac) /\
     (accepted rms ac = false -> st' = st) /\
     (history <> [] ->
      In pitch history /\
      ((length history <= 1)%nat \/ Forall (fun y => is_finite y = true) history ->
       (exists sorted,
          Permutation sorted history /\ StronglySorted notAbove sorted /\
          pitch = get sorted (length history / 2)) /\
       (count (fun y => (y <? pitch)%float) history <= length history / 2)%nat /\
       (count (fun y => (pitch <? y)%float) history
        <= length history - length history / 2 - 1)%nat)) /\
     (forall x, history = [x] -> pitch = x) /\
     (history = [] ->
      pitch = orElse (lastValidPitch st') 0 /\
      (is_nan (lastValidPitch st') = false ->
       (pitch =? lastValidPitch st') = true) /\
      ((lastValidPitch st' =? 0) = false -> is_nan (lastValidPitch st') = false ->
       pitch = lastValidPitch st') /\
      (lastValidPitch st' = 0 -> pitch = 0))) /\
  (forall frames rms ac,
     let reached := update engineOrder rms ac (run frames initialState) in
     (length (pitchBuffer (fst reached)) <= BUFFER_SIZE CONSTANTS)%nat /\
     snd reached = last (acceptedOf (frames ++ [(rms, ac)])) 0 /\
     (acceptedOf (frames ++ [(rms, ac)]) = [] -> snd reached = 0)) /\
  (forall buffer sampleRate requestId st,
     let frame := update engineOrder (rmsOf buffer) (autoCorrelate buffer sampleRate) st in
     let shown := updatePitch engineOrder buffer sampleRate requestId st in
     snd shown = snd frame /\
     pitchBuffer (fst shown) = pitchBuffer (fst frame) /\
     lastValidPitch (fst shown) = lastValidPitch (fst frame)).
Proof.
  intros Hengine. split; [|split].
  - intros st rms ac. cbv zeta. unfold update. cbn [fst snd].
    set (st' := trackPitch rms ac st).
    split; [|split; [|split; [|split]]].
    + intros A. subst st'. unfold trackPitch, trackWith. rewrite A. split; reflexivity.
    + intros A. subst st'. unfold trackPitch, trackWith. rewrite A. reflexivity.
    + intros Hne. unfold smoothedPitch.
      set (pb := pitchBuffer st') in *.
      assert (Hlen : (0 < length pb)%nat) by (destruct pb; [congruence|cbn; lia]).
      apply Nat.ltb_lt in Hlen as Hb. rewrite Hb.
      pose proof (sortAscending_perm engineOrder pb (Hengine pb)) as Hp.
      pose proof (Permutation_length Hp) as Hl.
      assert (Hk : (length (sortAscending engineOrder pb) / 2
                    < length (sortAscending engineOrder pb))%nat)
        by (apply Nat.div_lt; lia).
      split.
      * apply (Permutation_in _ Hp). apply nth_In. exact Hk.
      * intros Hc.
        assert (Hc' : (length pb <=? 1)%nat || forallb is_finite pb = true).
        { apply orb_true_iff. destruct Hc as [Hc|Hc].
          - left. apply Nat.leb_le. exact Hc.
          - right. apply forallb_forall. rewrite Forall_forall in Hc. exact Hc. }
        pose proof (sortAscending_sorted engineOrder pb Hc') as Hs.
        destruct (sorted_rank (sortAscending engineOrder pb) _ Hs Hk) as [Hlo Hhi].
        rewrite (count_perm _ _ _ Hp) in Hlo. rewrite (count_perm _ _ _ Hp) in Hhi.
        rewrite Hl in *.
        split; [|split; assumption].
        exists (sortAscending engineOrder pb). split; [exact Hp|]. split; [exact Hs|].
        reflexivity.
    + intros x E. unfold smoothedPitch. rewrite E. reflexivity.
    + intros E. unfold smoothedPitch. rewrite E. cbn [length Nat.ltb Nat.leb].
      split; [reflexivity|]. split; [apply orElse_number|]. split.
      * apply orElse_nonzero.
      * intros ->. reflexivity.
  - intros frames rms ac. cbv zeta. unfold update. cbn [fst snd].
    change (trackPitch rms ac (run frames initialState))
      with (trackWith (BUFFER_SIZE CONSTANTS) (fst (rms, ac)) (snd (rms, ac))
              (runWith (BUFFER_SIZE CONSTANTS) frames initialState)).
    rewrite <- runWith_snoc.
    destruct (run_smoothed engineOrder (frames ++ [(rms, ac)])) as [Hlen Hs].
    split; [exact Hlen|]. split; [exact Hs|].
    intros E. unfold run in Hs. rewrite Hs, E. reflexivity.
  - intros buffer sampleRate requestId st. cbv zeta. unfold updatePitch.
    destruct (update engineOrder (rmsOf buffer) (autoCorrelate buffer sampleRate) st)
      as [st' pitch].
    repeat split.
Qed.

Lemma smoothed_is_median_witness :
  let engineOrder := fun l : list float => l in
  let st := runWith 5 [(0.5, 300); (0.5, 100); (0.5, 500); (0.5, 200); (0.5, 900)]
                    initialState in
  let history := pitchBuffer (fst (update engineOrder 0.5 150 st)) in
  let pitch := snd (update engineOrder 0.5 150 st) in
  pitchBuffer st = [300; 100; 500; 200; 900] /\
  history = [100; 500; 200; 900; 150] /\
  In pitch history /\
  (exists sorted,
     Permutation sorted history /\ StronglySorted notAbove sorted /\
     pitch = get sorted (length history / 2)) /\
  (count (fun y => (y <? pitch)%float) history <= length history / 2)%nat /\
  (count (fun y => (pitch <? y)%float) history
   <= length history - length history / 2 - 1)%nat.
Proof.
  cbv zeta.
  pose proof (proj1 (smoothed_is_median (fun l => l) (fun l => Permutation_refl l))
                (runWith 5 [(0.5, 300); (0.5, 100); (0.5, 500); (0.5, 200); (0.5, 900)]
                         initialState) 0.5 150) as H.
  cbv zeta in H. destruct H as (_ & _ & H & _).
  assert (Hne : pitchBuffer
                  (fst (update (fun l => l) 0.5 150
                          (runWith 5 [(0.5, 300); (0.5, 100); (0.5, 500); (0.5, 200);
                                      (0.5, 900)] initialState))) <> [])
    by discriminate.
  destruct (H Hne) as [Hin Hmed].
  assert (Hfin : Forall (fun y => is_finite y = true)
                   (pitchBuffer
                      (fst (update (fun l => l) 0.5 150
                              (runWith 5 [(0.5, 300); (0.5, 100); (0.5, 500); (0.5, 200);
                                          (0.5, 900)] initialState)))))
    by (repeat constructor).
  destruct (Hmed (or_intror Hfin)) as (Hs & Hlo & Hhi).
  exact (conj eq_refl (conj eq_refl (conj Hin (conj Hs (conj Hlo Hhi))))).
Defined.

(** ** The bounded history *)

(** C8.  After any run of frames the history holds the newest accepted
    frequencies, at most [capacity] of them, in arrival order.  An accepted
    frequency is appended; when the history is full its oldest entry is
    dropped and the others keep their order; a frame that is not accepted
    leaves the history as it is.  The configured capacity is
    [CONSTANTS.BUFFER_SIZE]. *)
Theorem history_is_bounded_fifo (capacity : nat) (frames : list (float * float)) :
  (length (pitchBuffer (runWith capacity frames initialState)) <= capacity)%nat /\
  pitchBuffer (runWith capacity frames initialState)
  = skipn (length (acceptedOf frames) - capacity) (acceptedOf frames) /\
  (forall rms ac,
     let history := pitchBuffer (runWith capacity frames initialState) in
     let history' := pitchBuffer (runWith capacity (frames ++ [(rms, ac)]) initialState) in
     (accepted rms ac = false -> history' = history) /\
     (accepted rms ac = true -> (length history < capacity)%nat ->
      history' = history ++ [ac]) /\
     (accepted rms ac = true -> length history = capacity -> (0 < capacity)%nat ->
      history' = tl history ++ [ac])) /\
  (length (pitchBuffer (run frames initialState)) <= BUFFER_SIZE CONSTANTS)%nat.
Proof.
  assert (B : forall c, (length (pitchBuffer (runWith c frames initialState)) <= c)%nat).
  { intros c. rewrite runWith_history, length_skipn. lia. }
  split; [apply B|]. split; [apply runWith_history|]. split; [|apply B].
  intros rms ac history history'. subst history history'.
  rewrite runWith_snoc. cbn [fst snd]. unfold trackWith.
  set (h := pitchBuffer (runWith capacity frames initialState)).
  repeat split.
  - intros ->. reflexivity.
  - intros -> Hlt. cbn [pitchBuffer]. unfold pushBounded.
    rewrite length_app. cbn [length].
    destruct (Nat.ltb_spec capacity (length h + 1)); [lia|reflexivity].
  - intros -> Heq Hpos. cbn [pitchBuffer]. unfold pushBounded.
    rewrite length_app. cbn [length].
    destruct (Nat.ltb_spec capacity (length h + 1)); [|lia].
    destruct h; [cbn in Heq; lia|reflexivity].
Qed.

Lemma history_is_bounded_fifo_witness :
  let frames := [(0.5, 100); (0.0005, 150); (0.5, 200); (0.5, -1); (0.5, 300)] in
  pitchBuffer (runWith 2 frames initialState) = [200; 300] /\
  accepted 0.5 400 = true /\
  pitchBuffer (runWith 2 (frames ++ [(0.5, 400)]) initialState) = [300; 400].
Proof.
  cbv zeta.
  pose proof (history_is_bounded_fifo 2
    [(0.5, 100); (0.0005, 150); (0.5, 200); (0.5, -1); (0.5, 300)]) as (_ & E & S & _).
  assert (A : accepted 0.5 400 = true) by reflexivity.
  refine (conj E (conj A _)).
  destruct (S 0.5 400) as (_ & _ & F).
  exact (F A eq_refl ltac:(lia)).
Defined.

(** ** cleanup *)

Ltac cleanup_cases st :=
  destruct st as [ctx an src id pb lv gn run str];
  unfold cleanup, tryCleanup, release, callsOf, callFor, pendingRequest in *;
  cbn [audioContext analyser mediaStreamSource animationId pitchBuffer lastValidPitch
       gainNode isRunning currentStream] in *;
  destruct str as [str|], id as [[|id]|], src as [src|], gn as [gn|], an as [an|],
           ctx as [ctx|].

Ltac cleanup_step throws :=
  cbn [andThen audioContext analyser mediaStreamSource animationId pitchBuffer
       lastValidPitch gainNode isRunning currentStream withAnimationId
       clearCurrentStream clearMediaStreamSource clearGainNode clearAnalyser
       clearAudioContext resetState];
  match goal with
  | |- context [throws ?c] => destruct (throws c) eqn:?
  end.

(** No path through [cleanup] assigns [lastValidPitch]. *)
Lemma cleanup_lastValidPitch (throws : cleanupCall -> bool) (st : tunerState) :
  lastValidPitch (cleanup throws st) = lastValidPitch st.
Proof.
  cleanup_cases st; repeat cleanup_step throws; reflexivity.
Qed.

(** When no call on a held handle throws, [cleanup] reaches "Reset state":
    every handle is [null], the history is empty, and [lastValidPitch] is the
    one field left as it was.  (An [animationId] of 0, being falsy, would be
    left too.) *)
Lemma cleanup_completes (throws : cleanupCall -> bool) (st : tunerState) :
  (forall call, In call (callsOf st) -> throws call = false) ->
  cleanup throws st =
  {| audioContext := None;
     analyser := None;
     mediaStreamSource := None;
     animationId := match pendingRequest st with
                    | Some _ => None
                    | None => animationId st
                    end;
     pitchBuffer := [];
     lastValidPitch := lastValidPitch st;
     gainNode := None;
     isRunning := false;
     currentStream := None |}.
Proof.
  intros H. cleanup_cases st;
    repeat (cleanup_step throws;
            [match goal with
             | E : throws ?c = true |- _ =>
                 rewrite (H c) in E by (cbn [app In]; tauto); discriminate
             end|]);
    reflexivity.
Qed.

(** When a call on a held handle throws, the [catch] block is entered and
    "Reset state" is skipped. *)
Lemma cleanup_thrown (throws : cleanupCall -> bool) (st : tunerState) :
  (exists call, In call (callsOf st) /\ throws call = true) ->
  pitchBuffer (cleanup throws st) = pitchBuffer st /\
  isRunning (cleanup throws st) = isRunning st.
Proof.
  intros (call & Hin & Ht). cleanup_cases st;
    repeat (cleanup_step throws; [split; reflexivity|]);
    exfalso; cbn [app In] in Hin;
    repeat (destruct Hin as [Hin|Hin]; [subst call; congruence|]);
    exact Hin.
Qed.

(** After a [cleanup] that reaches "Reset state", an accepted frame gives the
    same smoothed pitch as on a fresh state. *)
Lemma cleanup_then_accepted (engineOrder : list float -> list float)
  (throws : cleanupCall -> bool) (st : tunerState) (rms ac : float) :
  (forall call, In call (callsOf st) -> throws call = false) ->
  accepted rms ac = true ->
  snd (update engineOrder rms ac (cleanup throws st))
  = snd (update engineOrder rms ac initialState) /\
  snd (update engineOrder rms ac (cleanup throws st)) = ac.
Proof.
  intros C H. rewrite (cleanup_completes throws st C).
  unfold update, trackPitch, trackWith. rewrite H. cbn. split; reflexivity.
Qed.

(** C1, on the code.  [cleanup] empties the history but leaves
    [lastValidPitch] as it was: after one accepted frame at 440 Hz and a
    [cleanup], [lastValidPitch] is still 440, and a frame without a pitch is
    smoothed to 440, where a fresh state gives 0. *)
Lemma cleanup_keeps_lastValidPitch :
  forall (engineOrder : list float -> list float) (throws : cleanupCall -> bool),
  let st := run [(0.5, 440)] initialState in
  pitchBuffer (cleanup throws st) = [] /\
  lastValidPitch (cleanup throws st) = 440 /\
  lastValidPitch initialState = 0 /\
  snd (update engineOrder 0.5 (-1) (cleanup throws st)) = 440 /\
  snd (update engineOrder 0.5 (-1) initialState) = 0.
Proof. intros engineOrder throws. cbv zeta. repeat split. Qed.

(** ** The direction glyph *)

Lemma abs_of_positive (c : float) : (0 <? c) = true -> abs c = c.
Proof.
  intros H. apply Prim2SF_inj. rewrite abs_spec.
  rewrite ltb_spec in H. change (Prim2SF 0) with (S754_zero false) in H.
  destruct (Prim2SF c) as [s|[]| |[] m e]; try discriminate; reflexivity.
Qed.

Lemma above_three (c : float) :
  (3 <? c) = true -> (3 <? abs c) = true /\ (0 <? c) = true.
Proof.
  intros H. assert (P : (0 <? c) = true) by (apply ltb_trans with (y := 3); trivial).
  rewrite (abs_of_positive c P). split; assumption.
Qed.

Lemma below_minus_three (c : float) :
  (c <? -3) = true -> (3 <? abs c) = true /\ (0 <? c) = false.
Proof.
  intros H. split.
  - rewrite ltb_spec, abs_spec. rewrite ltb_spec in H.
    apply SFltb_klt in H as (_ & _ & K). apply SFltb_klt.
    assert (K3 : key (Prim2SF (-3)) = (-1, -(-51), Zneg 6755399441055744)%Z) by reflexivity.
    assert (K3' : key (Prim2SF 3) = (1, -51, Zpos 6755399441055744)%Z) by reflexivity.
    rewrite K3 in K. rewrite K3'.
    destruct (Prim2SF c) as [s|[]| |[] m e]; cbn in K |- *;
      repeat split; try discriminate; try lia.
  - apply ltb_asym. apply ltb_trans with (y := -3); trivial.
Qed.

Lemma within_three (c : float) : (abs c <=? 3) = true -> (3 <? abs c) = false.
Proof.
  intros H. apply leb_klt in H as (_ & _ & K).
  destruct (3 <? abs c) eqn:E; trivial.
  apply ltb_klt in E as (_ & _ & K'). contradiction.
Qed.

Section DisplayFacts.

Variables Math_log Math_log2 Math_round : float -> float.
Variable Math_pow : float -> float -> float.

Local Abbreviation readingOf' := (readingOf Math_log Math_log2 Math_round Math_pow).

(** C4.  A positive smoothed pitch gets a reading, whose label follows its
    cents offset: " -" (in tune) when [|cents| <= 3]; otherwise " ▼", the
    glyph the spec calls flat, when [cents] is positive, and " ▲", the glyph
    it calls sharp, when [cents] is negative. *)
Theorem direction_follows_cents (pitch : float) :
  (0 <? pitch) = true ->
  exists r, readingOf' pitch = Some r /\
    cents r = 1200 * Math_log2 (pitch / idealFrequency r) /\
    label r = direction (cents r) /\
    ((abs (cents r) <=? 3) = true -> label r = " -"%string) /\
    ((3 <? cents r) = true -> label r = " ▼"%string) /\
    ((cents r <? -3) = true -> label r = " ▲"%string).
Proof.
  intros Hp. unfold readingOf. rewrite Hp. eexists. split; [reflexivity|].
  cbn [cents idealFrequency label]. split; [reflexivity|]. split; [reflexivity|].
  unfold direction. repeat split.
  - intros H. rewrite (within_three _ H). reflexivity.
  - intros H. destruct (above_three _ H) as [-> ->]. reflexivity.
  - intros H. destruct (below_minus_three _ H) as [-> ->]. reflexivity.
Qed.

End DisplayFacts.

Lemma direction_follows_cents_witness :
  let Math_log := fun _ : float => 1 in
  let Math_log2 := fun x : float => x - 1 in
  let Math_round := fun x : float => x in
  let Math_pow := fun _ _ : float => 1 in
  (0 <? 441) = true /\
  exists r, readingOf Math_log Math_log2 Math_round Math_pow 441 = Some r /\
    cents r = 1200 * Math_log2 (441 / idealFrequency r) /\
    label r = direction (cents r) /\
    ((abs (cents r) <=? 3) = true -> label r = " -"%string) /\
    ((3 <? cents r) = true -> label r = " ▼"%string) /\
    ((cents r <? -3) = true -> label r = " ▲"%string).
Proof.
  cbv zeta. assert (P : (0 <? 441) = true) by reflexivity.
  split; [exact P|].
  exact (direction_follows_cents (fun _ => 1) (fun x => x - 1) (fun x => x)
           (fun _ _ => 1) 441 P).
Defined.

(** * The note arithmetic on binary64 *)

(** ** The error of one rounding *)

Section RoundingError.

Local Open Scope Z_scope.

Variables prec emax : Z.
Hypothesis prec_pos : 0 < prec.

Lemma shr_1_brackets (num den : Z) (mrs : shr_record) :
  brackets num den mrs -> brackets num (2 * den) (shr_1 mrs).
Proof.
  destruct mrs as [m r s]. unfold brackets. cbn [shr_m shr_r shr_s].
  intros (Hd & Hm & H).
  destruct m as [|[p|p|]|p]; try lia; cbn [shr_1 shr_m shr_r shr_s];
    (split; [lia|]); (split; [lia|]); destruct r, s; cbn [orb] in *; lia.
Qed.

Lemma iter_shr_brackets (num : Z) (p : positive) : forall den mrs,
  brackets num den mrs -> brackets num (den * 2 ^ Zpos p) (iter_pos shr_1 p mrs).
Proof.
  induction p as [p IH|p IH|]; intros den mrs H; cbn [iter_pos].
  - apply shr_1_brackets in H. apply IH in H. apply IH in H.
    assert (E : den * 2 ^ Zpos p~1 = 2 * den * 2 ^ Zpos p * 2 ^ Zpos p).
    { rewrite Pos2Z.inj_xI. replace (2 * Zpos p + 1) with (1 + Zpos p + Zpos p) by lia.
      rewrite !Z.pow_add_r by lia. ring. }
    rewrite E. exact H.
  - apply IH in H. apply IH in H.
    assert (E : den * 2 ^ Zpos p~0 = den * 2 ^ Zpos p * 2 ^ Zpos p).
    { rewrite <- Z.mul_assoc, <- Z.pow_add_r by lia. f_equal. f_equal. lia. }
    rewrite E. exact H.
  - apply shr_1_brackets in H.
    replace (den * 2 ^ 1) with (2 * den) by ring. exact H.
Qed.

Lemma shr_fexp_brackets (num den m e : Z) (l : location) :
  brackets num den (shr_record_of_loc m l) ->
  brackets num (den * 2 ^ dropped prec emax m e) (fst (shr_fexp prec emax m e l)).
Proof.
  intros H. unfold shr_fexp, shr, dropped.
  destruct (fexp prec emax (Zdigits2 m + e) - e) as [|p|p]; cbn [fst].
  - rewrite Z.mul_1_r. exact H.
  - apply iter_shr_brackets. exact H.
  - change (Z.max 0 (Z.neg p)) with 0. rewrite Z.mul_1_r. exact H.
Qed.

(** Rounding to nearest moves the mantissa by at most half a unit. *)
Lemma rne_brackets (num den : Z) (mrs : shr_record) :
  brackets num den mrs ->
  let M := round_nearest_even (shr_m mrs) (loc_of_shr_record mrs) in
  - den <= 2 * (M * den - num) <= den.
Proof.
  destruct mrs as [m r s]. unfold brackets. cbn [shr_m shr_r shr_s].
  intros (Hd & Hm & H). cbv zeta.
  destruct r, s; cbn [loc_of_shr_record round_nearest_even];
    try destruct (Z.even m); lia.
Qed.

Lemma Zdigits2_bound (m : Z) : 0 <= m -> m < 2 ^ Zdigits2 m.
Proof.
  intros Hm. destruct (Z.eq_dec m 0) as [->|Hn]; [reflexivity|].
  rewrite Zdigits2_log2 by lia. apply Z.log2_spec. lia.
Qed.

Lemma Zdigits2_le (m n : Z) : 0 <= m -> 0 <= n -> m < 2 ^ n -> Zdigits2 m <= n.
Proof.
  intros Hm Hn H. destruct (Z.eq_dec m 0) as [->|Hz]; [exact Hn|].
  rewrite Zdigits2_log2 by lia.
  assert (Z.log2 m < n) by (apply Z.log2_lt_pow2; lia). lia.
Qed.

(** What [binary_round_aux] returns for a mantissa [m] at exponent [e] that
    brackets [num / den], when the result cannot overflow: the mantissa
    [M1] nearest to [num / den] after [k] low bits are dropped, at exponent
    [e + k], possibly written with a larger exponent. *)
Lemma binary_round_aux_spec (s : bool) (m e : Z) (l : location) (num den : Z) :
  brackets num den (shr_record_of_loc m l) ->
  SpecFloat.emin prec emax < emax - prec ->
  Z.max e (Zdigits2 m + e - prec) < emax - prec ->
  let k := dropped prec emax m e in
  exists M1,
    0 <= M1 /\
    - (den * 2 ^ k) <= 2 * (M1 * (den * 2 ^ k) - num) <= den * 2 ^ k /\
    ((M1 = 0 /\ binary_round_aux prec emax s m e l = S754_zero s) \/
     (exists M E, binary_round_aux prec emax s m e l = S754_finite s M E /\
                  e + k <= E /\ Zpos M * 2 ^ (E - (e + k)) = M1)).
Proof.
  intros Hb Hemin Hov k.
  assert (Hm : 0 <= m).
  { destruct Hb as (_ & Hm & _). rewrite shr_record_of_loc_m in Hm. exact Hm. }
  unfold binary_round_aux.
  pose proof (shr_fexp_brackets num den m e l Hb) as Hb1.
  destruct (shr_fexp_m prec emax m e l Hm) as [H1 H2].
  destruct (shr_fexp prec emax m e l) as [mrs' e']. cbn [fst snd] in H1, H2, Hb1.
  fold k in H1, H2, Hb1.
  assert (Hk : 0 <= k /\ Zdigits2 m - prec <= k /\ SpecFloat.emin prec emax <= e + k
               /\ e + k < emax - prec)
    by (unfold k, dropped, fexp in *; lia).
  destruct Hk as (Hk0 & Hk1 & Hk2 & Hk3).
  pose proof (rne_brackets num _ mrs' Hb1) as Hr. cbv zeta in Hr.
  pose proof (rne_bounds (shr_m mrs') (loc_of_shr_record mrs')) as Hrb.
  set (M1 := round_nearest_even (shr_m mrs') (loc_of_shr_record mrs')) in *.
  assert (Hp : 0 < 2 ^ k) by (apply Z.pow_pos_nonneg; lia).
  assert (Hm1 : 0 <= shr_m mrs' < 2 ^ prec).
  { rewrite H1. split; [apply Z.div_pos; lia|].
    apply Z.div_lt_upper_bound; [lia|].
    rewrite <- Z.pow_add_r by lia.
    eapply Z.lt_le_trans; [apply Zdigits2_bound; exact Hm|].
    apply Z.pow_le_mono_r; lia. }
  exists M1. split; [lia|]. split; [exact Hr|].
  assert (HM1 : 0 <= M1) by lia.
  destruct (shr_fexp_m prec emax M1 e' loc_Exact HM1) as [H3 H4].
  destruct (shr_fexp prec emax M1 e' loc_Exact) as [mrs'' e'']. cbn [fst snd] in H3, H4.
  destruct (Z.eq_dec M1 (2 ^ prec)) as [Ec|Nc].
  - (* the rounding carried into one more bit *)
    assert (Ed : Zdigits2 M1 = prec + 1).
    { rewrite Zdigits2_log2 by lia. rewrite Ec, Z.log2_pow2 by lia. reflexivity. }
    assert (Ek : dropped prec emax M1 e' = 1) by (unfold dropped, fexp; lia).
    rewrite Ek in H3, H4. rewrite Ec in H3.
    replace prec with (1 + (prec - 1)) in H3 at 1 by lia.
    rewrite Z.pow_add_r in H3 by lia.
    rewrite Z.mul_comm, Z.div_mul in H3 by (cbn; lia).
    assert (Hpp : 0 < 2 ^ (prec - 1)) by (apply Z.pow_pos_nonneg; lia).
    assert (Hpow : 2 ^ prec = 2 * 2 ^ (prec - 1)).
    { rewrite <- Z.pow_succ_r by lia. f_equal. lia. }
    rewrite H3. destruct (2 ^ (prec - 1)) as [|M|M] eqn:EM; try lia.
    destruct (Z.leb_spec e'' (emax - prec)); [|lia].
    right. exists M, e''. split; [reflexivity|]. split; [lia|].
    replace (e'' - (e + k)) with 1 by lia.
    rewrite Ec, Hpow. change (2 ^ 1) with 2. ring.
  - assert (Hlt : M1 < 2 ^ prec) by lia.
    assert (Ed : Zdigits2 M1 <= prec) by (apply Zdigits2_le; lia).
    assert (Ek : dropped prec emax M1 e' = 0) by (unfold dropped, fexp; lia).
    rewrite Ek in H3, H4. rewrite Z.div_1_r in H3.
    rewrite H3. destruct M1 as [|M|M] eqn:EM; try lia.
    + left. split; reflexivity.
    + destruct (Z.leb_spec e'' (emax - prec)); [|lia].
      right. exists M, e''. split; [reflexivity|]. split; [lia|].
      replace (e'' - (e + k)) with 0 by lia. cbn. lia.
Qed.

End RoundingError.

(** ** Binary64 values as real numbers *)

Section PowersOfTwo.

Local Open Scope R_scope.

Lemma bpow_pos (e : Z) : 0 < bpow e.
Proof. apply exp_pos. Qed.

Lemma bpow_add (a b : Z) : bpow (a + b) = bpow a * bpow b.
Proof. unfold bpow. rewrite plus_IZR. apply Rpower_plus. Qed.

Lemma bpow_0 : bpow 0 = 1.
Proof. apply Rpower_O. lra. Qed.

Lemma bpow_1 : bpow 1 = 2.
Proof. apply Rpower_1. lra. Qed.

Lemma bpow_opp (a : Z) : bpow (- a) = / bpow a.
Proof.
  pose proof (bpow_pos a) as P. pose proof (bpow_add (- a) a) as H.
  rewrite Z.add_opp_diag_l, bpow_0 in H.
  apply Rmult_eq_reg_r with (bpow a); [|lra]. rewrite <- H. field. lra.
Qed.

Lemma bpow_le (a b : Z) : (a <= b)%Z -> bpow a <= bpow b.
Proof. intros H. apply Rle_Rpower; [lra|]. apply IZR_le. exact H. Qed.

Lemma bpow_lt (a b : Z) : (a < b)%Z -> bpow a < bpow b.
Proof. intros H. apply Rpower_lt; [lra|]. apply IZR_lt. exact H. Qed.

Lemma bpow_lt_inv (a b : Z) : bpow a < bpow b -> (a < b)%Z.
Proof.
  intros H. destruct (Z_lt_le_dec a b) as [L|L]; [exact L|].
  apply bpow_le in L. lra.
Qed.

Lemma bpow_IZR (k : Z) : (0 <= k)%Z -> IZR (2 ^ k) = bpow k.
Proof.
  intros H. rewrite <- (Z2Nat.id k H). rewrite <- pow_IZR.
  unfold bpow. rewrite <- INR_IZR_INZ. symmetry. apply Rpower_pow. lra.
Qed.

Lemma bpow_succ (a : Z) : bpow (a + 1) = 2 * bpow a.
Proof. rewrite bpow_add, bpow_1. ring. Qed.

Lemma bpow_pred (a : Z) : bpow (a - 1) = bpow a / 2.
Proof.
  replace a with ((a - 1) + 1)%Z at 2 by lia. rewrite bpow_succ. field.
Qed.

Lemma Zdigits2_lower (m : Z) : (0 < m)%Z -> (2 ^ (Zdigits2 m - 1) <= m)%Z.
Proof.
  intros H. rewrite Zdigits2_log2 by lia.
  replace (Z.log2 m + 1 - 1)%Z with (Z.log2 m) by lia.
  apply Z.log2_spec. exact H.
Qed.

(** The value [binary_round_aux] returns is the exact value [v] up to half a
    unit in its last place: a relative error of [2^-prec], or an absolute
    error of half the smallest subnormal. *)
Lemma binary_round_aux_R (prec emax : Z) (s : bool) (m e : Z) (l : location)
  (num den : Z) :
  (0 < prec)%Z -> (SpecFloat.emin prec emax < emax - prec)%Z ->
  brackets num den (shr_record_of_loc m l) ->
  l = loc_Exact \/ (e <= fexp prec emax (Zdigits2 m + e))%Z ->
  (Z.max e (Zdigits2 m + e - prec) < emax - prec)%Z ->
  let v := IZR num / IZR den * bpow e in
  let res := binary_round_aux prec emax s m e l in
  (res = S754_zero s \/ exists M E, res = S754_finite s M E) /\
  Rabs (SF2R res - (if s then - v else v))
  <= bpow (- prec) * v + bpow (SpecFloat.emin prec emax - 1).
Proof.
  intros Hprec Hemin Hb Hl Hov v res.
  destruct (binary_round_aux_spec prec emax Hprec s m e l num den Hb Hemin Hov)
    as (M1 & HM1 & Hr & Hres).
  fold res in Hres.
  set (k := dropped prec emax m e) in *.
  assert (Hk0 : (0 <= k)%Z) by (unfold k, dropped; lia).
  destruct Hb as (Hden & Hm & Hd). rewrite shr_record_of_loc_m in Hm, Hd.
  cbv zeta in Hd.
  assert (Hnum : (m * den <= num)%Z).
  { clear - Hd Hden. destruct l as [|[]]; cbn [shr_record_of_loc shr_r shr_s] in Hd; lia. }
  pose proof (bpow_pos e) as Pe. pose proof (bpow_pos k) as Pk.
  assert (Pden : 0 < IZR den) by (apply IZR_lt; exact Hden).
  assert (Pnum : IZR m * IZR den <= IZR num)
    by (rewrite <- mult_IZR; apply IZR_le; exact Hnum).
  assert (Pm : 0 <= IZR m) by (apply IZR_le; exact Hm).
  assert (Pv : IZR m * bpow e <= v).
  { unfold v. apply Rmult_le_compat_r; [lra|].
    apply Rmult_le_reg_r with (IZR den); [lra|].
    unfold Rdiv. rewrite Rmult_assoc, Rinv_l by lra. lra. }
  assert (Pv0 : 0 <= v).
  { apply Rle_trans with (IZR m * bpow e); [|exact Pv].
    apply Rmult_le_pos; lra. }
  set (mag := IZR M1 * bpow (e + k)).
  assert (Emag : SF2R res = if s then - mag else mag).
  { destruct Hres as [[-> ->]|(M & E & -> & HE & <-)]; unfold mag.
    - cbn [SF2R]. destruct s; lra.
    - cbn [SF2R]. rewrite mult_IZR, bpow_IZR by lia.
      rewrite Rmult_assoc, <- bpow_add.
      replace (E - (e + k) + (e + k))%Z with E by lia.
      destruct s; lra. }
  split.
  { destruct Hres as [[_ ->]|(M & E & -> & _)]; [left; reflexivity|right; eauto]. }
  assert (Eabs : Rabs (SF2R res - (if s then - v else v)) = Rabs (mag - v)).
  { rewrite Emag. destruct s; [|reflexivity].
    replace (- mag - - v) with (- (mag - v)) by ring. apply Rabs_Ropp. }
  rewrite Eabs.
  (* half a unit in the last place *)
  assert (Hhalf : Rabs (mag - v) <= bpow (e + k) / 2).
  { set (t := IZR M1 * (IZR den * bpow k) - IZR num).
    assert (Ht : - (IZR den * bpow k) <= 2 * t <= IZR den * bpow k).
    { unfold t. rewrite <- (bpow_IZR k) by lia.
      rewrite <- !mult_IZR, <- minus_IZR, <- opp_IZR.
      change 2 with (IZR 2). rewrite <- mult_IZR.
      split; apply IZR_le; lia. }
    assert (Et : mag - v = bpow e / IZR den * t).
    { unfold mag, v, t. rewrite bpow_add. field. lra. }
    rewrite Et, Rabs_mult.
    assert (Pc : 0 < bpow e / IZR den) by (apply Rdiv_lt_0_compat; lra).
    rewrite (Rabs_pos_eq (bpow e / IZR den)) by lra.
    assert (At : Rabs t <= IZR den * bpow k / 2) by (apply Rabs_le; lra).
    apply Rle_trans with (bpow e / IZR den * (IZR den * bpow k / 2)).
    - apply Rmult_le_compat_l; lra.
    - rewrite bpow_add. right. field. lra. }
  pose proof (bpow_pos (- prec)) as Pp.
  pose proof (bpow_pos (SpecFloat.emin prec emax - 1)) as Pmin.
  assert (Pprod : 0 <= bpow (- prec) * v) by (apply Rmult_le_pos; lra).
  destruct (Z.eq_dec (e + k) (fexp prec emax (Zdigits2 m + e))) as [EF|NF].
  - unfold fexp in EF.
    destruct (Z.max_spec (Zdigits2 m + e - prec) (SpecFloat.emin prec emax))
      as [[Hlt Emax]|[Hge Emax]]; rewrite Emax in EF.
    + (* subnormal range *)
      rewrite EF in Hhalf. rewrite bpow_pred. lra.
    + (* normal range *)
      assert (Hmpos : (0 < m)%Z).
      { destruct (Z.eq_dec m 0) as [->|]; [|lia]. cbn in EF. lia. }
      pose proof (Zdigits2_lower m Hmpos) as Hlow.
      assert (Plow : bpow (Zdigits2 m - 1) <= IZR m).
      { rewrite <- bpow_IZR.
        - apply IZR_le. exact Hlow.
        - rewrite Zdigits2_log2 by lia. pose proof (Z.log2_nonneg m). lia. }
      assert (Eexp : bpow (e + k) / 2 = bpow (- prec) * (bpow (Zdigits2 m - 1) * bpow e)).
      { rewrite <- bpow_pred, <- !bpow_add. f_equal. lia. }
      apply Rle_trans with (bpow (e + k) / 2); [exact Hhalf|].
      rewrite Eexp.
      apply Rle_trans with (bpow (- prec) * v); [|lra].
      apply Rmult_le_compat_l; [lra|].
      apply Rle_trans with (IZR m * bpow e); [|exact Pv].
      apply Rmult_le_compat_r; lra.
  - (* nothing dropped from an exact mantissa *)
    assert (Hk : k = 0%Z /\ (fexp prec emax (Zdigits2 m + e) < e)%Z)
      by (unfold k, dropped in *; lia).
    destruct Hk as [Hk Hlt]. destruct Hl as [->|Hl]; [|lia].
    cbn [shr_record_of_loc shr_r shr_s] in Hd. rewrite Hk in Hr. change (2 ^ 0)%Z with 1%Z in Hr.
    assert (EM : M1 = m) by nia.
    assert (E0 : mag - v = 0).
    { unfold mag, v. rewrite EM, Hk, Z.add_0_r.
      replace num with (m * den)%Z by lia. rewrite mult_IZR. field. lra. }
    rewrite E0, Rabs_R0. lra.
Qed.

End PowersOfTwo.

(** ** The error of a product and of a quotient *)

Lemma SF_is_finite (x : float) :
  (exists s, Prim2SF x = S754_zero s) \/ (exists s m e, Prim2SF x = S754_finite s m e) ->
  is_finite x = true.
Proof.
  unfold is_finite, is_nan, is_infinity. rewrite !eqb_spec, abs_spec.
  intros [[s E]|(s & m & e & E)]; rewrite E.
  - destruct s; reflexivity.
  - cbn. unfold SFeqb, SFcompare.
    rewrite Z.compare_refl, Pos.compare_cont_refl. destruct s; reflexivity.
Qed.

Lemma valid_finite (x : float) (s : bool) (m : positive) (e : Z) :
  Prim2SF x = S754_finite s m e ->
  (Zpos m < 2 ^ 53 /\ -1074 <= e <= 971 /\ (-1074 < e -> 2 ^ 52 <= Zpos m) /\
   fexp prec emax (Zdigits2 (Zpos m) + e) = e)%Z.
Proof.
  intros E. pose proof (Prim2SF_valid x) as V. rewrite E in V.
  cbn [SpecFloat.valid_binary] in V.
  destruct (bounded_facts m e V) as (H1 & H2 & H3).
  unfold bounded, canonical_mantissa in V.
  apply andb_true_iff in V as [V1 V2].
  apply Z.eqb_eq in V1. apply Z.leb_le in V2.
  unfold prec, emax in V2. repeat split; trivial; lia.
Qed.

Section ProductError.

Local Open Scope R_scope.

(** A product that stays below [2^1000] in magnitude is a finite number,
    the exact product up to a relative error of [2^-53] (in the subnormal
    range: up to half the smallest subnormal). *)
Theorem mul_error (x y : float) :
  is_finite x = true -> is_finite y = true ->
  Rabs (valueOf x * valueOf y) <= bpow 1000 ->
  is_finite (x * y) = true /\
  Rabs (valueOf (x * y) - valueOf x * valueOf y)
  <= bpow (-53) * Rabs (valueOf x * valueOf y) + bpow (-1075).
Proof.
  intros Fx Fy Hmag.
  pose proof (bpow_pos (-53)) as P53. pose proof (bpow_pos (-1075)) as P1075.
  assert (Z0 : forall (s : bool), valueOf x * valueOf y = 0 ->
               Prim2SF (x * y) = S754_zero s ->
               is_finite (x * y) = true /\
               Rabs (valueOf (x * y) - valueOf x * valueOf y)
               <= bpow (-53) * Rabs (valueOf x * valueOf y) + bpow (-1075)).
  { intros s E0 E. split; [apply SF_is_finite; left; eauto|].
    unfold valueOf at 1. rewrite E, E0. cbn [SF2R].
    rewrite Rminus_diag, Rabs_R0. lra. }
  destruct (is_finite_SF x Fx) as [[sx Ex]|(sx & mx & ex & Ex)];
    destruct (is_finite_SF y Fy) as [[sy Ey]|(sy & my & ey & Ey)].
  - apply (Z0 (xorb sx sy)).
    + unfold valueOf. rewrite Ex. cbn [SF2R]. ring.
    + rewrite mul_spec, Ex, Ey. reflexivity.
  - apply (Z0 (xorb sx sy)).
    + unfold valueOf. rewrite Ex. cbn [SF2R]. ring.
    + rewrite mul_spec, Ex, Ey. reflexivity.
  - apply (Z0 (xorb sx sy)).
    + unfold valueOf. rewrite Ey. cbn [SF2R]. ring.
    + rewrite mul_spec, Ex, Ey. reflexivity.
  - destruct (valid_finite x sx mx ex Ex) as (Hx1 & Hx2 & Hx3 & _).
    destruct (valid_finite y sy my ey Ey) as (Hy1 & Hy2 & Hy3 & _).
    set (v := IZR (Zpos (mx * my)) * bpow (ex + ey)).
    assert (Ev : valueOf x * valueOf y = if xorb sx sy then - v else v).
    { unfold valueOf, v. rewrite Ex, Ey. cbn [SF2R].
      rewrite Pos2Z.inj_mul, mult_IZR, bpow_add.
      destruct sx, sy; cbn [xorb]; ring. }
    assert (Pv : 0 < v).
    { unfold v. apply Rmult_lt_0_compat; [apply IZR_lt; lia|apply bpow_pos]. }
    assert (Eabs : Rabs (valueOf x * valueOf y) = v).
    { rewrite Ev. destruct (xorb sx sy).
      - rewrite Rabs_Ropp. apply Rabs_pos_eq. lra.
      - apply Rabs_pos_eq. lra. }
    rewrite Eabs in *.
    assert (Hdig : (Zdigits2 (Zpos (mx * my)) + (ex + ey) <= 1001)%Z).
    { destruct (Z_le_gt_dec (Zdigits2 (Zpos (mx * my)) + (ex + ey)) 1001) as [L|G];
        [exact L|exfalso].
      pose proof (Zdigits2_lower (Zpos (mx * my)) ltac:(lia)) as Hlow.
      assert (bpow 1000 < v); [|lra].
      apply Rlt_le_trans with (bpow (Zdigits2 (Zpos (mx * my)) - 1 + (ex + ey)));
        [apply bpow_lt; lia|].
      rewrite bpow_add. unfold v. apply Rmult_le_compat_r; [apply Rlt_le, bpow_pos|].
      rewrite <- bpow_IZR; [apply IZR_le; exact Hlow|].
      pose proof (Pos2Z.is_pos (digits2_pos (mx * my))). cbn [Zdigits2]. lia. }
    assert (Hexp : (ex + ey < 971)%Z).
    { destruct (Z.eq_dec ex (-1074)); [lia|].
      destruct (Z.eq_dec ey (-1074)); [lia|].
      assert (2 ^ 104 <= Zpos (mx * my))%Z.
      { rewrite Pos2Z.inj_mul. change (2 ^ 104)%Z with (2 ^ 52 * 2 ^ 52)%Z.
        apply Z.mul_le_mono_nonneg; lia. }
      assert (104 < Zdigits2 (Zpos (mx * my)))%Z; [|lia].
      apply (Z.pow_lt_mono_r_iff 2); [lia| |].
      - pose proof (Pos2Z.is_pos (digits2_pos (mx * my))). cbn [Zdigits2]. lia.
      - eapply Z.le_lt_trans; [eassumption|]. apply Zdigits2_bound. lia. }
    assert (Hb : brackets (Zpos (mx * my)) 1
                   (shr_record_of_loc (Zpos (mx * my)) loc_Exact)).
    { unfold brackets. cbn [shr_record_of_loc shr_m shr_r shr_s]. lia. }
    destruct (binary_round_aux_R prec emax (xorb sx sy) (Zpos (mx * my)) (ex + ey)
                loc_Exact (Zpos (mx * my)) 1 eq_refl eq_refl Hb (or_introl eq_refl))
      as [Hres Herr].
    { unfold prec, emax. lia. }
    assert (Espec : Prim2SF (x * y)
                    = binary_round_aux prec emax (xorb sx sy) (Zpos (mx * my)) (ex + ey)
                        loc_Exact).
    { rewrite mul_spec, Ex, Ey. reflexivity. }
    split.
    + apply SF_is_finite. rewrite Espec.
      destruct Hres as [->|(M & E & ->)]; [left|right]; eauto.
    + unfold valueOf at 1. rewrite Espec, Ev.
      replace (IZR (Zpos (mx * my)) / IZR 1 * bpow (ex + ey)) with v in Herr
        by (unfold v; field).
      exact Herr.
Qed.

End ProductError.

Section Division.

Local Open Scope Z_scope.

Variables prec emax : Z.
Hypothesis prec_pos : 0 < prec.

Lemma new_location_brackets (m2 q r num : Z) :
  0 < m2 -> 0 <= q -> 0 <= r < m2 -> num = m2 * q + r ->
  brackets num m2 (shr_record_of_loc q (new_location m2 r)).
Proof.
  intros Hm2 Hq Hr ->. unfold brackets, new_location, new_location_even, new_location_odd.
  assert (Ed : m2 * q + r - q * m2 = r) by ring.
  change IntDef.Z.even with Z.even.
  destruct (Z.even m2) eqn:Ev.
  - destruct (Z.eqb_spec r 0) as [->|Hn].
    + cbn [shr_record_of_loc shr_m shr_r shr_s]. rewrite Ed. lia.
    + destruct (Z.compare_spec (2 * r) m2);
        cbn [shr_record_of_loc shr_m shr_r shr_s]; rewrite Ed; lia.
  - assert (Hodd : Z.odd m2 = true) by (rewrite <- Z.negb_even, Ev; reflexivity).
    apply Z.odd_spec in Hodd as [h Hodd].
    destruct (Z.eqb_spec r 0) as [->|Hn].
    + cbn [shr_record_of_loc shr_m shr_r shr_s]. rewrite Ed. lia.
    + destruct (Z.compare_spec (2 * r + 1) m2);
        cbn [shr_record_of_loc shr_m shr_r shr_s]; rewrite Ed; lia.
Qed.

(** The quotient mantissa [SFdiv_core_binary] hands to the rounding: it
    brackets [m1 * 2^s / m2], keeps every bit the format can hold, and has
    about as many digits as the difference of the operands' lengths. *)
Lemma SFdiv_core_binary_spec (m1 e1 m2 e2 : Z) :
  0 < m1 -> 0 < m2 ->
  exists q e' l s,
    SFdiv_core_binary prec emax m1 e1 m2 e2 = (q, e', l) /\
    0 <= s /\ e' = e1 - e2 - s /\
    brackets (m1 * 2 ^ s) m2 (shr_record_of_loc q l) /\
    e' <= fexp prec emax (Zdigits2 m1 + e1 - (Zdigits2 m2 + e2)) /\
    e' <= fexp prec emax (Zdigits2 q + e') /\
    Zdigits2 q <= Z.max 0 (Zdigits2 m1 + s - Zdigits2 m2 + 1).
Proof.
  intros H1 H2. unfold SFdiv_core_binary.
  set (d1 := Zdigits2 m1). set (d2 := Zdigits2 m2).
  set (e' := Z.min (fexp prec emax (d1 + e1 - (d2 + e2))) (e1 - e2)).
  set (s := e1 - e2 - e').
  assert (Hs : 0 <= s) by (unfold s, e'; lia).
  set (m' := match s with 0 => m1 | Zpos _ => Z.shiftl m1 s | Zneg _ => 0 end).
  assert (Em' : m' = m1 * 2 ^ s).
  { unfold m'. clearbody s. destruct s as [|p|p].
    - rewrite Z.pow_0_r, Z.mul_1_r. reflexivity.
    - apply Z.shiftl_mul_pow2. lia.
    - lia. }
  pose proof (Z_div_mod m' m2 ltac:(lia)) as Hdm.
  change IntDef.Z.div_eucl with Z.div_eucl.
  destruct (Z.div_eucl m' m2) as [q r]. destruct Hdm as [Hdm Hr].
  assert (Hps : 0 < 2 ^ s) by (apply Z.pow_pos_nonneg; lia).
  assert (Hm'pos : 0 < m') by (rewrite Em'; apply Z.mul_pos_pos; lia).
  assert (Hq : 0 <= q) by nia.
  exists q, e', (new_location m2 r), s.
  split; [reflexivity|]. split; [exact Hs|]. split; [unfold s; lia|].
  split; [rewrite <- Em'; apply new_location_brackets; trivial|].
  split; [unfold e'; lia|].
  (* bounds on the quotient *)
  pose proof (Zdigits2_bound m1 ltac:(lia)) as U1. fold d1 in U1.
  pose proof (Zdigits2_lower m1 H1) as L1. fold d1 in L1.
  pose proof (Zdigits2_bound m2 ltac:(lia)) as U2. fold d2 in U2.
  pose proof (Zdigits2_lower m2 H2) as L2. fold d2 in L2.
  assert (Hd1 : 1 <= d1).
  { unfold d1. rewrite Zdigits2_log2 by lia. pose proof (Z.log2_nonneg m1). lia. }
  assert (Hd2 : 1 <= d2).
  { unfold d2. rewrite Zdigits2_log2 by lia. pose proof (Z.log2_nonneg m2). lia. }
  split.
  - (* no bit the format can hold is missing *)
    destruct (Z_le_gt_dec e' (SpecFloat.emin prec emax)) as [Le|Gt];
      [unfold fexp; lia|].
    assert (Hsl : prec - d1 + d2 <= s) by (unfold s, e', fexp in *; lia).
    assert (Hql : 2 ^ (d1 - 1 + s - d2) <= q).
    { assert (Hle : 2 ^ (d1 - 1 + s - d2) * m2 <= m').
      { rewrite Em'.
        apply Z.le_trans with (2 ^ (d1 - 1 + s - d2) * 2 ^ d2).
        - apply Z.mul_le_mono_nonneg_l; [apply Z.pow_nonneg|]; lia.
        - rewrite <- Z.pow_add_r by lia.
          replace (d1 - 1 + s - d2 + d2) with ((d1 - 1) + s) by lia.
          rewrite Z.pow_add_r by lia.
          apply Z.mul_le_mono_nonneg_r; lia. }
      assert (Hp : 0 < 2 ^ (d1 - 1 + s - d2)) by (apply Z.pow_pos_nonneg; lia).
      destruct (Z_le_gt_dec (2 ^ (d1 - 1 + s - d2)) q) as [L|G]; [exact L|exfalso].
      assert (q + 1 <= 2 ^ (d1 - 1 + s - d2)) by lia.
      assert (m2 * (q + 1) <= m2 * 2 ^ (d1 - 1 + s - d2))
        by (apply Z.mul_le_mono_nonneg_l; lia).
      lia. }
    assert (Hqpos : 0 < q).
    { eapply Z.lt_le_trans; [|exact Hql]. apply Z.pow_pos_nonneg; lia. }
    assert (Hdq : d1 + s - d2 <= Zdigits2 q).
    { rewrite Zdigits2_log2 by lia.
      assert (d1 - 1 + s - d2 <= Z.log2 q); [|lia].
      apply Z.log2_le_pow2; [lia|exact Hql]. }
    unfold fexp, s in *. lia.
  - (* and it is not longer than the operands allow *)
    destruct (Z_le_gt_dec 0 (d1 + s - d2 + 1)) as [Le|Gt].
    + rewrite Z.max_r by lia. apply Zdigits2_le; [lia|lia|].
      assert (Hlt : q * 2 ^ (d2 - 1) < 2 ^ (d1 + s - d2 + 1) * 2 ^ (d2 - 1)).
      { rewrite <- Z.pow_add_r by lia.
        replace (d1 + s - d2 + 1 + (d2 - 1)) with (d1 + s) by lia.
        rewrite Z.pow_add_r by lia.
        apply Z.le_lt_trans with (q * m2).
        - apply Z.mul_le_mono_nonneg_l; lia.
        - apply Z.le_lt_trans with m'; [lia|].
          rewrite Em'. apply Z.mul_lt_mono_pos_r; lia. }
      apply Z.mul_lt_mono_pos_r in Hlt; [exact Hlt|].
      apply Z.pow_pos_nonneg; lia.
    + rewrite Z.max_l by lia.
      assert (q = 0); [|subst q; reflexivity].
      destruct (Z.eq_dec q 0) as [|Hn]; [assumption|exfalso].
      assert (Hq1 : 1 <= q) by lia.
      assert (m2 <= m') by nia.
      assert (m' < 2 ^ (d1 + s)).
      { rewrite Em', Z.pow_add_r by lia. apply Z.mul_lt_mono_pos_r; lia. }
      assert (2 ^ (d1 + s) <= 2 ^ (d2 - 1)) by (apply Z.pow_le_mono_r; lia).
      lia.
Qed.

End Division.

Section QuotientError.

Local Open Scope R_scope.

(** A quotient that stays below [2^1000] in magnitude is a finite number,
    the exact quotient up to a relative error of [2^-53] (in the subnormal
    range: up to half the smallest subnormal). *)
Theorem div_error (x y : float) :
  is_finite x = true -> is_finite y = true -> valueOf y <> 0 ->
  Rabs (valueOf x / valueOf y) <= bpow 1000 ->
  is_finite (x / y) = true /\
  Rabs (valueOf (x / y) - valueOf x / valueOf y)
  <= bpow (-53) * Rabs (valueOf x / valueOf y) + bpow (-1075).
Proof.
  intros Fx Fy Hy Hmag.
  pose proof (bpow_pos (-53)) as P53. pose proof (bpow_pos (-1075)) as P1075.
  destruct (is_finite_SF y Fy) as [[sy Ey]|(sy & my & ey & Ey)].
  { exfalso. apply Hy. unfold valueOf. rewrite Ey. reflexivity. }
  destruct (is_finite_SF x Fx) as [[sx Ex]|(sx & mx & ex & Ex)].
  - assert (E : Prim2SF (x / y) = S754_zero (xorb sx sy))
      by (rewrite div_spec, Ex, Ey; reflexivity).
    assert (E0 : valueOf x / valueOf y = 0).
    { unfold valueOf at 1. rewrite Ex. cbn [SF2R]. unfold Rdiv. ring. }
    split; [apply SF_is_finite; left; eauto|].
    unfold valueOf at 1. rewrite E, E0. cbn [SF2R].
    rewrite Rminus_diag, Rabs_R0. lra.
  - destruct (SFdiv_core_binary_spec prec emax eq_refl (Zpos mx) ex (Zpos my) ey)
      as (q & e' & l & s & Ecore & Hs & He' & Hb & Hfexp & Hkeep & Hdig); [lia|lia|].
    pose proof (bpow_pos ex) as Pex. pose proof (bpow_pos ey) as Pey.
    assert (Pmx : 0 < IZR (Zpos mx)) by (apply IZR_lt; lia).
    assert (Pmy : 0 < IZR (Zpos my)) by (apply IZR_lt; lia).
    set (v := IZR (Zpos mx * 2 ^ s) / IZR (Zpos my) * bpow e').
    assert (Ev' : v = IZR (Zpos mx) * bpow ex / (IZR (Zpos my) * bpow ey)).
    { assert (Eex : bpow ex = bpow s * bpow e' * bpow ey)
        by (rewrite <- !bpow_add; f_equal; lia).
      unfold v. rewrite mult_IZR, bpow_IZR, Eex by lia. field. lra. }
    assert (Ev : valueOf x / valueOf y = if xorb sx sy then - v else v).
    { rewrite Ev'. unfold valueOf. rewrite Ex, Ey. cbn [SF2R].
      destruct sx, sy; cbn [xorb]; field; lra. }
    assert (Pv : 0 < v).
    { rewrite Ev'. apply Rdiv_lt_0_compat; apply Rmult_lt_0_compat; lra. }
    assert (Eabs : Rabs (valueOf x / valueOf y) = v).
    { rewrite Ev. destruct (xorb sx sy).
      - rewrite Rabs_Ropp. apply Rabs_pos_eq. lra.
      - apply Rabs_pos_eq. lra. }
    rewrite Eabs in *.
    set (D := (Zdigits2 (Zpos mx) + ex - (Zdigits2 (Zpos my) + ey))%Z) in *.
    assert (HD : (D <= 1001)%Z).
    { destruct (Z_le_gt_dec D 1001) as [L|G]; [exact L|exfalso].
      pose proof (Zdigits2_lower (Zpos mx) ltac:(lia)) as Hlow.
      pose proof (Zdigits2_bound (Zpos my) ltac:(lia)) as Hupp.
      pose proof (Pos2Z.is_pos (digits2_pos mx)) as Hdx.
      pose proof (Pos2Z.is_pos (digits2_pos my)) as Hdy.
      cbn [Zdigits2] in Hlow, Hupp, D.
      assert (Plow : bpow (Zpos (digits2_pos mx) - 1) <= IZR (Zpos mx))
        by (rewrite <- bpow_IZR by lia; apply IZR_le; exact Hlow).
      assert (Pupp : IZR (Zpos my) <= bpow (Zpos (digits2_pos my)))
        by (rewrite <- bpow_IZR by lia; apply IZR_le; lia).
      assert (bpow 1000 < v); [|lra].
      apply Rlt_le_trans with (bpow (D - 1)); [apply bpow_lt; lia|].
      rewrite Ev'.
      replace (D - 1)%Z
        with ((Zpos (digits2_pos mx) - 1) + ex + (- Zpos (digits2_pos my)) + (- ey))%Z
        by (unfold D; lia).
      rewrite !bpow_add, !bpow_opp.
      pose proof (bpow_pos (Zpos (digits2_pos mx) - 1)) as Q1.
      pose proof (bpow_pos (Zpos (digits2_pos my))) as Q2.
      unfold Rdiv. rewrite Rinv_mult.
      replace (bpow (Zpos (digits2_pos mx) - 1) * bpow ex
               * / bpow (Zpos (digits2_pos my)) * / bpow ey)
        with (bpow (Zpos (digits2_pos mx) - 1) * / bpow (Zpos (digits2_pos my))
              * (bpow ex * / bpow ey)) by ring.
      replace (IZR (Zpos mx) * bpow ex * (/ IZR (Zpos my) * / bpow ey))
        with (IZR (Zpos mx) * / IZR (Zpos my) * (bpow ex * / bpow ey)) by ring.
      apply Rmult_le_compat_r.
      { apply Rlt_le, Rmult_lt_0_compat; [lra|apply Rinv_0_lt_compat; lra]. }
      apply Rmult_le_compat; try lra.
      - apply Rlt_le, Rinv_0_lt_compat; lra.
      - apply Rinv_le_contravar; lra. }
    assert (Hov : (Z.max e' (Zdigits2 q + e' - prec) < emax - prec)%Z).
    { unfold fexp, SpecFloat.emin, prec, emax in *. fold D in Hfexp. lia. }
    destruct (binary_round_aux_R prec emax (xorb sx sy) q e' l
                (Zpos mx * 2 ^ s) (Zpos my) eq_refl eq_refl Hb (or_intror Hkeep) Hov)
      as [Hres Herr].
    fold v in Herr.
    assert (Espec : Prim2SF (x / y) = binary_round_aux prec emax (xorb sx sy) q e' l).
    { rewrite div_spec, Ex, Ey. unfold SF64div, SFdiv. rewrite Ecore. reflexivity. }
    split.
    + apply SF_is_finite. rewrite Espec.
      destruct Hres as [->|(M & E & ->)]; [left|right]; eauto.
    + unfold valueOf at 1. rewrite Espec, Ev. exact Herr.
Qed.

End QuotientError.

(** ** Math.round, and numbers that are integers *)


(** [Math.round] on the values where rounding by hand goes wrong. *)
Example Math_round_values :
  Math_round 2.5 = 3 /\ Math_round (-2.5) = -2 /\ Math_round (-0.5) = -0 /\
  Math_round 0.49999999999999994 = 0 /\ Math_round (-0.2) = -0 /\
  Math_round 4503599627370497 = 4503599627370497 /\ Math_round nan = nan /\
  Math_round 11.999999999999998 = 12.
Proof. repeat split. Qed.

Section RoundFacts.

Local Open Scope R_scope.

Lemma isInteger_value (x : float) (k : Z) :
  isInteger x k = true -> is_finite x = true /\ valueOf x = IZR k.
Proof.
  unfold isInteger, valueOf. destruct (Prim2SF x) as [s|s| |s m e] eqn:E; try discriminate.
  - intros H. apply Z.eqb_eq in H. subst k. split; [|reflexivity].
    apply SF_is_finite. left. eauto.
  - intros H. apply andb_true_iff in H as [He Hm].
    apply Z.leb_le in He. apply Z.eqb_eq in Hm.
    split; [apply SF_is_finite; right; eauto|].
    cbn [SF2R].
    assert (Ek : IZR (if s then Zneg m else Zpos m) = IZR k * bpow (- e))
      by (rewrite Hm, mult_IZR, bpow_IZR by lia; reflexivity).
    pose proof (bpow_pos e) as P.
    assert (Eb : bpow (- e) * bpow e = 1).
    { rewrite <- bpow_add. replace (- e + e)%Z with 0%Z by lia. apply bpow_0. }
    destruct s.
    + change (IZR (Zneg m)) with (- IZR (Zpos m)) in Ek.
      rewrite Ek, Rmult_assoc, Eb. ring.
    + rewrite Ek, Rmult_assoc, Eb. ring.
Qed.

Lemma SF_zero_float (x : float) (s : bool) :
  Prim2SF x = S754_zero s -> x = (if s then -0 else 0)%float.
Proof. intros E. apply Prim2SF_inj. rewrite E. destruct s; reflexivity. Qed.

(** [Math.round] of a number within half a unit of the integer [k] (the
    upper half excluded) is [k]; for [k = 0] it may be [-0]. *)
Lemma Math_round_near (t : float) (k : Z) :
  is_finite t = true -> (Z.abs k < 2 ^ 52)%Z ->
  IZR k - / 2 <= valueOf t < IZR k + / 2 ->
  Math_round t = of_Z k \/ (k = 0%Z /\ Math_round t = (-0)%float).
Proof.
  intros Ft Hk Hv. unfold Math_round, valueOf in *.
  destruct (is_finite_SF t Ft) as [[s E]|(s & m & e & E)]; rewrite E in *.
  - cbn [SF2R] in Hv.
    assert (k = 0%Z).
    { assert (IZR k < IZR 1) by (cbn; lra). assert (IZR (-1) < IZR k) by (cbn; lra).
      apply lt_IZR in H, H0. lia. }
    subst k. rewrite (SF_zero_float t s E). destruct s; [right|left]; auto.
  - destruct (valid_finite t s m e E) as (Hm1 & He & Hm2 & _).
    cbn [SF2R] in Hv.
    pose proof (bpow_pos e) as Pe.
    destruct (Z.leb_spec 0 e) as [Hpos|Hneg].
    + (* a binary64 integer of this form is at least 2^52 *)
      exfalso.
      assert (Hbig : bpow 52 <= IZR (Zpos m) * bpow e).
      { rewrite <- (Rmult_1_r (bpow 52)).
        apply Rmult_le_compat; try lra.
        - apply Rlt_le, bpow_pos.
        - rewrite <- bpow_IZR by lia. apply IZR_le. apply Hm2. lia.
        - rewrite <- bpow_0. apply bpow_le. lia. }
      assert (Hk' : IZR (Z.abs k) <= bpow 52 - 1).
      { rewrite <- bpow_IZR by lia. change 1 with (IZR 1). rewrite <- minus_IZR.
        apply IZR_le. lia. }
      rewrite abs_IZR in Hk'.
      destruct s.
      * assert (- IZR k <= Rabs (IZR k)) by (rewrite <- Rabs_Ropp; apply Rle_abs).
        lra.
      * pose proof (Rle_abs (IZR k)). lra.
    + set (d := (2 ^ (- e))%Z). set (n := if s then Zneg m else Zpos m).
      assert (Hd : (0 < d)%Z) by (apply Z.pow_pos_nonneg; lia).
      assert (Ed : IZR d = bpow (- e)) by (apply bpow_IZR; lia).
      assert (Eb : bpow (- e) * bpow e = 1).
      { rewrite <- bpow_add. replace (- e + e)%Z with 0%Z by lia. apply bpow_0. }
      assert (En : (if s then - IZR (Zpos m) else IZR (Zpos m)) * bpow e * IZR d = IZR n).
      { rewrite Ed, Rmult_assoc, (Rmult_comm (bpow e)), Eb, Rmult_1_r.
        unfold n. destruct s; reflexivity. }
      assert (Pd : 0 < IZR d) by (apply IZR_lt; exact Hd).
      assert (Hlo : (2 * k * d <= 2 * n + d)%Z).
      { apply le_IZR. rewrite plus_IZR, !mult_IZR, <- En.
        destruct Hv as [Hv _].
        apply Rmult_le_compat_r with (r := IZR d) in Hv; [|lra].
        change (IZR 2) with 2. lra. }
      assert (Hhi : (2 * n + d < 2 * k * d + 2 * d)%Z).
      { apply lt_IZR. rewrite !plus_IZR, !mult_IZR, <- En.
        destruct Hv as [_ Hv].
        apply Rmult_lt_compat_r with (r := IZR d) in Hv; [|lra].
        change (IZR 2) with 2. lra. }
      assert (Eq : ((2 * n + d) / (2 * d) = k)%Z).
      { symmetry. apply (Z.div_unique_pos (2 * n + d) (2 * d) k (2 * n + d - 2 * d * k)); lia. }
      rewrite Eq.
      destruct (Z.eqb_spec k 0) as [->|Hn].
      * destruct s; [right|left]; auto.
      * left. reflexivity.
Qed.

(** A finite number other than zero, divided by itself, is exactly 1. *)
Lemma div_self (x : float) :
  is_finite x = true -> valueOf x <> 0 -> (x / x)%float = 1%float.
Proof.
  intros Fx Hx. apply Prim2SF_inj. rewrite div_spec.
  destruct (is_finite_SF x Fx) as [[s E]|(s & m & e & E)].
  { exfalso. apply Hx. unfold valueOf. rewrite E. reflexivity. }
  rewrite E. unfold SF64div, SFdiv, SFdiv_core_binary.
  replace (Zdigits2 (Zpos m) + e - (Zdigits2 (Zpos m) + e))%Z with 0%Z by lia.
  replace (e - e)%Z with 0%Z by lia.
  change (Z.min (fexp prec emax 0) 0) with (-53)%Z.
  change (0 - -53)%Z with 53%Z. cbv beta iota zeta.
  change IntDef.Z.div_eucl with Z.div_eucl.
  change IntDef.Z.shiftl with Z.shiftl.
  rewrite Z.shiftl_mul_pow2 by lia.
  rewrite (Z.mul_comm (Zpos m)).
  pose proof (Z.div_mul (2 ^ 53) (Zpos m) ltac:(lia)) as Hq.
  pose proof (Z.mod_mul (2 ^ 53) (Zpos m) ltac:(lia)) as Hr.
  unfold Z.div, Z.modulo in Hq, Hr.
  destruct (Z.div_eucl (2 ^ 53 * Zpos m) (Zpos m)) as [q r].
  subst q r.
  replace (xorb s s) with false by (destruct s; reflexivity).
  assert (El : new_location (Zpos m) 0 = loc_Exact).
  { unfold new_location, new_location_even, new_location_odd.
    destruct (IntDef.Z.even (Zpos m)); reflexivity. }
  rewrite El. reflexivity.
Qed.

End RoundFacts.

(** ** Hosts that are accurate to ten bits *)

Section HostBounds.

Local Open Scope R_scope.

Lemma bpow_m53 : bpow (-53) <= roundoff.
Proof.
  change (bpow (-53)) with (bpow (- (53))). rewrite bpow_opp, <- bpow_IZR by lia.
  unfold roundoff. apply Rinv_le_contravar; [lra|].
  change (2 ^ 53)%Z with 9007199254740992%Z. lra.
Qed.

Lemma bpow_m1075 : bpow (-1075) <= roundoff.
Proof.
  apply Rle_trans with (bpow (-53)); [apply bpow_le; lia|apply bpow_m53].
Qed.

Lemma bpow_1000 : 1048576 <= bpow 1000.
Proof.
  apply Rle_trans with (bpow 20); [|apply bpow_le; lia].
  rewrite <- bpow_IZR by lia. change (2 ^ 20)%Z with 1048576%Z. lra.
Qed.

(** The operations on numbers of moderate size. *)
Lemma mul_close (x y : float) :
  is_finite x = true -> is_finite y = true ->
  Rabs (valueOf x * valueOf y) <= 1048576 ->
  is_finite (x * y) = true /\
  Rabs (valueOf (x * y) - valueOf x * valueOf y) <= roundoff * (Rabs (valueOf x * valueOf y) + 1).
Proof.
  intros Fx Fy H.
  destruct (mul_error x y Fx Fy) as [F E].
  { pose proof bpow_1000. lra. }
  split; [exact F|].
  pose proof bpow_m53. pose proof bpow_m1075.
  pose proof (Rabs_pos (valueOf x * valueOf y)) as P.
  pose proof (bpow_pos (-53)).
  assert (bpow (-53) * Rabs (valueOf x * valueOf y) <= roundoff * Rabs (valueOf x * valueOf y))
    by (apply Rmult_le_compat_r; lra).
  lra.
Qed.

Lemma div_close (x y : float) :
  is_finite x = true -> is_finite y = true -> valueOf y <> 0 ->
  Rabs (valueOf x / valueOf y) <= 1048576 ->
  is_finite (x / y) = true /\
  Rabs (valueOf (x / y) - valueOf x / valueOf y) <= roundoff * (Rabs (valueOf x / valueOf y) + 1).
Proof.
  intros Fx Fy Hy H.
  destruct (div_error x y Fx Fy Hy) as [F E].
  { pose proof bpow_1000. lra. }
  split; [exact F|].
  pose proof bpow_m53. pose proof bpow_m1075.
  pose proof (Rabs_pos (valueOf x / valueOf y)) as P.
  pose proof (bpow_pos (-53)).
  assert (bpow (-53) * Rabs (valueOf x / valueOf y) <= roundoff * Rabs (valueOf x / valueOf y))
    by (apply Rmult_le_compat_r; lra).
  lra.
Qed.

Lemma Rabs_bounds (x y : R) : Rabs x <= y -> - y <= x <= y.
Proof. unfold Rabs. destruct (Rcase_abs x); lra. Qed.

(** The logarithm near 1. *)
Lemma ln_le_minus_1 (x : R) : 0 < x -> ln x <= x - 1.
Proof.
  intros H. pose proof (exp_ineq1_le (ln x)) as E. rewrite exp_ln in E by exact H.
  lra.
Qed.

Lemma ln_near_1 (x d : R) : d <= / 2 -> Rabs (x - 1) <= d -> Rabs (ln x) <= 2 * d.
Proof.
  intros Hd H. apply Rabs_bounds in H.
  assert (Px : 0 < x) by lra.
  pose proof (ln_le_minus_1 x Px) as U.
  pose proof (ln_le_minus_1 (/ x) (Rinv_0_lt_compat x Px)) as L.
  rewrite ln_Rinv in L by exact Px.
  assert (/ x - 1 <= 2 * d).
  { apply Rmult_le_reg_r with x; [exact Px|].
    rewrite Rmult_minus_distr_r, Rinv_l by lra. nra. }
  apply Rabs_le. lra.
Qed.

Lemma ln_2_bounds : / 2 < ln 2 < 1.
Proof.
  split; [apply ln_lt_2|].
  rewrite <- (ln_exp 1). apply ln_increasing; [lra|].
  pose proof (exp_ineq1 1). lra.
Qed.

Lemma Rpower_2_range (x : R) (a b : Z) :
  IZR a <= x <= IZR b -> bpow a <= Rpower 2 x <= bpow b.
Proof. intros [H1 H2]. unfold bpow. split; apply Rle_Rpower; lra. Qed.

Lemma ln_Rpower_2 (x : R) : ln (Rpower 2 x) = x * ln 2.
Proof. unfold Rpower. apply ln_exp. Qed.

End HostBounds.

Section RealSteps.

Local Open Scope R_scope.

Lemma Rabs_mult_le (a b x y : R) : Rabs a <= x -> Rabs b <= y -> Rabs (a * b) <= x * y.
Proof.
  intros Ha Hb. rewrite Rabs_mult.
  apply Rmult_le_compat; trivial; apply Rabs_pos.
Qed.

Lemma Rabs_div_le (a b x c : R) : Rabs a <= x -> 0 < c <= b -> Rabs (a / b) <= x / c.
Proof.
  intros Ha [Hc Hb]. unfold Rdiv. rewrite Rabs_mult.
  pose proof (Rabs_pos a) as Pa.
  apply Rmult_le_compat; trivial.
  - apply Rabs_pos.
  - rewrite Rabs_inv, Rabs_pos_eq by lra. apply Rinv_le_contravar; lra.
Qed.

(** A value within [roundoff * (|g| + 1)] of [g >= c > 0] is [g] up to the factor
    [1 +- roundoff * (1 + 1/c)]. *)
Lemma ratio_close (x g c : R) :
  0 < c <= g -> Rabs (x - g) <= roundoff * (Rabs g + 1) ->
  Rabs (x / g - 1) <= roundoff * (1 + / c).
Proof.
  intros [Hc Hg] H. rewrite (Rabs_pos_eq g) in H by lra.
  replace (x / g - 1) with ((x - g) / g) by (field; lra).
  assert (Pw : 0 < roundoff) by (unfold roundoff; lra).
  apply Rle_trans with (roundoff * (g + 1) / g); [apply Rabs_div_le; [exact H|lra]|].
  replace (roundoff * (g + 1) / g) with (roundoff * (1 + / g)) by (field; lra).
  apply Rmult_le_compat_l; [lra|].
  apply Rplus_le_compat_l. apply Rinv_le_contravar; lra.
Qed.

(** The last two steps of [noteFromPitch] over the reals: from the two
    logarithms to twelve times their quotient. *)
Lemma quotient_near (A L vl vl2 : R) :
  Rabs A <= 119 -> / 2 < L < 1 ->
  Rabs (vl - A / 12 * L) <= 3 / 1000 -> Rabs (vl2 - L) <= / 1024 ->
  0 < vl2 /\ Rabs (vl / vl2) <= 10 /\ Rabs (12 * (vl / vl2) - A) <= 31 / 100.
Proof.
  intros HA HL Hl Hl2.
  pose proof (Rabs_bounds _ _ Hl2) as B2.
  assert (P2 : 499 / 1000 <= vl2) by lra.
  assert (N : Rabs (12 * vl - A * vl2) <= 36 / 1000 + 119 / 1024).
  { replace (12 * vl - A * vl2) with (12 * (vl - A / 12 * L) + - (A * (vl2 - L)))
      by field.
    eapply Rle_trans; [apply Rabs_triang|]. apply Rplus_le_compat.
    - rewrite Rabs_mult, (Rabs_pos_eq 12) by lra. lra.
    - rewrite Rabs_Ropp. replace (119 / 1024) with (119 * / 1024) by field.
      apply Rabs_mult_le; assumption. }
  assert (E : 12 * (vl / vl2) - A = (12 * vl - A * vl2) / vl2) by (field; lra).
  assert (Q : Rabs (12 * (vl / vl2) - A) <= 31 / 100).
  { rewrite E.
    eapply Rle_trans; [apply (Rabs_div_le _ vl2 _ (499 / 1000) N); lra|]. lra. }
  split; [lra|]. split; [|exact Q].
  apply Rabs_bounds in Q. apply Rabs_bounds in HA. apply Rabs_le. lra.
Qed.

End RealSteps.

(** ** The round trip through the note arithmetic *)


Lemma noteRange_In (n : Z) : (-50 <= n <= 150)%Z -> In n noteRange.
Proof.
  intros H. unfold noteRange. apply in_map_iff.
  exists (Z.to_nat (n + 50)). split; [lia|]. apply in_seq. lia.
Qed.

(** On the note numbers of the range, the subtraction and the addition of 69
    are exact. *)
Lemma noteRange_exact (n : Z) :
  (-50 <= n <= 150)%Z ->
  isInteger (of_Z n - 69) (n - 69) = true /\ of_Z (n - 69) + 69 = of_Z n.
Proof.
  intros H. apply noteRange_In in H.
  assert (C : forallb (fun n => isInteger (of_Z n - 69) (n - 69)
                                && PrimFloat.Leibniz.eqb (of_Z (n - 69) + 69) (of_Z n))
                      noteRange = true) by (vm_compute; reflexivity).
  rewrite forallb_forall in C. specialize (C n H).
  apply andb_true_iff in C as [C1 C2].
  split; [exact C1|]. apply FloatAxioms.Leibniz.eqb_spec. exact C2.
Qed.

Section NoteRoundTrip.

Variables Math_log Math_log2 : float -> float.
Variable Math_pow : float -> float -> float.

Local Open Scope R_scope.

(** C9.  For every note number [n] in [-50 .. 150], on binary64:
    [noteFromPitch(frequencyFromNoteNumber(n)) = n], and the cents offset
    [1200 * Math.log2(f / f)] of [f = frequencyFromNoteNumber(n)] against
    itself is 0.  This holds on every host whose [Math.pow] and [Math.log]
    return, at the three arguments the computation passes them, finite
    numbers within [tolerance] of [2^x] (relatively) and of [ln y]
    (absolutely), and whose [Math.log2(1)] is [+0] as ECMAScript requires.
    The roundings of the two divisions and two multiplications, and of
    [Math.round], are those of the code. *)
Theorem note_round_trip (n : Z) :
  (-50 <= n <= 150)%Z ->
  let x := ((of_Z n - 69) / 12)%float in
  let f := frequencyFromNoteNumber Math_pow (of_Z n) in
  powAccurateAt Math_pow x ->
  logAccurateAt Math_log (f / 440)%float ->
  logAccurateAt Math_log 2%float ->
  Math_log2 1%float = 0%float ->
  noteFromPitch Math_log Math_round f = of_Z n /\
  (1200 * Math_log2 (f / f))%float = 0%float.
Proof.
  intros Hn x f [Fp Ep] [Fl El] [Fl2 El2] Hone.
  destruct (noteRange_exact n Hn) as [Ha Hback].
  destruct (isInteger_value _ _ Ha) as [Fa Va].
  destruct (isInteger_value 12%float 12 eq_refl) as [F12 V12].
  destruct (isInteger_value 440%float 440 eq_refl) as [F440 V440].
  destruct (isInteger_value 2%float 2 eq_refl) as [F2 V2].
  set (A := IZR (n - 69)) in *.
  assert (HA : Rabs A <= 119).
  { pose proof (IZR_le (-119) (n - 69) ltac:(lia)) as H1.
    pose proof (IZR_le (n - 69) 119 ltac:(lia)) as H2.
    apply Rabs_le. unfold A. lra. }
  pose proof (Rabs_bounds _ _ HA) as BA.
  assert (Pw : 0 < roundoff) by (unfold roundoff; lra).
  assert (Sw : roundoff <= / 1000000000000000) by (unfold roundoff; lra).
  unfold tolerance in Ep, El, El2.
  (* x = (n - 69) / 12 *)
  destruct (div_close (of_Z n - 69)%float 12%float Fa F12) as [Fx Ex].
  { rewrite V12. lra. }
  { rewrite Va, V12. apply Rabs_le. lra. }
  fold x in Fx, Ex. rewrite Va, V12 in Ex.
  assert (Bx : Rabs (valueOf x - A / 12) <= 11 * roundoff).
  { eapply Rle_trans; [exact Ex|].
    assert (Rabs (A / 12) <= 10) by (apply Rabs_le; lra).
    rewrite (Rmult_comm _ roundoff). apply Rmult_le_compat_l; lra. }
  pose proof (Rabs_bounds _ _ Bx) as Bx'.
  (* 2^x *)
  set (P := Rpower 2 (valueOf x)) in *.
  assert (HP : / 1024 <= P <= 1024).
  { destruct (Rpower_2_range (valueOf x) (-10) 10) as [H1 H2].
    - change (IZR (-10)) with (-10). change (IZR 10) with 10. lra.
    - fold P in H1, H2.
      change (bpow (-10)) with (bpow (- (10))) in H1.
      rewrite bpow_opp in H1. rewrite <- bpow_IZR in H1, H2 by lia.
      change (IZR (2 ^ 10)) with 1024 in H1, H2. lra. }
  (* p = Math.pow(2, x) *)
  set (p := Math_pow 2%float x) in *.
  pose proof (Rabs_bounds _ _ Ep) as Bp.
  assert (Hp : 9 / 10000 <= valueOf p <= 1025) by nra.
  assert (R1 : Rabs (valueOf p / P - 1) <= / 1024).
  { replace (valueOf p / P - 1) with ((valueOf p - P) / P) by (field; lra).
    replace (/ 1024) with (/ 1024 * P / P) by (field; lra).
    apply Rabs_div_le; lra. }
  (* f = 440 * p *)
  assert (Ef : f = (440 * p)%float) by reflexivity.
  destruct (mul_close 440%float p F440 Fp) as [Ff Bf].
  { rewrite V440. apply Rabs_le. nra. }
  rewrite <- Ef in Ff, Bf. rewrite V440 in Bf.
  set (g := 440 * valueOf p) in *.
  assert (Hg : 39 / 100 <= g <= 451000) by (unfold g; lra).
  pose proof (ratio_close (valueOf f) g (39 / 100) ltac:(lra) Bf) as R2.
  rewrite (Rabs_pos_eq g) in Bf by lra.
  pose proof (Rabs_bounds _ _ Bf) as Bf'.
  assert (Hf : 38 / 100 <= valueOf f <= 451001) by nra.
  (* q = f / 440 *)
  destruct (div_close f 440%float Ff F440) as [Fq Bq].
  { rewrite V440. lra. }
  { rewrite V440. apply Rabs_le. lra. }
  rewrite V440 in Bq.
  set (q := (f / 440)%float) in *.
  set (g2 := valueOf f / 440) in *.
  assert (Hg2 : 8 / 10000 <= g2 <= 1026) by (unfold g2; lra).
  pose proof (ratio_close (valueOf q) g2 (8 / 10000) ltac:(lra) Bq) as R3.
  (* ln q *)
  set (r1 := valueOf p / P) in *.
  set (r2 := valueOf f / g) in *.
  set (r3 := valueOf q / g2) in *.
  assert (B1 : Rabs (ln r1) <= 2 * / 1024) by (apply ln_near_1; [lra|exact R1]).
  assert (B2 : Rabs (ln r2) <= 2 * (roundoff * (1 + / (39 / 100))))
    by (apply ln_near_1; [lra|exact R2]).
  assert (B3 : Rabs (ln r3) <= 2 * (roundoff * (1 + / (8 / 10000))))
    by (apply ln_near_1; [lra|exact R3]).
  apply Rabs_bounds in R1, R2, R3.
  assert (Pr1 : 0 < r1) by lra.
  assert (Pr2 : 0 < r2) by lra.
  assert (Pr3 : 0 < r3) by lra.
  assert (Eq : valueOf q = P * r1 * r2 * r3).
  { unfold r1, r2, r3, g2, g. field. lra. }
  assert (Elnq : ln (valueOf q) = valueOf x * ln 2 + ln r1 + ln r2 + ln r3).
  { rewrite Eq, !ln_mult; try lra.
    - unfold P. rewrite ln_Rpower_2. ring.
    - apply Rmult_lt_0_compat; lra.
    - apply Rmult_lt_0_compat; [apply Rmult_lt_0_compat|]; lra. }
  pose proof ln_2_bounds as HL.
  apply Rabs_bounds in B1, B2, B3.
  (* the two logarithms *)
  apply Rabs_bounds in El.
  rewrite V2 in El2.
  assert (Bl : Rabs (valueOf (Math_log q) - A / 12 * ln 2) <= 3 / 1000).
  { rewrite Elnq in El.
    assert (Hxl : Rabs ((valueOf x - A / 12) * ln 2) <= 11 * roundoff * 1)
      by (apply Rabs_mult_le; [exact Bx|apply Rabs_le; lra]).
    apply Rabs_bounds in Hxl.
    apply Rabs_le. lra. }
  destruct (quotient_near A (ln 2) _ _ HA HL Bl El2) as (Pl2 & Bq10 & Bquot).
  (* r = Math.log(q) / Math.log(2) *)
  destruct (div_close (Math_log q) (Math_log 2%float) Fl Fl2) as [Fr Br].
  { lra. }
  { lra. }
  set (r := (Math_log q / Math_log 2)%float) in *.
  assert (Br' : Rabs (valueOf r - valueOf (Math_log q) / valueOf (Math_log 2%float))
                <= 11 * roundoff).
  { eapply Rle_trans; [exact Br|].
    rewrite (Rmult_comm _ roundoff). apply Rmult_le_compat_l; lra. }
  apply Rabs_bounds in Br', Bq10, Bquot.
  (* t = 12 * r *)
  destruct (mul_close 12%float r F12 Fr) as [Ft Bt].
  { rewrite V12. apply Rabs_le. lra. }
  rewrite V12 in Bt.
  set (t := (12 * r)%float) in *.
  assert (Bt' : Rabs (valueOf t - 12 * valueOf r) <= 122 * roundoff).
  { eapply Rle_trans; [exact Bt|].
    assert (Rabs (12 * valueOf r) <= 121) by (apply Rabs_le; lra).
    rewrite (Rmult_comm _ roundoff). apply Rmult_le_compat_l; lra. }
  apply Rabs_bounds in Bt'.
  assert (Hnear : IZR (n - 69) - / 2 <= valueOf t < IZR (n - 69) + / 2) by (fold A; lra).
  split.
  - unfold noteFromPitch. fold q r t.
    destruct (Math_round_near t (n - 69) Ft ltac:(lia) Hnear) as [->|[Ez ->]].
    + exact Hback.
    + assert (n = 69%Z) by lia. subst n. reflexivity.
  - rewrite (div_self f Ff) by lra. rewrite Hone. reflexivity.
Qed.

End NoteRoundTrip.

Section LogOfTwo.

Local Open Scope R_scope.

Lemma ln_square_le (a b : R) : 0 < a -> a * a <= b -> 2 * ln a <= ln b.
Proof.
  intros Ha H. replace (2 * ln a) with (ln a + ln a) by ring.
  rewrite <- ln_mult by exact Ha.
  destruct H as [H|<-]; [|lra]. left. apply ln_increasing; [|exact H].
  apply Rmult_lt_0_compat; exact Ha.
Qed.

Lemma ln_square_ge (a b : R) : 0 < b -> b <= a * a -> 0 < a -> ln b <= 2 * ln a.
Proof.
  intros Hb H Ha. replace (2 * ln a) with (ln a + ln a) by ring.
  rewrite <- ln_mult by exact Ha.
  destruct H as [H|<-]; [|lra]. left. apply ln_increasing; [exact Hb|exact H].
Qed.

Lemma ln_ge_1_minus_inv (x : R) : 0 < x -> 1 - / x <= ln x.
Proof.
  intros H. pose proof (ln_le_minus_1 (/ x) (Rinv_0_lt_compat x H)) as L.
  rewrite ln_Rinv in L by exact H. lra.
Qed.

(** [ln 2] to three decimal places, by ten successive square roots. *)
Lemma ln_2_digits : 6929 / 10000 <= ln 2 <= 6934 / 10000.
Proof.
  split.
  - pose proof (ln_square_le (1414213562373 / 1000000000000) 2 ltac:(lra) ltac:(lra)) as S1.
    pose proof (ln_square_le (1189207115002 / 1000000000000) (1414213562373 / 1000000000000) ltac:(lra) ltac:(lra)) as S2.
    pose proof (ln_square_le (1090507732664 / 1000000000000) (1189207115002 / 1000000000000) ltac:(lra) ltac:(lra)) as S3.
    pose proof (ln_square_le (1044273782426 / 1000000000000) (1090507732664 / 1000000000000) ltac:(lra) ltac:(lra)) as S4.
    pose proof (ln_square_le (1021897148653 / 1000000000000) (1044273782426 / 1000000000000) ltac:(lra) ltac:(lra)) as S5.
    pose proof (ln_square_le (1010889286051 / 1000000000000) (1021897148653 / 1000000000000) ltac:(lra) ltac:(lra)) as S6.
    pose proof (ln_square_le (1005429901112 / 1000000000000) (1010889286051 / 1000000000000) ltac:(lra) ltac:(lra)) as S7.
    pose proof (ln_square_le (1002711275049 / 1000000000000) (1005429901112 / 1000000000000) ltac:(lra) ltac:(lra)) as S8.
    pose proof (ln_square_le (1001354719891 / 1000000000000) (1002711275049 / 1000000000000) ltac:(lra) ltac:(lra)) as S9.
    pose proof (ln_square_le (1000677130692 / 1000000000000) (1001354719891 / 1000000000000) ltac:(lra) ltac:(lra)) as S10.
    pose proof (ln_ge_1_minus_inv (1000677130692 / 1000000000000) ltac:(lra)) as S0.
    lra.
  - pose proof (ln_square_ge (1414213562374 / 1000000000000) 2 ltac:(lra) ltac:(lra) ltac:(lra)) as S1.
    pose proof (ln_square_ge (1189207115004 / 1000000000000) (1414213562374 / 1000000000000) ltac:(lra) ltac:(lra) ltac:(lra)) as S2.
    pose proof (ln_square_ge (1090507732666 / 1000000000000) (1189207115004 / 1000000000000) ltac:(lra) ltac:(lra) ltac:(lra)) as S3.
    pose proof (ln_square_ge (1044273782428 / 1000000000000) (1090507732666 / 1000000000000) ltac:(lra) ltac:(lra) ltac:(lra)) as S4.
    pose proof (ln_square_ge (1021897148655 / 1000000000000) (1044273782428 / 1000000000000) ltac:(lra) ltac:(lra) ltac:(lra)) as S5.
    pose proof (ln_square_ge (1010889286053 / 1000000000000) (1021897148655 / 1000000000000) ltac:(lra) ltac:(lra) ltac:(lra)) as S6.
    pose proof (ln_square_ge (1005429901114 / 1000000000000) (1010889286053 / 1000000000000) ltac:(lra) ltac:(lra) ltac:(lra)) as S7.
    pose proof (ln_square_ge (1002711275051 / 1000000000000) (1005429901114 / 1000000000000) ltac:(lra) ltac:(lra) ltac:(lra)) as S8.
    pose proof (ln_square_ge (1001354719893 / 1000000000000) (1002711275051 / 1000000000000) ltac:(lra) ltac:(lra) ltac:(lra)) as S9.
    pose proof (ln_square_ge (1000677130694 / 1000000000000) (1001354719893 / 1000000000000) ltac:(lra) ltac:(lra) ltac:(lra)) as S10.
    pose proof (ln_le_minus_1 (1000677130694 / 1000000000000) ltac:(lra)) as S0.
    lra.
Qed.

End LogOfTwo.


(** The value a host returns for [Math.log(2)]. *)
Lemma log_2_accurate :
  logAccurateAt (fun _ => 0.6931471805599453) 2.
Proof.
  unfold logAccurateAt, tolerance. split; [reflexivity|].
  destruct (isInteger_value 2 2 eq_refl) as [_ ->].
  unfold valueOf.
  change (Prim2SF 0.6931471805599453) with (S754_finite false 6243314768165359 (-53)).
  cbn [SF2R]. change (bpow (-53)) with (bpow (- (53))).
  rewrite bpow_opp, <- bpow_IZR by lia.
  change (IZR (2 ^ 53)) with 9007199254740992%R.
  pose proof ln_2_digits. apply Rabs_le. lra.
Qed.

Lemma note_round_trip_witness :
  let Math_log := fun _ : float => 0.6931471805599453 in
  let Math_log2 := fun _ : float => 0 in
  let Math_pow := fun _ _ : float => 2 in
  (-50 <= 81 <= 150)%Z /\
  powAccurateAt Math_pow ((of_Z 81 - 69) / 12) /\
  logAccurateAt Math_log (frequencyFromNoteNumber Math_pow (of_Z 81) / 440) /\
  logAccurateAt Math_log 2 /\
  Math_log2 1 = 0 /\
  frequencyFromNoteNumber Math_pow (of_Z 81) = 880 /\
  noteFromPitch Math_log Math_round 880 = 81 /\
  1200 * Math_log2 (880 / 880) = 0.
Proof.
  cbv zeta.
  assert (R : (-50 <= 81 <= 150)%Z) by lia.
  assert (P : powAccurateAt (fun _ _ => 2) ((of_Z 81 - 69) / 12)).
  { unfold powAccurateAt, tolerance. split; [reflexivity|].
    change ((of_Z 81 - 69) / 12) with 1.
    destruct (isInteger_value 2 2 eq_refl) as [_ ->].
    destruct (isInteger_value 1 1 eq_refl) as [_ ->].
    rewrite Rpower_1 by lra. rewrite Rminus_diag, Rabs_R0. lra. }
  pose proof (note_round_trip (fun _ => 0.6931471805599453) (fun _ => 0) (fun _ _ => 2)
                81 R P log_2_accurate log_2_accurate eq_refl) as [H1 H2].
  exact (conj R (conj P (conj log_2_accurate (conj log_2_accurate
           (conj eq_refl (conj eq_refl (conj H1 H2))))))).
Defined.

(** * Further properties of the script *)

(** ** Sums of absolute values *)

Lemma binary_round_aux_class (prec emax : Z) (s : bool) (m e : Z) (l : location) :
  (0 <= m)%Z ->
  match binary_round_aux prec emax s m e l with
  | S754_zero s' | S754_infinity s' | S754_finite s' _ _ => s' = s
  | S754_nan => False
  end.
Proof.
  intros Hm. unfold binary_round_aux.
  destruct (shr_fexp_m prec emax m e l Hm) as [H1 _].
  destruct (shr_fexp prec emax m e l) as [mrs' e']. cbn [fst] in H1.
  assert (H0 : (0 <= shr_m mrs')%Z).
  { rewrite H1. apply Z.div_pos; [assumption|]. apply Z.pow_pos_nonneg; [lia|].
    unfold dropped. lia. }
  pose proof (rne_bounds (shr_m mrs') (loc_of_shr_record mrs')) as Hr.
  set (m1 := round_nearest_even (shr_m mrs') (loc_of_shr_record mrs')) in *.
  assert (Hm1 : (0 <= m1)%Z) by lia.
  destruct (shr_fexp_m prec emax m1 e' loc_Exact Hm1) as [H3 _].
  destruct (shr_fexp prec emax m1 e' loc_Exact) as [mrs'' e'']. cbn [fst] in H3.
  assert (H2 : (0 <= shr_m mrs'')%Z).
  { rewrite H3. apply Z.div_pos; [assumption|]. apply Z.pow_pos_nonneg; [lia|].
    unfold dropped. lia. }
  destruct (shr_m mrs'') as [|p|p]; [reflexivity| |lia].
  destruct (Z.leb e'' (emax - prec)); reflexivity.
Qed.

Lemma binary_round_class (prec emax : Z) (s : bool) (m : positive) (e : Z) :
  match binary_round prec emax s m e with
  | S754_zero s' | S754_infinity s' | S754_finite s' _ _ => s' = s
  | S754_nan => False
  end.
Proof.
  unfold binary_round. destruct (shl_align m e _) as [mz ez].
  apply binary_round_aux_class. lia.
Qed.

Lemma binary_round_nonneg (prec emax : Z) (m : positive) (e : Z) :
  nonnegSF (binary_round prec emax false m e).
Proof.
  pose proof (binary_round_class prec emax false m e) as H.
  destruct (binary_round prec emax false m e) as [s|s| |s m' e'];
    try subst s; try contradiction; exact I.
Qed.

Lemma SFadd_nonneg (a b : spec_float) :
  nonnegSF a -> nonnegSF b -> nonnegSF (SF64add a b).
Proof.
  destruct a as [[]|[]| |[] ma ea], b as [[]|[]| |[] mb eb];
    cbn; try contradiction; try (intros; exact I).
  intros _ _. apply binary_round_nonneg.
Qed.

Lemma abs_nonneg (x : float) : nonnegSF (Prim2SF (abs x)).
Proof. rewrite abs_spec. destruct (Prim2SF x) as [s|s| |s m e]; exact I. Qed.






Lemma fold_abs_nonneg (buf : list float) (offset : nat) (l : list nat) : forall acc,
  nonnegSF (Prim2SF acc) ->
  nonnegSF (Prim2SF (fold_left
    (fun correlation i => correlation + abs (get buf i - get buf (i + offset))) l acc)).
Proof.
  induction l as [|i l IH]; intros acc Ha; cbn [fold_left]; [assumption|].
  apply IH. rewrite add_spec. apply SFadd_nonneg; [assumption|apply abs_nonneg].
Qed.


(** The sum of absolute differences is never negative. *)
Lemma difference_nonneg (buf : list float) (MAX_SAMPLES offset : nat) :
  nonnegSF (Prim2SF (difference buf MAX_SAMPLES offset)).
Proof. apply fold_abs_nonneg. exact I. Qed.





(** ** Frames that repeat themselves *)

Lemma difference_flat_acc (buf : list float) (offset : nat) (l : list nat) : forall acc,
  (forall i, In i l -> get buf (i + offset) = get buf i) ->
  acc = 0 \/ acc = nan ->
  let r := fold_left
    (fun correlation i => correlation + abs (get buf i - get buf (i + offset))) l acc in
  r = 0 \/ r = nan.
Proof.
  induction l as [|i l IH]; intros acc Heq Hacc; cbn [fold_left]; [assumption|].
  apply IH; [intros j Hj; apply Heq; right; assumption|].
  rewrite (Heq i (or_introl eq_refl)).
  destruct (sub_self (get buf i)) as [-> | ->], Hacc as [-> | ->];
    [left|right|right|right]; reflexivity.
Qed.

Lemma score_flat (buf : list float) (MAX_SAMPLES offset : nat) :
  (forall i, (i < MAX_SAMPLES)%nat -> get buf (i + offset) = get buf i) ->
  score buf MAX_SAMPLES offset = 1 \/ score buf MAX_SAMPLES offset = nan.
Proof.
  intros Heq. unfold score, difference.
  destruct (difference_flat_acc buf offset (seq 0 MAX_SAMPLES) 0) as [-> | ->].
  - intros i Hi. apply Heq. apply in_seq in Hi. lia.
  - left; reflexivity.
  - destruct (div_zero_l (of_nat MAX_SAMPLES)) as [-> | [-> | ->]];
      [left|left|right]; reflexivity.
  - rewrite div_nan_l. right; reflexivity.
Qed.

Lemma get_repeat (c : float) (n i : nat) : (i < n)%nat -> get (repeat c n) i = c.
Proof.
  unfold get. revert i. induction n as [|n IH]; intros [|i] H; cbn; try lia; auto.
  apply IH. lia.
Qed.

(** X2.  A constant frame, of any length and any value (a DC offset, silence,
    even infinities or NaN), never yields a pitch: every lag scores 1 or
    [NaN], so no lag improves on its predecessor. *)
Theorem constant_frame_gives_NoPitch (c : float) (n : nat) (sampleRate : float) :
  autoCorrelate (repeat c n) sampleRate = -1 /\
  forall offset, (offset < n / 2)%nat ->
    score (repeat c n) (n / 2) offset = 1 \/ score (repeat c n) (n / 2) offset = nan.
Proof.
  assert (Hd : (2 * (n / 2) <= n)%nat) by (apply Nat.Div0.mul_div_le).
  assert (Hs : forall offset, (offset < n / 2)%nat ->
    score (repeat c n) (n / 2) offset = 1 \/ score (repeat c n) (n / 2) offset = nan).
  { intros offset Ho. apply score_flat. intros i Hi.
    rewrite !get_repeat by lia. reflexivity. }
  split; [|exact Hs].
  apply autoCorrelate_none. rewrite repeat_length. intros j Hj.
  unfold qualifies. destruct j as [|j]; cbn [previous].
  - destruct (Hs 0%nat Hj) as [-> | ->]; reflexivity.
  - destruct (Hs (S j) Hj) as [-> | ->], (Hs j ltac:(lia)) as [-> | ->]; reflexivity.
Qed.

(** ** What the scan reads *)

Lemma difference_ext (b1 b2 : list float) (offset : nat) (l : list nat) : forall acc,
  (forall i, In i l -> get b1 i = get b2 i /\ get b1 (i + offset) = get b2 (i + offset)) ->
  fold_left (fun correlation i => correlation + abs (get b1 i - get b1 (i + offset))) l acc
  = fold_left (fun correlation i => correlation + abs (get b2 i - get b2 (i + offset))) l acc.
Proof.
  induction l as [|i l IH]; intros acc H; cbn [fold_left]; [reflexivity|].
  destruct (H i (or_introl eq_refl)) as [-> ->].
  apply IH. intros j Hj. apply H. right; assumption.
Qed.

Lemma score_ext (b1 b2 : list float) (MAX_SAMPLES offset : nat) :
  (forall i, (i + 1 < 2 * MAX_SAMPLES)%nat -> get b1 i = get b2 i) ->
  (offset < MAX_SAMPLES)%nat ->
  score b1 MAX_SAMPLES offset = score b2 MAX_SAMPLES offset.
Proof.
  intros H Ho. unfold score, difference. f_equal. f_equal.
  apply difference_ext. intros i Hi. apply in_seq in Hi.
  split; apply H; lia.
Qed.

Lemma scan_ext (b1 b2 : list float) (MAX_SAMPLES : nat) :
  (forall o, (o < MAX_SAMPLES)%nat -> score b1 MAX_SAMPLES o = score b2 MAX_SAMPLES o) ->
  forall fuel offset s, (offset + fuel <= MAX_SAMPLES)%nat ->
  scan b1 MAX_SAMPLES fuel offset s = scan b2 MAX_SAMPLES fuel offset s.
Proof.
  intros H. induction fuel as [|fuel IH]; intros offset s Hf; [reflexivity|].
  cbn [scan]. rewrite (H offset) by lia.
  destruct ((0.9 <? score b2 MAX_SAMPLES offset)
            && (lastCorrelation s <? score b2 MAX_SAMPLES offset))%bool.
  - destruct (bestCorrelation s <? score b2 MAX_SAMPLES offset); apply IH; lia.
  - destruct (foundGoodCorrelation s); [reflexivity|]. apply IH. lia.
Qed.

(** X3.  The scan reads only the samples with index below
    [2 * floor(N/2) - 1].  Two frames of the same length that agree on those
    samples leave the loop in the same way with the same variables, whatever
    their last sample is (their last two for odd [N]); the other samples
    count only in the RMS of the noise gate. *)
Theorem scan_ignores_last_sample (buf1 buf2 : list float) :
  length buf1 = length buf2 ->
  (forall i, (i + 1 < 2 * (length buf1 / 2))%nat -> get buf1 i = get buf2 i) ->
  scanOf buf1 = scanOf buf2 /\
  (forall sampleRate,
     (rmsOf buf1 <? NOISE_THRESHOLD CONSTANTS) = (rmsOf buf2 <? NOISE_THRESHOLD CONSTANTS) ->
     autoCorrelate buf1 sampleRate = autoCorrelate buf2 sampleRate).
Proof.
  intros Hlen Hagree.
  assert (E : scanOf buf1 = scanOf buf2).
  { unfold scanOf. rewrite <- Hlen. apply scan_ext; [|lia].
    intros o Ho. apply score_ext; assumption. }
  split; [exact E|].
  intros sampleRate Hg. unfold autoCorrelate. rewrite Hg, E. reflexivity.
Qed.

Lemma scan_ignores_last_sample_witness :
  length triangleFrame = length triangleFrameNaN /\
  scanOf triangleFrame = scanOf triangleFrameNaN /\
  autoCorrelate triangleFrameNaN 44100 = autoCorrelate triangleFrame 44100.
Proof.
  assert (L : length triangleFrame = length triangleFrameNaN) by reflexivity.
  assert (A : forall i, (i + 1 < 2 * (length triangleFrame / 2))%nat ->
                get triangleFrame i = get triangleFrameNaN i).
  { intros i Hi. cbn in Hi.
    do 23 (destruct i as [|i]; [reflexivity|]). lia. }
  destruct (scan_ignores_last_sample triangleFrame triangleFrameNaN L A) as [E F].
  refine (conj L (conj E _)). symmetry. apply F. reflexivity.
Defined.

(** ** The threshold after the scan *)

Lemma scan_Refine_found (buf : list float) (MAX_SAMPLES : nat) :
  forall fuel offset s0 s,
  scan buf MAX_SAMPLES fuel offset s0 = Refine s -> foundGoodCorrelation s = true.
Proof.
  induction fuel as [|fuel IH]; intros offset s0 s; cbn [scan]; [discriminate|].
  destruct ((0.9 <? score buf MAX_SAMPLES offset)
            && (lastCorrelation s0 <? score buf MAX_SAMPLES offset))%bool.
  - destruct (bestCorrelation s0 <? score buf MAX_SAMPLES offset); apply IH.
  - destruct (foundGoodCorrelation s0); [|apply IH].
    intros E. injection E as <-. reflexivity.
Qed.

(** X4.  When the loop is left, [bestCorrelation] is either still 0 or above
    0.9: the final test [bestCorrelation > 0.01] is true exactly when
    [foundGoodCorrelation] is, and the value 0.01 plays no role. *)
Theorem final_threshold_is_foundGoodCorrelation (buf : list float) :
  match scanOf buf with
  | Refine s =>
      foundGoodCorrelation s = true /\ (0.9 <? bestCorrelation s) = true
  | Exhausted s =>
      (0.01 <? bestCorrelation s) = foundGoodCorrelation s /\
      (foundGoodCorrelation s = false -> bestCorrelation s = 0) /\
      (foundGoodCorrelation s = true -> (0.9 <? bestCorrelation s) = true)
  end.
Proof.
  pose proof (scanOf_spec buf) as H.
  pose proof (scan_Refine_found buf (length buf / 2) (length buf / 2) 0
                (scanInit (length buf / 2))) as R.
  fold (scanOf buf) in R.
  assert (Q : forall o, qualifies buf (length buf / 2) o = true ->
                (0.9 <? score buf (length buf / 2) o) = true)
    by (intros o Ho; unfold qualifies in Ho; apply andb_true_iff in Ho; tauto).
  destruct (scanOf buf) as [s|s].
  - split; [apply R; reflexivity|].
    destruct H as (q & o & Ho & _ & (Hlt & _ & Hin & _ & ->) & _).
    apply Q, Hin. lia.
  - destruct H as (_ & _ & _ & [(Hf & _ & Hb & _)|(Hf & q & Hlt & _ & Hin & _ & Hb)]);
      rewrite Hf, Hb.
    + split; [reflexivity|]. split; [reflexivity|discriminate].
    + assert (H9 : (0.9 <? score buf (length buf / 2) (length buf / 2 - 1)) = true)
        by (apply Q, Hin; lia).
      split; [|split; [discriminate|intros _; exact H9]].
      apply ltb_trans with (y := 0.9); [reflexivity|exact H9].
Qed.

(** ** The guard of updatePitch *)

Lemma is_nan_true (x : float) : is_nan x = true -> Prim2SF x = S754_nan.
Proof.
  unfold is_nan. rewrite eqb_spec.
  destruct (Prim2SF x) as [s|s| |s m e]; intros H; try reflexivity.
  - destruct s; discriminate.
  - destruct s; discriminate.
  - unfold SFeqb, SFcompare in H.
    rewrite Z.compare_refl, Pos.compare_cont_refl in H. destruct s; discriminate.
Qed.

Lemma ltb_nan_r (x y : float) : is_nan y = true -> (x <? y) = false.
Proof.
  intros H. rewrite ltb_spec, (is_nan_true y H).
  destruct (Prim2SF x) as [s|s| |s m e]; reflexivity.
Qed.

(** A number that is not below the noise threshold is above [MIN_RMS]. *)
Lemma above_gate_above_MIN_RMS (rms : float) :
  is_nan rms = false ->
  (rms <? NOISE_THRESHOLD CONSTANTS) = false ->
  (MIN_RMS CONSTANTS <? rms) = true.
Proof.
  intros Hn Hg. apply is_nan_false in Hn.
  apply ltb_false_klt in Hg; [|assumption|discriminate].
  apply ltb_klt. split; [discriminate|]. split; [assumption|].
  assert (K1 : fkey (NOISE_THRESHOLD CONSTANTS) = (1, -58, 5764607523034235)%Z)
    by reflexivity.
  assert (K2 : fkey (MIN_RMS CONSTANTS) = (1, -62, 4611686018427388)%Z)
    by reflexivity.
  rewrite K1 in Hg. rewrite K2.
  destruct (fkey rms) as [[a b] c]. unfold klt in *. lia.
Qed.

(** X5.  In [updatePitch] the test [rms > MIN_RMS] is implied by the noise
    gate of [autoCorrelate]: when the RMS of the frame is a number, the pitch
    is stored exactly when [autoCorrelate] returned something else than [-1].
    When the RMS is [NaN] the frame is never stored, whatever
    [autoCorrelate] returned: the call changes nothing but [animationId],
    which takes the new request id, and the pitch shown is the smoothed
    pitch of the state before.  The same holds when [autoCorrelate] returns
    [-1]. *)
Theorem updatePitch_guard (engineOrder : list float -> list float)
  (buf : list float) (sampleRate : float) (requestId : handle) (st : tunerState) :
  (is_nan (rmsOf buf) = false ->
   accepted (rmsOf buf) (autoCorrelate buf sampleRate)
   = negb (autoCorrelate buf sampleRate =? -1)) /\
  (is_nan (rmsOf buf) = true ->
   updatePitch engineOrder buf sampleRate requestId st
   = (withAnimationId (Some requestId) st, smoothedPitch engineOrder st)) /\
  ((autoCorrelate buf sampleRate =? -1) = true ->
   updatePitch engineOrder buf sampleRate requestId st
   = (withAnimationId (Some requestId) st, smoothedPitch engineOrder st)).
Proof.
  split; [|split].
  - intros Hn. unfold accepted.
    destruct (autoCorrelate buf sampleRate =? -1) eqn:E; [apply andb_false_r|].
    rewrite andb_true_r.
    apply above_gate_above_MIN_RMS; [assumption|].
    destruct (rmsOf buf <? NOISE_THRESHOLD CONSTANTS) eqn:G; [|reflexivity].
    unfold autoCorrelate in E. rewrite G in E. discriminate.
  - intros Hn. unfold updatePitch, update, trackPitch, trackWith, accepted.
    rewrite (ltb_nan_r _ _ Hn). reflexivity.
  - intros E. unfold updatePitch, update, trackPitch, trackWith, accepted.
    rewrite E, andb_false_r. reflexivity.
Qed.

Lemma updatePitch_guard_witness :
  let engineOrder := fun l : list float => l in
  is_nan (rmsOf triangleFrameNaN) = true /\
  autoCorrelate triangleFrameNaN 44100 = 5512.5 /\
  updatePitch engineOrder triangleFrameNaN 44100 7%nat initialState
  = (withAnimationId (Some 7%nat) initialState, smoothedPitch engineOrder initialState) /\
  is_nan (rmsOf triangleFrame) = false /\
  accepted (rmsOf triangleFrame) (autoCorrelate triangleFrame 44100) = true.
Proof.
  cbv zeta.
  assert (N : is_nan (rmsOf triangleFrameNaN) = true) by reflexivity.
  assert (M : is_nan (rmsOf triangleFrame) = false) by reflexivity.
  destruct (updatePitch_guard (fun l => l) triangleFrameNaN 44100 7%nat initialState)
    as (_ & U & _).
  destruct (updatePitch_guard (fun l => l) triangleFrame 44100 7%nat initialState)
    as (A & _ & _).
  refine (conj N (conj eq_refl (conj (U N) (conj M _)))).
  rewrite (A M). reflexivity.
Defined.

(** ** The history with the shipped capacity *)

(** X6.  With [BUFFER_SIZE = 1] the history holds only the newest accepted
    frequency, so the median is that frequency: after any run of frames the
    smoothed pitch is the last accepted frequency (0 when none was accepted),
    and no earlier frame has any influence. *)
Theorem smoothed_is_last_accepted (engineOrder : list float -> list float)
  (frames : list (float * float)) :
  smoothedPitch engineOrder (run frames initialState) = last (acceptedOf frames) 0 /\
  (acceptedOf frames <> [] ->
   pitchBuffer (run frames initialState) = [last (acceptedOf frames) 0]).
Proof.
  unfold run, smoothedPitch. rewrite runWith_history, runWith_lastValidPitch.
  change (BUFFER_SIZE CONSTANTS) with 1%nat.
  destruct (acceptedOf frames) as [|x l] eqn:E.
  - split; [reflexivity|congruence].
  - rewrite (skipn_last (x :: l) 0) by discriminate. split; reflexivity.
Qed.

Lemma smoothed_is_last_accepted_witness :
  let engineOrder := fun l : list float => l in
  acceptedOf [(0.5, 100); (0.5, 100); (0.5, 100); (0.5, 500); (0.0005, 100)] <> [] /\
  smoothedPitch engineOrder
    (run [(0.5, 100); (0.5, 100); (0.5, 100); (0.5, 500); (0.0005, 100)]
         initialState) = 500 /\
  pitchBuffer (run [(0.5, 100); (0.5, 100); (0.5, 100); (0.5, 500); (0.0005, 100)]
                   initialState) = [500].
Proof.
  cbv zeta.
  assert (H : acceptedOf [(0.5, 100); (0.5, 100); (0.5, 100); (0.5, 500); (0.0005, 100)]
              <> []) by discriminate.
  destruct (smoothed_is_last_accepted (fun l => l)
              [(0.5, 100); (0.5, 100); (0.5, 100); (0.5, 500); (0.0005, 100)]) as [S P].
  exact (conj H (conj S (P H))).
Defined.

(** ** cleanup followed by more frames *)

Lemma runWith_pitchBuffer (capacity : nat) (frames : list (float * float)) :
  forall st st', pitchBuffer st = pitchBuffer st' ->
  pitchBuffer (runWith capacity frames st) = pitchBuffer (runWith capacity frames st').
Proof.
  induction frames as [|f frames IH] using rev_ind; intros st st' H; [exact H|].
  rewrite !runWith_snoc. unfold trackWith.
  destruct (accepted (fst f) (snd f)); cbn [pitchBuffer].
  - f_equal. apply IH. assumption.
  - apply IH. assumption.
Qed.

Lemma last_nonempty (l : list float) (d d' : float) : l <> [] -> last l d = last l d'.
Proof.
  induction l as [|x l IH]; [congruence|]. intros _.
  destruct l as [|y l]; [reflexivity|]. apply IH. discriminate.
Qed.

(** X7.  [cleanup] never touches [lastValidPitch].  When no call on a held
    handle throws, the tuner behaves afterwards like a fresh one except for
    the kept [lastValidPitch]: for every run of frames and every capacity the
    history is the one a fresh state would have; the smoothed pitch is the
    fresh one as soon as one frame has been accepted, and until then it is
    the kept [lastValidPitch] (read through [|| 0]); a second [cleanup]
    changes nothing.  When a call on a held handle throws, "Reset state" is
    skipped: the history and [isRunning] stay as they were. *)
Theorem cleanup_then_run (engineOrder : list float -> list float)
  (throws : cleanupCall -> bool) (capacity : nat) (st : tunerState)
  (frames : list (float * float)) :
  lastValidPitch (cleanup throws st) = lastValidPitch st /\
  ((forall call, In call (callsOf st) -> throws call = false) ->
   pitchBuffer (runWith capacity frames (cleanup throws st))
   = pitchBuffer (runWith capacity frames initialState) /\
   (acceptedOf frames <> [] ->
    smoothedPitch engineOrder (runWith capacity frames (cleanup throws st))
    = smoothedPitch engineOrder (runWith capacity frames initialState)) /\
   (acceptedOf frames = [] ->
    smoothedPitch engineOrder (runWith capacity frames (cleanup throws st))
    = orElse (lastValidPitch st) 0) /\
   cleanup throws (cleanup throws st) = cleanup throws st) /\
  ((exists call, In call (callsOf st) /\ throws call = true) ->
   pitchBuffer (cleanup throws st) = pitchBuffer st /\
   isRunning (cleanup throws st) = isRunning st).
Proof.
  split; [apply cleanup_lastValidPitch|]. split; [|apply cleanup_thrown].
  intros C. rewrite (cleanup_completes throws st C).
  set (st0 := {| audioContext := None; analyser := None; mediaStreamSource := None;
                 animationId := match pendingRequest st with
                                | Some _ => None
                                | None => animationId st
                                end;
                 pitchBuffer := [];
                 lastValidPitch := lastValidPitch st; gainNode := None;
                 isRunning := false; currentStream := None |}).
  assert (P : pitchBuffer (runWith capacity frames st0)
              = pitchBuffer (runWith capacity frames initialState))
    by (apply runWith_pitchBuffer; reflexivity).
  split; [exact P|]. split; [|split].
  - intros Hne. unfold smoothedPitch. rewrite P, !runWith_lastValidPitch.
    rewrite (last_nonempty _ (lastValidPitch st0) (lastValidPitch initialState))
      by assumption.
    reflexivity.
  - intros Hnone. unfold smoothedPitch.
    rewrite P, runWith_lastValidPitch, Hnone, run_nothing_accepted by assumption.
    reflexivity.
  - rewrite (cleanup_completes throws st0).
    + unfold st0, pendingRequest. cbn [animationId lastValidPitch].
      destruct (animationId st) as [[|k]|]; reflexivity.
    + unfold st0, callsOf, callFor, pendingRequest.
      cbn [audioContext analyser mediaStreamSource animationId gainNode currentStream].
      destruct (animationId st) as [[|k]|]; intros call [].
Qed.

Lemma cleanup_then_run_witness :
  let engineOrder := fun l : list float => l in
  let throws := fun call => match call with closeContext => true | _ => false end in
  let st := withAnimationId (Some 7%nat) (run [(0.5, 440)] initialState) in
  (forall call, In call (callsOf st) -> throws call = false) /\
  acceptedOf [(0.0005, 100); (0.5, -1)] = [] /\
  smoothedPitch engineOrder (run [(0.0005, 100); (0.5, -1)] (cleanup throws st)) = 440 /\
  acceptedOf [(0.0005, 100); (0.5, 330)] <> [] /\
  smoothedPitch engineOrder (run [(0.0005, 100); (0.5, 330)] (cleanup throws st))
  = smoothedPitch engineOrder (run [(0.0005, 100); (0.5, 330)] initialState) /\
  let held := clearCurrentStream (clearAudioContext st) in
  let st2 := {| audioContext := Some 1%nat; analyser := analyser held;
                mediaStreamSource := mediaStreamSource held;
                animationId := animationId held; pitchBuffer := pitchBuffer held;
                lastValidPitch := lastValidPitch held; gainNode := gainNode held;
                isRunning := true; currentStream := currentStream held |} in
  (exists call, In call (callsOf st2) /\ throws call = true) /\
  pitchBuffer (cleanup throws st2) = [440] /\
  isRunning (cleanup throws st2) = true.
Proof.
  cbv zeta.
  set (throws := fun call => match call with closeContext => true | _ => false end).
  set (st := withAnimationId (Some 7%nat) (run [(0.5, 440)] initialState)).
  assert (C : forall call, In call (callsOf st) -> throws call = false).
  { intros call [<-|[]]. reflexivity. }
  assert (E : acceptedOf [(0.0005, 100); (0.5, -1)] = []) by reflexivity.
  assert (N : acceptedOf [(0.0005, 100); (0.5, 330)] <> []) by discriminate.
  destruct (cleanup_then_run (fun l => l) throws (BUFFER_SIZE CONSTANTS) st
              [(0.0005, 100); (0.5, -1)]) as (_ & S0 & _).
  destruct (S0 C) as (_ & _ & S0' & _).
  destruct (cleanup_then_run (fun l => l) throws (BUFFER_SIZE CONSTANTS) st
              [(0.0005, 100); (0.5, 330)]) as (_ & S1 & _).
  destruct (S1 C) as (_ & S1' & _ & _).
  refine (conj C (conj E (conj (S0' E) (conj N (conj (S1' N) _))))).
  set (st2 := {| audioContext := Some 1%nat; analyser := _; mediaStreamSource := _;
                 animationId := _; pitchBuffer := _; lastValidPitch := _;
                 gainNode := _; isRunning := true; currentStream := _ |}).
  assert (T : exists call, In call (callsOf st2) /\ throws call = true).
  { exists closeContext. split; [right; left; reflexivity|reflexivity]. }
  destruct (cleanup_then_run (fun l => l) throws (BUFFER_SIZE CONSTANTS) st2 [])
    as (_ & _ & S2).
  exact (conj T (S2 T)).
Defined.

Example Math_min_max_zeros :
  Math_max 0 (-0) = 0 /\ Math_max (-0) 0 = 0 /\
  Math_min 0 (-0) = -0 /\ Math_min (-0) 0 = -0 /\
  Math_max 1 nan = nan /\ Math_min 40 7 = 7 /\ gainDbOf 55 = 40 /\ gainDbOf nan = 0.
Proof. repeat split. Qed.

(** ** Math.min and Math.max *)

Lemma is_nan_num (x : float) : is_num x -> is_nan x = false.
Proof.
  intros H. destruct (is_nan x) eqn:E; trivial.
  apply is_nan_true in E. contradiction.
Qed.

Lemma Math_min_spec (a b : float) :
  is_num a -> is_num b ->
  (Math_min a b = a \/ Math_min a b = b) /\
  ~ klt (fkey a) (fkey (Math_min a b)) /\
  ~ klt (fkey b) (fkey (Math_min a b)).
Proof.
  intros Ha Hb. unfold Math_min.
  rewrite (is_nan_num a Ha), (is_nan_num b Hb). cbn [orb].
  destruct (a <? b) eqn:E1.
  - split; [left; reflexivity|]. apply ltb_klt in E1 as (_ & _ & K).
    destruct (fkey a) as [[a1 a2] a3], (fkey b) as [[b1 b2] b3]. unfold klt in *. lia.
  - apply ltb_false_klt in E1; trivial. destruct (b <? a) eqn:E2.
    + split; [right; reflexivity|]. apply ltb_klt in E2 as (_ & _ & K).
      destruct (fkey a) as [[a1 a2] a3], (fkey b) as [[b1 b2] b3]. unfold klt in *. lia.
    + apply ltb_false_klt in E2; trivial.
      destruct (signbit a); (split; [auto|]);
        destruct (fkey a) as [[a1 a2] a3], (fkey b) as [[b1 b2] b3];
        unfold klt in *; lia.
Qed.

Lemma Math_max_spec (a b : float) :
  is_num a -> is_num b ->
  (Math_max a b = a \/ Math_max a b = b) /\
  ~ klt (fkey (Math_max a b)) (fkey a) /\
  ~ klt (fkey (Math_max a b)) (fkey b).
Proof.
  intros Ha Hb. unfold Math_max.
  rewrite (is_nan_num a Ha), (is_nan_num b Hb). cbn [orb].
  destruct (a <? b) eqn:E1.
  - split; [right; reflexivity|]. apply ltb_klt in E1 as (_ & _ & K).
    destruct (fkey a) as [[a1 a2] a3], (fkey b) as [[b1 b2] b3]. unfold klt in *. lia.
  - apply ltb_false_klt in E1; trivial. destruct (b <? a) eqn:E2.
    + split; [left; reflexivity|]. apply ltb_klt in E2 as (_ & _ & K).
      destruct (fkey a) as [[a1 a2] a3], (fkey b) as [[b1 b2] b3]. unfold klt in *. lia.
    + apply ltb_false_klt in E2; trivial.
      destruct (signbit a); (split; [auto|]);
        destruct (fkey a) as [[a1 a2] a3], (fkey b) as [[b1 b2] b3];
        unfold klt in *; lia.
Qed.

Lemma Math_min_num (a b : float) : is_num a -> is_num b -> is_num (Math_min a b).
Proof.
  intros Ha Hb. destruct (Math_min_spec a b Ha Hb) as [[-> | ->] _]; assumption.
Qed.

Lemma Math_max_num (a b : float) : is_num a -> is_num b -> is_num (Math_max a b).
Proof.
  intros Ha Hb. destruct (Math_max_spec a b Ha Hb) as [[-> | ->] _]; assumption.
Qed.

(** Clamping a number into [[lo, hi]] with [Math.max(lo, Math.min(hi, x))]. *)
Lemma clamp_bounds (lo hi x : float) :
  is_num lo -> is_num hi -> is_num x -> (lo <=? hi) = true ->
  (lo <=? Math_max lo (Math_min hi x)) = true /\
  (Math_max lo (Math_min hi x) <=? hi) = true.
Proof.
  intros Hlo Hhi Hx Hle.
  pose proof (Math_min_num hi x Hhi Hx) as Hm.
  pose proof (Math_max_num lo _ Hlo Hm) as HM.
  destruct (Math_min_spec hi x Hhi Hx) as (_ & M1 & _).
  destruct (Math_max_spec lo _ Hlo Hm) as (C & X1 & _).
  apply leb_klt in Hle as (_ & _ & Hle).
  split; apply leb_klt; (split; [assumption|split; [assumption|]]).
  - exact X1.
  - destruct C as [-> | ->]; assumption.
Qed.

Lemma orElse_num (x : float) : is_num (orElse x 0).
Proof.
  unfold orElse. destruct (x =? 0) eqn:E; cbn [orb]; [discriminate|].
  destruct (is_nan x) eqn:N; [discriminate|]. apply is_nan_false. assumption.
Qed.

(** X8.  Whatever [parseInt] returns for the slider value, a number of any
    size or [NaN], the gain in dB is a number between 0 and 40: the test
    [isNaN(gainDb)] after it can never succeed.  A value strictly between 0
    and 40 is passed on as it is. *)
Theorem gainDb_in_range (parsed : float) :
  is_nan (gainDbOf parsed) = false /\
  (0 <=? gainDbOf parsed) = true /\
  (gainDbOf parsed <=? 40) = true /\
  ((0 <? parsed) = true -> (parsed <? 40) = true -> gainDbOf parsed = parsed).
Proof.
  unfold gainDbOf.
  pose proof (orElse_num parsed) as Hv.
  assert (H0 : is_num 0) by discriminate. assert (H40 : is_num 40) by discriminate.
  pose proof (Math_max_num _ 0 Hv H0) as Hm.
  pose proof (Math_min_num _ 40 Hm H40) as Hg.
  destruct (Math_max_spec _ 0 Hv H0) as (_ & _ & G0).
  destruct (Math_min_spec _ 40 Hm H40) as (C & _ & G40).
  repeat split.
  - apply is_nan_num. assumption.
  - apply leb_klt. split; [assumption|split; [assumption|]].
    destruct C as [-> | ->]; [exact G0|].
    intros K. cbn in K. lia.
  - apply leb_klt. split; [assumption|split; [assumption|exact G40]].
  - intros P L.
    assert (E : orElse parsed 0 = parsed).
    { apply orElse_nonzero.
      - destruct (parsed =? 0) eqn:Z; trivial.
        rewrite eqb_spec in Z. rewrite ltb_spec in P.
        change (Prim2SF 0) with (S754_zero false) in *.
        destruct (Prim2SF parsed) as [[]|[]| |[] m e]; discriminate.
      - apply is_nan_num. apply ltb_klt in P. tauto. }
    rewrite E. unfold Math_max, Math_min.
    assert (N : is_nan parsed = false) by (apply is_nan_num; apply ltb_klt in P; tauto).
    rewrite N. cbn [orb]. change (is_nan 0) with false. change (is_nan 40) with false.
    rewrite (ltb_asym _ _ P), P. cbn [orb]. rewrite N, L. reflexivity.
Qed.

Lemma gainDb_in_range_witness :
  (0 <? 12) = true /\ (12 <? 40) = true /\ gainDbOf 12 = 12.
Proof.
  assert (P : (0 <? 12) = true) by reflexivity.
  assert (L : (12 <? 40) = true) by reflexivity.
  destruct (gainDb_in_range 12) as (_ & _ & _ & I).
  exact (conj P (conj L (I P L))).
Defined.

(** X9.  The indicator of [updateTunerGraph] stays on the canvas: for a
    canvas width that is a non-negative number and a position that is a
    number, the clamped position lies between 0 and the width.  A [NaN]
    position (from [NaN] cents, say) stays [NaN]. *)
Theorem clampedPosition_on_canvas (width cents : float) :
  ((0 <=? width) = true -> is_nan (positionOf width cents) = false ->
   (0 <=? clampedPosition width cents) = true /\
   (clampedPosition width cents <=? width) = true) /\
  (is_nan (positionOf width cents) = true ->
   is_nan (clampedPosition width cents) = true).
Proof.
  split.
  - intros Hw Hp. unfold clampedPosition.
    apply clamp_bounds; trivial.
    + discriminate.
    + apply leb_klt in Hw. tauto.
    + apply is_nan_false. assumption.
  - intros Hp. unfold clampedPosition, Math_max, Math_min.
    rewrite Hp, orb_true_r. reflexivity.
Qed.

Lemma clampedPosition_on_canvas_witness :
  (0 <=? 300) = true /\
  is_nan (positionOf 300 70) = false /\
  (positionOf 300 70 <=? 300) = false /\
  (0 <=? clampedPosition 300 70) = true /\
  (clampedPosition 300 70 <=? 300) = true.
Proof.
  assert (W : (0 <=? 300) = true) by reflexivity.
  assert (P : is_nan (positionOf 300 70) = false) by reflexivity.
  destruct (clampedPosition_on_canvas 300 70) as [B _].
  destruct (B W P) as [B0 B1].
  exact (conj W (conj P (conj eq_refl (conj B0 B1)))).
Defined.

(** ** Colour and arrow *)

Lemma abs_num (c : float) : is_nan c = false -> is_num (abs c).
Proof.
  intros H. apply is_nan_false in H. unfold is_num in *. rewrite abs_spec.
  destruct (Prim2SF c); try discriminate. congruence.
Qed.

(** X10.  The colour of the indicator and the direction glyph agree for
    every cents value that is a number: a reading labelled in tune (" -") is
    drawn green, and an orange or red indicator always comes with an arrow.
    (Between 3 and 5 cents the indicator is green with an arrow.)  For [NaN]
    cents the label is " -" and the indicator red. *)
Theorem colour_agrees_with_label (cents : float) :
  (is_nan cents = false ->
   (direction cents = " -"%string -> colorOf cents = "#4CAF50"%string) /\
   (colorOf cents <> "#4CAF50"%string -> direction cents <> " -"%string)) /\
  (is_nan cents = true ->
   direction cents = " -"%string /\ colorOf cents = "#FF0000"%string).
Proof.
  split.
  - intros Hn. pose proof (abs_num cents Hn) as Ha.
    assert (K3 : fkey 3 = (1, -51, 6755399441055744)%Z) by reflexivity.
    assert (K5 : fkey 5 = (1, -50, 5629499534213120)%Z) by reflexivity.
    assert (G : (3 <? abs cents) = false -> (abs cents <? 5) = true).
    { intros H. apply ltb_false_klt in H; [|discriminate|assumption].
      apply ltb_klt. split; [assumption|split; [discriminate|]].
      rewrite K3 in H. rewrite K5.
      destruct (fkey (abs cents)) as [[a b] c]. unfold klt in *. lia. }
    unfold direction, colorOf. cbv zeta.
    destruct (3 <? abs cents) eqn:E.
    + split.
      * destruct (0 <? cents); discriminate.
      * intros _. destruct (0 <? cents); discriminate.
    + rewrite (G eq_refl). split; [reflexivity|]. intros H. congruence.
  - intros Hn. apply is_nan_true in Hn.
    unfold direction, colorOf. cbv zeta. rewrite !ltb_spec, abs_spec, Hn.
    split; reflexivity.
Qed.

Lemma colour_agrees_with_label_witness :
  is_nan 2.5 = false /\ direction 2.5 = " -"%string /\ colorOf 2.5 = "#4CAF50"%string /\
  is_nan (-20) = false /\ colorOf (-20) <> "#4CAF50"%string /\
  direction (-20) <> " -"%string.
Proof.
  assert (N1 : is_nan 2.5 = false) by reflexivity.
  assert (N2 : is_nan (-20) = false) by reflexivity.
  assert (D : direction 2.5 = " -"%string) by reflexivity.
  assert (C : colorOf (-20) <> "#4CAF50"%string) by discriminate.
  destruct (colour_agrees_with_label 2.5) as [A _].
  destruct (colour_agrees_with_label (-20)) as [B _].
  exact (conj N1 (conj D (conj (proj1 (A N1) D)
          (conj N2 (conj C (proj2 (B N2) C)))))).
Defined.

(** ** Note names and octaves *)

Lemma NOTE_STRINGS_NoDup : NoDup (NOTE_STRINGS CONSTANTS).
Proof.
  cbn. repeat (constructor; [cbn; intuition discriminate|]). constructor.
Qed.

Section NoteNames.

Local Open Scope Z_scope.

(** X11.  For note numbers from 0 on, the displayed name and octave
    determine the note: the name is the entry of [NOTE_STRINGS] at
    [note mod 12], [note = 12 * (octave + 1) + (note mod 12)], and two
    different notes never get the same name and octave.  For a negative
    note number that is not a multiple of 12 the index [note % 12] is
    negative and the name is [undefined]. *)
Theorem note_name_and_octave (note : Z) :
  (0 <= note ->
   nth_error (NOTE_STRINGS CONSTANTS) (Z.to_nat (note mod 12)) = noteNameOf note /\
   noteNameOf note <> None /\
   note = 12 * (octaveOf note + 1) + note mod 12 /\
   (forall other, 0 <= other ->
      noteNameOf other = noteNameOf note -> octaveOf other = octaveOf note ->
      other = note)) /\
  (note < 0 -> note mod 12 <> 0 -> noteNameOf note = None).
Proof.
  assert (R : forall n, 0 <= n -> noteNameOf n
              = nth_error (NOTE_STRINGS CONSTANTS) (Z.to_nat (n mod 12))).
  { intros n Hn. unfold noteNameOf. cbv zeta.
    rewrite Z.rem_mod_nonneg by lia.
    pose proof (Z.mod_pos_bound n 12 ltac:(lia)).
    destruct (Z.ltb_spec (n mod 12) 0); [lia|reflexivity]. }
  split.
  - intros Hn. pose proof (Z.mod_pos_bound note 12 ltac:(lia)) as Hb.
    pose proof (Z.div_mod note 12 ltac:(lia)) as Hd.
    repeat split.
    + symmetry. apply R. assumption.
    + rewrite R by assumption. apply nth_error_Some. cbn. lia.
    + unfold octaveOf. lia.
    + intros other Ho Hname Hoct.
      pose proof (Z.mod_pos_bound other 12 ltac:(lia)) as Hb'.
      pose proof (Z.div_mod other 12 ltac:(lia)) as Hd'.
      rewrite !R in Hname by assumption.
      apply (proj1 (NoDup_nth_error _) NOTE_STRINGS_NoDup) in Hname; [|cbn; lia].
      unfold octaveOf in Hoct. lia.
  - intros Hn Hm. unfold noteNameOf. cbv zeta.
    pose proof (Z.rem_bound_pos_neg note 12 ltac:(lia) ltac:(lia)) as Hb.
    destruct (Z.ltb_spec (Z.rem note 12) 0) as [|Hge]; [reflexivity|].
    exfalso. apply Hm.
    assert (E : Z.rem note 12 = 0) by lia.
    apply Z.rem_divide in E; [|lia]. apply Z.mod_divide; [lia|assumption].
Qed.

Lemma note_name_and_octave_witness :
  0 <= 69 /\ noteNameOf 69 = Some "A"%string /\ octaveOf 69 = 4 /\
  69 = 12 * (octaveOf 69 + 1) + 69 mod 12 /\
  -5 < 0 /\ (-5) mod 12 <> 0 /\ noteNameOf (-5) = None.
Proof.
  assert (P : 0 <= 69) by lia.
  assert (N : -5 < 0) by lia.
  assert (M : (-5) mod 12 <> 0) by (cbn; lia).
  destruct (note_name_and_octave 69) as [A _].
  destruct (note_name_and_octave (-5)) as [_ B].
  destruct (A P) as (_ & _ & D & _).
  exact (conj P (conj eq_refl (conj eq_refl (conj D (conj N (conj M (B N M))))))).
Defined.

End NoteNames.

(** ** sw.js: cache clean-up *)

Lemma filter_absent (x : string) (l : list string) :
  ~ In x l -> filter (String.eqb x) l = [].
Proof.
  induction l as [|y l IH]; intros H; [reflexivity|]. cbn [filter].
  destruct (String.eqb_spec x y) as [->|_].
  - exfalso. apply H. left; reflexivity.
  - apply IH. intros K. apply H. right; assumption.
Qed.

Lemma filter_only (x : string) (l : list string) :
  NoDup l -> In x l -> filter (String.eqb x) l = [x].
Proof.
  induction 1 as [|y l Hy Hnd IH]; intros Hin; [contradiction|].
  cbn [filter]. destruct (String.eqb_spec x y) as [->|Hne].
  - rewrite (filter_absent y l Hy). reflexivity.
  - apply IH. destruct Hin as [->|]; [congruence|assumption].
Qed.

(** X14.  After the [activate] handler of the service worker, when the
    current cache exists: exactly one cache with the prefix "guitar-tuner-"
    is left, the current one; every cache without the prefix is left alone,
    in the same order; and running the handler again changes nothing. *)
Theorem activate_keeps_current_cache (cacheNames : list string) :
  NoDup cacheNames -> In CACHE_VERSION cacheNames ->
  filter (String.prefix "guitar-tuner-") (activate cacheNames) = [CACHE_VERSION] /\
  filter (fun name => negb (String.prefix "guitar-tuner-" name)) (activate cacheNames)
  = filter (fun name => negb (String.prefix "guitar-tuner-" name)) cacheNames /\
  activate (activate cacheNames) = activate cacheNames.
Proof.
  intros Hnd Hin. unfold activate. repeat split.
  - rewrite <- (filter_only CACHE_VERSION cacheNames Hnd Hin).
    clear. induction cacheNames as [|n l IH]; [reflexivity|]. cbn [filter].
    unfold isOldCache at 1.
    destruct (String.eqb_spec n CACHE_VERSION) as [->|Hne].
    + cbn. f_equal. exact IH.
    + rewrite andb_true_r.
      destruct (String.eqb_spec CACHE_VERSION n) as [E|_]; [congruence|].
      destruct (String.prefix "guitar-tuner-" n) eqn:P; cbn [negb filter].
      * exact IH.
      * rewrite P. exact IH.
  - clear. induction cacheNames as [|n l IH]; [reflexivity|]. cbn [filter].
    unfold isOldCache at 1.
    destruct (String.prefix "guitar-tuner-" n) eqn:P; cbn [andb negb].
    + destruct (negb (negb (String.eqb n CACHE_VERSION))); cbn [filter];
        [rewrite P; cbn [negb]|]; exact IH.
    + cbn [filter]. rewrite P. cbn [negb]. f_equal. exact IH.
  - clear. induction cacheNames as [|n l IH]; [reflexivity|]. cbn [filter].
    destruct (negb (isOldCache n)) eqn:E; cbn [filter]; [rewrite E; f_equal|]; exact IH.
Qed.

Lemma activate_keeps_current_cache_witness :
  let names := ["guitar-tuner-v1"; "other-app"; "guitar-tuner-v2"; "guitar-tuner-"]%string in
  NoDup names /\ In CACHE_VERSION names /\
  activate names = ["other-app"; "guitar-tuner-v2"]%string /\
  filter (String.prefix "guitar-tuner-") (activate names) = [CACHE_VERSION].
Proof.
  cbv zeta.
  assert (N : NoDup ["guitar-tuner-v1"; "other-app"; "guitar-tuner-v2"; "guitar-tuner-"]%string).
  { repeat (constructor; [cbn; intuition discriminate|]). constructor. }
  assert (I : In CACHE_VERSION
                ["guitar-tuner-v1"; "other-app"; "guitar-tuner-v2"; "guitar-tuner-"]%string)
    by (cbn; tauto).
  destruct (activate_keeps_current_cache _ N I) as (F & _ & _).
  exact (conj N (conj I (conj eq_refl F))).
Defined.
